(** * jw::hash_map: open addressing, linear probing, backward-shift erase

    A shallow embedding of [include/jw/power_of_two_growth_policy.h],
    [include/jw/hash_map.h] and [include/jw/count_allocator.h], and the
    properties of the table and of the allocator that follow from the code.

    Conventions of the embedding.
    - [std::size_t] is a [Z] in [0, 2^64); every arithmetic operation of the
      source that can leave that range is followed by [wrap].
    - [float] values that occur in the source are images of [size_t] values,
      possibly scaled by the constant [0.5f]; they are represented exactly
      (see [float_of_size]).
    - [std::vector<value_type>] is a [list (Key * T)]; reading or writing
      past its end is undefined behaviour in C++ and is the fault
      [OutOfBounds] here.
    - The unbounded [for (;;)] probe loops take a fuel argument; running out
      of fuel is the outcome [Timeout], which is distinct from every fault.
    - [assert] is a fault when assertions are compiled in and a no-op under
      [NDEBUG]; the flag [ndebug] selects the build. *)

From stdpp Require Import base tactics option list numbers.
From Stdlib Require Import ZArith Lia Bool.

Local Open Scope Z_scope.

(** ** Outcomes of a call *)

Inductive error : Type :=
  | AssertFailed      (* assert(...) with assertions compiled in *)
  | OutOfBounds       (* m_buckets[idx] with idx >= m_buckets.size() *)
  | LengthError       (* std::vector::resize beyond max_size() *)
  | KeyNotFound       (* std::out_of_range thrown by at() *)
  | FloatCastRange.   (* float -> size_t conversion of a value >= 2^64 *)

Inductive outcome (A : Type) : Type :=
  | Done (a : A)
  | Fault (e : error)
  | Timeout.

Arguments Done {A} a.
Arguments Fault {A} e.
Arguments Timeout {A}.

Definition bind {A B : Type} (m : outcome A) (k : A -> outcome B) : outcome B :=
  match m with
  | Done a => k a
  | Fault e => Fault e
  | Timeout => Timeout
  end.

Notation "'do' x <- m ; k" := (bind m (fun x => k))
  (at level 10, x pattern, m at level 100, k at level 200).
Notation "m ;; k" := (bind m (fun _ => k))
  (at level 100, k at level 200, right associativity, only parsing).

Definition assert_that (ndebug : bool) (c : bool) : outcome unit :=
  if ndebug then Done tt else if c then Done tt else Fault AssertFailed.

(** ** Machine arithmetic *)

Definition size_t_digits : Z := 64.

Definition wrap (z : Z) : Z := z mod 2 ^ size_t_digits.

(** [static_cast<float>(n)] for a [size_t] [n]: IEEE-754 binary32 keeps 24
    significant bits and rounds to nearest, ties to even (the conversion of
    the usual arithmetic conversions on a 64-bit target, where [float]
    expressions carry no excess precision).  The result is again an integer
    (at most [2^64]), which is how it is represented. *)
Definition float_of_size (n : Z) : Z :=
  let e := Z.log2 n - 23 in
  if e <=? 0 then n
  else
    let q := Z.shiftr n e in
    let r := Z.land n (Z.ones e) in
    let half := Z.shiftl 1 (e - 1) in
    let q' := if r <? half then q
              else if half <? r then q + 1
              else if Z.even q then q else q + 1 in
    Z.shiftl q' e.

(** [static_cast<size_type>(f)] for an integral float [f]: undefined when the
    value does not fit. *)
Definition size_of_float (f : Z) : outcome Z :=
  if f <? 2 ^ size_t_digits then Done f else Fault FloatCastRange.

(** ** The growth policy *)

Module power_of_two_growth_policy.

Definition compute_index (hash capacity : Z) : Z :=
  Z.land hash (wrap (capacity - 1)).

(** The loop [for (int i = 1; i < digits; i <<= 1) m |= m >> i]. *)
Fixpoint smear_loop (fuel : nat) (i : Z) (m : Z) : Z :=
  match fuel with
  | O => m
  | S fuel' =>
      if i <? size_t_digits
      then smear_loop fuel' (Z.shiftl i 1) (Z.lor m (Z.shiftr m i))
      else m
  end.

Definition highest_capacity : Z := Z.shiftl 1 (size_t_digits - 1).

Definition compute_closest_capacity (ndebug : bool) (min_capacity : Z) : outcome Z :=
  if min_capacity >? highest_capacity then
    assert_that ndebug false ;;
    Done highest_capacity
  else
    let m := wrap (min_capacity - 1) in
    let m := smear_loop 7 1 m in
    Done (wrap (m + 1)).

Definition minimum_capacity : Z := 8.

End power_of_two_growth_policy.

Import power_of_two_growth_policy.

(** ** Auxiliary notions *)

(** A capacity as the table has it once it is not empty: a power of two. *)
Definition is_pow2 (n : Z) : Prop := exists p, 0 <= p /\ n = 2 ^ p.

(** One round of the bit-smearing loop. *)
Definition smear_step (i m : Z) : Z := Z.lor m (Z.shiftr m i).

(** Bits [p], [p-1], ..., [p-w+1] of [y] are set and none above [p] is. *)
Definition filled (p w y : Z) : Prop :=
  (forall n, p < n -> Z.testbit y n = false) /\
  (forall n, 0 <= n <= p -> p - w < n -> Z.testbit y n = true).

(** Round to nearest, ties to even, of [q + r / (2 * half)]. *)
Definition round_even (q r half : Z) : Z :=
  if r <? half then q
  else if half <? r then q + 1
  else if Z.even q then q else q + 1.


(** ** The table *)

(** The template parameters of [hash_map] and what the embedding takes from
    the environment. [KeyEqual] is [std::equal_to<void>], i.e. [==] on keys,
    which is taken to be equality; [Hash] is a function of the key. *)
Class Config (Key T : Type) : Type := {
  (** [operator==] on keys *)
  Key_eq_dec : EqDecision Key;
  (** [Hash()(key)]; the result is a [size_t], so it is read modulo [2^64] *)
  hasher : Key -> Z;
  (** [key_type()] and [T()], the value-initialised key and mapped value *)
  Key_default : Key;
  T_default : T;
  (** the number of buckets beyond which [m_buckets.resize] fails, as
      [m_buckets.max_size()] tells: no array exceeds [PTRDIFF_MAX] bytes and a
      [std::pair] takes at least two, hence the bound; an allocation within
      this limit is taken to succeed *)
  max_size : Z;
  max_size_range : 0 <= max_size < 2 ^ 62;
  (** whether [NDEBUG] is defined *)
  ndebug : bool
}.

#[global] Existing Instance Key_eq_dec.

Section hash_map.

Context {Key T : Type} {cfg : Config Key T}.

Definition key_equal (a b : Key) : bool := bool_decide (a = b).

Record hash_map : Type := mk_hash_map {
  m_empty_key : Key;
  m_buckets : list (Key * T);
  m_size : Z
}.

(** An iterator is its [idx_]; [hm_] is the table at hand. *)
Definition iterator : Type := Z.

Definition bucket_count (t : hash_map) : Z := Z.of_nat (length (m_buckets t)).
Definition size (t : hash_map) : Z := m_size t.
Definition end_ (t : hash_map) : iterator := bucket_count t.
Definition empty (t : hash_map) : bool := size t =? 0.

Definition set_buckets (t : hash_map) (bs : list (Key * T)) : hash_map :=
  {| m_empty_key := m_empty_key t; m_buckets := bs; m_size := m_size t |}.
Definition set_size (t : hash_map) (n : Z) : hash_map :=
  {| m_empty_key := m_empty_key t; m_buckets := m_buckets t; m_size := n |}.

(** [m_buckets[idx]] as an rvalue and as the target of an assignment. *)
Definition bucket_at (t : hash_map) (idx : Z) : outcome (Key * T) :=
  match m_buckets t !! Z.to_nat idx with
  | Some b => Done b
  | None => Fault OutOfBounds
  end.

Definition bucket_store (t : hash_map) (idx : Z) (b : Key * T) : outcome hash_map :=
  if idx <? bucket_count t
  then Done (set_buckets t (<[Z.to_nat idx := b]> (m_buckets t)))
  else Fault OutOfBounds.

Definition key_to_idx (t : hash_map) (key : Key) : Z :=
  compute_index (wrap (hasher key)) (bucket_count t).

Definition probe_next (t : hash_map) (idx : Z) : Z :=
  compute_index (wrap (idx + 1)) (bucket_count t).

Definition diff (t : hash_map) (a b : Z) : Z :=
  compute_index (wrap (bucket_count t + wrap (a - b))) (bucket_count t).

(** *** Construction *)

(** [m_buckets.resize(count, fill)] on an empty vector. *)
Definition vector_resize (count : Z) (fill : Key * T) : outcome (list (Key * T)) :=
  if count <=? max_size
  then Done (replicate (Z.to_nat count) fill)
  else Fault LengthError.

(** [hash_map(size_type bucket_count, key_type empty_key, alloc)] *)
Definition construct (bucket_count : Z) (empty_key : Key) : outcome hash_map :=
  do count <- compute_closest_capacity ndebug bucket_count;
  do bs <- vector_resize count (empty_key, T_default);
  Done {| m_empty_key := empty_key; m_buckets := bs; m_size := 0 |}.

(** [hash_map()] and [hash_map(size_type bucket_count)] *)
Definition construct_default : outcome hash_map :=
  construct minimum_capacity Key_default.
Definition construct_count (bucket_count : Z) : outcome hash_map :=
  construct bucket_count Key_default.

(** *** Lookup *)

Fixpoint find_loop (fuel : nat) (t : hash_map) (key : Key) (idx : Z) : outcome iterator :=
  match fuel with
  | O => Timeout
  | S fuel' =>
      do b <- bucket_at t idx;
      if key_equal b.1 key then Done idx
      else if key_equal b.1 (m_empty_key t) then Done (end_ t)
      else find_loop fuel' t key (probe_next t idx)
  end.

Definition find_impl (fuel : nat) (t : hash_map) (key : Key) : outcome iterator :=
  assert_that ndebug (negb (key_equal (m_empty_key t) key)) ;;
  find_loop fuel t key (key_to_idx t key).

Definition find := find_impl.

Definition count_impl (fuel : nat) (t : hash_map) (key : Key) : outcome Z :=
  do it <- find_impl fuel t key;
  Done (if it =? end_ t then 0 else 1).

Definition count := count_impl.

(** [at] yields a reference to the mapped value; its current content is
    what is returned here. *)
Definition at_impl (fuel : nat) (t : hash_map) (key : Key) : outcome T :=
  do it <- find_impl fuel t key;
  if negb (it =? end_ t)
  then do b <- bucket_at t it; Done b.2
  else Fault KeyNotFound.

Definition at_ := at_impl.

(** *** Insertion and growth *)

Fixpoint emplace_loop (fuel : nat) (t : hash_map) (key : Key) (v : T) (idx : Z)
  : outcome (hash_map * (iterator * bool)) :=
  match fuel with
  | O => Timeout
  | S fuel' =>
      do b <- bucket_at t idx;
      if key_equal b.1 (m_empty_key t) then
        do t1 <- bucket_store t idx (key, v);
        Done (set_size t1 (wrap (m_size t1 + 1)), (idx, true))
      else if key_equal b.1 key then
        Done (t, (idx, false))
      else emplace_loop fuel' t key v (probe_next t idx)
  end.

(** [a > b * 0.5f] and [a / 0.5f] on floats: scaling by a power of two is
    exact in binary floating point. *)
Definition float_gt_half (a b : Z) : bool := b <? 2 * a.
Definition float_div_half (a : Z) : Z := 2 * a.

Section with_insert.

(** [insert(const value_type&)] of the table under construction: the
    recursive call of [emplace_impl] reached through the copy constructor. *)
Variable insert_rec : hash_map -> Key -> T -> outcome (hash_map * (iterator * bool)).

(** The loop of the copy constructor, from [other.cbegin()] to
    [other.cend()], inserting the entry under the iterator:
    the iterator visits the buckets of [other] in index order and
    [advance_past_empty] skips those whose key is [other.m_empty_key]. *)
Fixpoint insert_range (entries : list (Key * T)) (other_empty : Key) (t : hash_map)
  : outcome hash_map :=
  match entries with
  | [] => Done t
  | b :: rest =>
      if key_equal b.1 other_empty then insert_range rest other_empty t
      else
        do r <- insert_rec t b.1 b.2;
        insert_range rest other_empty r.1
  end.

(** [hash_map(const hash_map &other, size_type bucket_count)] *)
Definition construct_copy (other : hash_map) (bucket_count : Z) : outcome hash_map :=
  do t <- construct bucket_count (m_empty_key other);
  insert_range (m_buckets other) (m_empty_key other) t.

(** [rehash]: the table becomes [other]; the old buckets die with it. *)
Definition rehash_with (t : hash_map) (count : Z) : outcome hash_map :=
  let count := Z.max minimum_capacity count in
  do needed <- size_of_float (float_div_half (float_of_size (size t)));
  let count := Z.max count needed in
  do count <- compute_closest_capacity ndebug count;
  do other <- construct_copy t count;
  Done other.

Definition check_for_rehash_with (t : hash_map) : outcome hash_map :=
  if float_gt_half (float_of_size (wrap (size t + 1))) (float_of_size (bucket_count t))
  then rehash_with t (wrap (Z.shiftl (bucket_count t) 2))
  else Done t.

End with_insert.

Fixpoint emplace_impl (fuel : nat) (t : hash_map) (key : Key) (v : T)
  : outcome (hash_map * (iterator * bool)) :=
  match fuel with
  | O => Timeout
  | S fuel' =>
      assert_that ndebug (negb (key_equal (m_empty_key t) key)) ;;
      do t1 <- check_for_rehash_with (emplace_impl fuel') t;
      emplace_loop fuel t1 key v (key_to_idx t1 key)
  end.

Definition insert (fuel : nat) (t : hash_map) (value : Key * T) :=
  emplace_impl fuel t value.1 value.2.
Definition emplace := emplace_impl.

Definition rehash (fuel : nat) := rehash_with (emplace_impl fuel).
Definition check_for_rehash (fuel : nat) := check_for_rehash_with (emplace_impl fuel).
Definition construct_from (fuel : nat) := construct_copy (emplace_impl fuel).

(** [reserve]: [std::ceil] of an integral float is the float itself; the
    argument of [rehash] is a [size_type]. *)
Definition reserve (fuel : nat) (t : hash_map) (count : Z) : outcome hash_map :=
  do c <- size_of_float (float_div_half (float_of_size count));
  rehash fuel t c.

(** [operator[]]: the table afterwards and the slot whose mapped value is
    referred to. *)
Definition subscript (fuel : nat) (t : hash_map) (key : Key) : outcome (hash_map * iterator) :=
  do r <- emplace_impl fuel t key T_default;
  Done (r.1, r.2.1).

(** *** Removal *)

Fixpoint erase_loop (fuel : nat) (t : hash_map) (bucket idx : Z) : outcome hash_map :=
  match fuel with
  | O => Timeout
  | S fuel' =>
      do b <- bucket_at t idx;
      if key_equal b.1 (m_empty_key t) then
        do old <- bucket_at t bucket;
        do t1 <- bucket_store t bucket (m_empty_key t, old.2);
        Done (set_size t1 (wrap (m_size t1 - 1)))
      else
        let ideal := key_to_idx t b.1 in
        if diff t bucket ideal <? diff t idx ideal then
          do t1 <- bucket_store t bucket b;
          erase_loop fuel' t1 idx (probe_next t1 idx)
        else erase_loop fuel' t bucket (probe_next t idx)
  end.

(** [erase_impl(iterator)] *)
Definition erase_impl_it (fuel : nat) (t : hash_map) (it : iterator) : outcome hash_map :=
  erase_loop fuel t it (probe_next t it).

(** [erase_impl(const K&)] *)
Definition erase_impl (fuel : nat) (t : hash_map) (key : Key) : outcome (hash_map * Z) :=
  do it <- find_impl fuel t key;
  if negb (it =? end_ t) then
    do t1 <- erase_impl_it fuel t it;
    Done (t1, 1)
  else Done (t, 0).

Definition erase := erase_impl.
Definition erase_it := erase_impl_it.

Definition clear (t : hash_map) : hash_map :=
  {| m_empty_key := m_empty_key t;
     m_buckets :=
       map (fun b => if negb (key_equal b.1 (m_empty_key t))
                     then (m_empty_key t, b.2) else b) (m_buckets t);
     m_size := 0 |}.

(** [a.swap(b)]: the pair of tables afterwards. *)
Definition swap (a b : hash_map) : hash_map * hash_map :=
  ({| m_empty_key := m_empty_key b; m_buckets := m_buckets b; m_size := m_size b |},
   {| m_empty_key := m_empty_key a; m_buckets := m_buckets a; m_size := m_size a |}).

(** *** Iterators *)

(** [hash_map_iterator::advance_past_empty], from the position [idx]. *)
Fixpoint advance_past_empty (fuel : nat) (t : hash_map) (idx : Z) : outcome iterator :=
  match fuel with
  | O => Timeout
  | S fuel' =>
      if idx <? bucket_count t then
        do b <- bucket_at t idx;
        if key_equal b.1 (m_empty_key t)
        then advance_past_empty fuel' t (wrap (idx + 1))
        else Done idx
      else Done idx
  end.

(** [begin()] and [cbegin()]: the constructor [hash_map_iterator(hm)] starts
    at [idx_ = 0]. *)
Definition begin_ (fuel : nat) (t : hash_map) : outcome iterator :=
  advance_past_empty fuel t 0.

(** [operator++], [operator*] and [operator==] of two iterators of the same
    table. *)
Definition iter_next (fuel : nat) (t : hash_map) (it : iterator) : outcome iterator :=
  advance_past_empty fuel t (wrap (it + 1)).

Definition iter_deref (t : hash_map) (it : iterator) : outcome (Key * T) :=
  bucket_at t it.

Definition iter_eq (a b : iterator) : bool := a =? b.

(** The entries that the loop
    [for (auto it = begin(); it != end(); ++it)] dereferences from [it] on. *)
Fixpoint iterate (fuel : nat) (t : hash_map) (it : iterator) : outcome (list (Key * T)) :=
  match fuel with
  | O => Timeout
  | S fuel' =>
      if negb (iter_eq it (end_ t)) then
        do b <- iter_deref t it;
        do it' <- iter_next fuel t it;
        do rest <- iterate fuel' t it';
        Done (b :: rest)
      else Done []
  end.

Definition traverse (fuel : nat) (t : hash_map) : outcome (list (Key * T)) :=
  do it <- begin_ fuel t;
  iterate fuel t it.

(** The body of [hash_map(const hash_map &other, size_type bucket_count)]
    with its iterator spelled out: the loop from [other.cbegin()] to
    [other.cend()] that inserts the entry under the iterator into the table
    under construction by [ins]. *)
Fixpoint copy_loop (ins : hash_map -> Key -> T -> outcome (hash_map * (iterator * bool)))
    (fuel : nat) (other : hash_map) (it : iterator) (t : hash_map) : outcome hash_map :=
  match fuel with
  | O => Timeout
  | S fuel' =>
      if negb (iter_eq it (end_ other)) then
        do b <- iter_deref other it;
        do r <- ins t b.1 b.2;
        do it' <- iter_next fuel other it;
        copy_loop ins fuel' other it' r.1
      else Done t
  end.

Definition construct_copy_iter
    (ins : hash_map -> Key -> T -> outcome (hash_map * (iterator * bool)))
    (fuel : nat) (other : hash_map) (bucket_count : Z) : outcome hash_map :=
  do t <- construct bucket_count (m_empty_key other);
  do it <- begin_ fuel other;
  copy_loop ins fuel other it t.

(** ** Vocabulary of the specification *)

(** The content of bucket [i], if there is such a bucket. *)
Definition slot (t : hash_map) (i : Z) : option (Key * T) :=
  if i <? 0 then None else m_buckets t !! Z.to_nat i.

Definition occupied (t : hash_map) (i : Z) : Prop :=
  exists b, slot t i = Some b /\ b.1 <> m_empty_key t.

Definition vacant (t : hash_map) (i : Z) : Prop :=
  exists b, slot t i = Some b /\ b.1 = m_empty_key t.

(** The abstract mapping: the table maps [k] to [v], i.e. [(k, v)] is one of
    its occupied key/value pairs. *)
Definition holds (t : hash_map) (k : Key) (v : T) : Prop :=
  k <> m_empty_key t /\ exists i, slot t i = Some (k, v).

Definition present (t : hash_map) (k : Key) : Prop := exists v, holds t k v.

Definition occupied_count (t : hash_map) : Z :=
  Z.of_nat (length (filter (fun b => b.1 <> m_empty_key t) (m_buckets t))).

(** Circular distance from [b] forward to [a] in a ring of [n] buckets. *)
Definition dist (n a b : Z) : Z := (a - b) mod n.

(** The invariant of the table: the capacity is zero or a power of two that
    the vector can hold; the counter is exact; the load is at most one half
    as [check_for_rehash] measures it; no key occurs twice; and every entry
    is reached from its home index over occupied buckets only. *)
Record wf (t : hash_map) : Prop := {
  wf_capacity : bucket_count t = 0 \/ is_pow2 (bucket_count t);
  wf_max_size : bucket_count t <= max_size;
  wf_size : m_size t = occupied_count t;
  wf_load : 2 * float_of_size (m_size t) <= bucket_count t;
  wf_unique : forall i j k v v',
    slot t i = Some (k, v) -> slot t j = Some (k, v') -> k <> m_empty_key t -> i = j;
  wf_contiguous : forall i k v s,
    slot t i = Some (k, v) -> k <> m_empty_key t ->
    0 <= s < bucket_count t ->
    dist (bucket_count t) s (key_to_idx t k) < dist (bucket_count t) i (key_to_idx t k) ->
    occupied t s
}.

(** The tables a program can build: a public constructor followed by calls
    of the public mutating members, each within its precondition (no key
    argument equals the empty key, an erased iterator is dereferenceable). *)
Inductive reachable : hash_map -> Prop :=
| reach_construct bc e t :
    0 <= bc < 2 ^ 64 -> construct bc e = Done t -> reachable t
| reach_construct_from fuel other bc t :
    reachable other -> 0 <= bc < 2 ^ 64 ->
    construct_from fuel other bc = Done t -> reachable t
| reach_insert fuel t k v r :
    reachable t -> k <> m_empty_key t ->
    insert fuel t (k, v) = Done r -> reachable r.1
| reach_emplace fuel t k v r :
    reachable t -> k <> m_empty_key t ->
    emplace fuel t k v = Done r -> reachable r.1
| reach_subscript fuel t k r :
    reachable t -> k <> m_empty_key t ->
    subscript fuel t k = Done r -> reachable r.1
| reach_erase fuel t k r :
    reachable t -> k <> m_empty_key t ->
    erase fuel t k = Done r -> reachable r.1
| reach_erase_it fuel t it t' :
    reachable t -> occupied t it ->
    erase_it fuel t it = Done t' -> reachable t'
| reach_clear t :
    reachable t -> reachable (clear t)
| reach_rehash fuel t count t' :
    reachable t -> 0 <= count < 2 ^ 64 ->
    rehash fuel t count = Done t' -> reachable t'
| reach_reserve fuel t count t' :
    reachable t -> 0 <= count < 2 ^ 64 ->
    reserve fuel t count = Done t' -> reachable t'
| reach_swap a b :
    reachable a -> reachable b -> reachable (swap a b).1.

(** A table with at least one bucket, as every operation but the
    constructor leaves it. *)
Definition usable (t : hash_map) : Prop :=
  is_pow2 (bucket_count t) /\ bucket_count t <= max_size.

(** All buckets from [s] up to, and excluding, [r] hold keys other than [k]
    and other than the empty key. *)
Definition scanned (t : hash_map) (k : Key) (s r : Z) : Prop :=
  forall x, 0 <= x < bucket_count t ->
    dist (bucket_count t) x s < dist (bucket_count t) r s ->
    exists b, slot t x = Some b /\ b.1 <> k /\ b.1 <> m_empty_key t.

End hash_map.

Arguments hash_map Key T : clear implicits.

(** ** The counting allocator *)

Module count_allocator.

(** The singleton [memory_count]: its two counters, passed along. *)
Record memory_count : Type := mk_memory_count {
  m_curBytes : Z;
  m_peakBytes : Z
}.

(** The object [instance()] creates on its first call. *)
Definition instance : memory_count := {| m_curBytes := 0; m_peakBytes := 0 |}.

Definition ResetPeakBytes (m : memory_count) : memory_count :=
  {| m_curBytes := m_curBytes m; m_peakBytes := 0 |}.

Definition cur_bytes (m : memory_count) : Z := m_curBytes m.
Definition peak_bytes (m : memory_count) : Z := m_peakBytes m.

Definition Reset (m : memory_count) : memory_count :=
  {| m_curBytes := 0; m_peakBytes := 0 |}.

Definition UseMemory (m : memory_count) (bytes : Z) : memory_count :=
  let cur := wrap (m_curBytes m + bytes) in
  {| m_curBytes := cur; m_peakBytes := Z.max cur (m_peakBytes m) |}.

Definition ReclaimMemory (m : memory_count) (bytes : Z) : memory_count :=
  {| m_curBytes := wrap (m_curBytes m - bytes); m_peakBytes := m_peakBytes m |}.

(** [count_allocator<T>::allocate(n)] with [sizeof_T] for [sizeof(value_type)].
    [std::allocator::allocate] throws when [n] elements exceed what a
    [size_t] counts in bytes or when the heap does not grant the request
    ([granted]); the counter is touched only after it has returned, and what
    it returns is never null.  [None] is the exception. *)
Definition allocate (sizeof_T : Z) (granted : bool) (m : memory_count) (n : Z)
  : option memory_count :=
  if (n * sizeof_T <? 2 ^ size_t_digits) && granted
  then Some (UseMemory m (wrap (n * sizeof_T)))
  else None.

(** [count_allocator<T>::deallocate(p, n)] *)
Definition deallocate (sizeof_T : Z) (m : memory_count) (n : Z) : memory_count :=
  ReclaimMemory m (wrap (n * sizeof_T)).

(** A call of the allocator, and the counters after a sequence of calls
    none of which throws. *)
Inductive call : Type :=
  | Allocate (n : Z)
  | Deallocate (n : Z).

Fixpoint run (sizeof_T : Z) (m : memory_count) (calls : list call) : option memory_count :=
  match calls with
  | [] => Some m
  | Allocate n :: rest =>
      match allocate sizeof_T true m n with
      | Some m' => run sizeof_T m' rest
      | None => None
      end
  | Deallocate n :: rest => run sizeof_T (deallocate sizeof_T m n) rest
  end.

(** The bytes in use after a sequence of calls that starts with [live]
    bytes in use.  [None] when the sequence is not one a program can make:
    an allocation would bring [2^64] bytes or more in use, or a deallocation
    gives back more than is in use. *)
Fixpoint live_bytes (sizeof_T : Z) (live : Z) (calls : list call) : option Z :=
  match calls with
  | [] => Some live
  | Allocate n :: rest =>
      if (0 <=? n) && (live + n * sizeof_T <? 2 ^ size_t_digits)
      then live_bytes sizeof_T (live + n * sizeof_T) rest
      else None
  | Deallocate n :: rest =>
      if (0 <=? n) && (n * sizeof_T <=? live)
      then live_bytes sizeof_T (live - n * sizeof_T) rest
      else None
  end.

(** The largest number of bytes in use at any point of the sequence, [peak]
    being the largest so far. *)
Fixpoint high_water (sizeof_T : Z) (live peak : Z) (calls : list call) : Z :=
  match calls with
  | [] => peak
  | Allocate n :: rest =>
      high_water sizeof_T (live + n * sizeof_T) (Z.max (live + n * sizeof_T) peak) rest
  | Deallocate n :: rest => high_water sizeof_T (live - n * sizeof_T) peak rest
  end.

End count_allocator.

(** ** Vocabulary of the statements and proofs *)

Section proof_vocabulary.

Context {Key T : Type} {cfg : Config Key T}.

(** What a bucket content contributes to [occupied_count]. *)
Definition occupied_bit (t : hash_map Key T) (b : Key * T) : Z :=
  if decide (b.1 <> m_empty_key t) then 1 else 0.

(** The table after the probe loop of [emplace_impl] has written [(k, v)]
    into the vacant bucket [r]. *)
Definition placed (t : hash_map Key T) (r : Z) (k : Key) (v : T) : hash_map Key T :=
  set_size (set_buckets t (<[Z.to_nat r := (k, v)]> (m_buckets t))) (wrap (m_size t + 1)).

(** The table after the assignment [m_buckets[h] = b]. *)
Definition stored (t : hash_map Key T) (h : Z) (b : Key * T) : hash_map Key T :=
  set_buckets t (<[Z.to_nat h := b]> (m_buckets t)).

(** The invariant of the loop of [erase_impl] at its head, with the bucket
    to vacate at [hole], the scan at [idx], and [z] a vacant bucket not yet
    passed.  The content of [hole] is dead (it is the erased entry or a copy
    of an entry that has been moved back) but still looks occupied.  Every
    live entry is reachable from its home index over occupied buckets, and
    an entry whose probe path crosses [hole] has not been passed yet. *)
Record erase_inv (t : hash_map Key T) (hole idx z : Z) : Prop := {
  ei_usable : usable t;
  ei_hole : occupied t hole;
  ei_idx : 0 <= idx < bucket_count t;
  ei_vacant : vacant t z;
  ei_order : 0 < dist (bucket_count t) idx hole <= dist (bucket_count t) z hole;
  ei_contiguous : forall i k v s,
    i <> hole -> slot t i = Some (k, v) -> k <> m_empty_key t ->
    0 <= s < bucket_count t ->
    dist (bucket_count t) s (key_to_idx t k) < dist (bucket_count t) i (key_to_idx t k) ->
    occupied t s;
  ei_pending : forall i k v,
    i <> hole -> slot t i = Some (k, v) -> k <> m_empty_key t ->
    dist (bucket_count t) hole (key_to_idx t k) < dist (bucket_count t) i (key_to_idx t k) ->
    dist (bucket_count t) idx hole <= dist (bucket_count t) i hole;
  ei_unique : forall i j k v v',
    i <> hole -> j <> hole ->
    slot t i = Some (k, v) -> slot t j = Some (k, v') -> k <> m_empty_key t -> i = j
}.

(** What the loop of [erase_impl] leaves when it is entered with the dead
    bucket [hole] in [t]: the live entries of [t], each reachable and none
    twice, and one occupied bucket less. *)
Record erase_post (t : hash_map Key T) (hole : Z) (t' : hash_map Key T) : Prop := {
  ep_empty_key : m_empty_key t' = m_empty_key t;
  ep_bucket_count : bucket_count t' = bucket_count t;
  ep_size : m_size t' = wrap (m_size t - 1);
  ep_occupied : occupied_count t' = occupied_count t - 1;
  ep_unique : forall i j k v v',
    slot t' i = Some (k, v) -> slot t' j = Some (k, v') -> k <> m_empty_key t' -> i = j;
  ep_contiguous : forall i k v s,
    slot t' i = Some (k, v) -> k <> m_empty_key t' ->
    0 <= s < bucket_count t' ->
    dist (bucket_count t') s (key_to_idx t' k) < dist (bucket_count t') i (key_to_idx t' k) ->
    occupied t' s;
  ep_slots : forall k v, k <> m_empty_key t ->
    (exists i, slot t' i = Some (k, v)) <-> (exists i, i <> hole /\ slot t i = Some (k, v))
}.

(** [ins'] completes wherever [ins] does, with the same result. *)
Definition ins_le (ins ins' : hash_map Key T -> Key -> T ->
                              outcome (hash_map Key T * (iterator * bool))) : Prop :=
  forall t k v r, ins t k v = Done r -> ins' t k v = Done r.

(** The table the constructor builds from a capacity [c] that is already
    rounded. *)
Definition fresh (c : Z) (e : Key) : hash_map Key T :=
  {| m_empty_key := e; m_buckets := replicate (Z.to_nat c) (e, T_default); m_size := 0 |}.

(** The number of entries the copy constructor takes from a bucket list,
    and the condition that no key occurs twice among them. *)
Definition occ_len (e : Key) (es : list (Key * T)) : Z :=
  Z.of_nat (length (filter (fun b => b.1 <> e) es)).

Definition distinct_keys (e : Key) (es : list (Key * T)) : Prop :=
  forall (i j : nat) k v v',
    es !! i = Some (k, v) -> es !! j = Some (k, v') -> k <> e -> i = j.

(** The bucket count [rehash(count)] asks [compute_closest_capacity] for. *)
Definition rehash_target (t : hash_map Key T) (count : Z) : Z :=
  Z.max (Z.max minimum_capacity count) (2 * float_of_size (m_size t)).

(** The test of [check_for_rehash] on a well-formed table, and the capacity
    after the growth it triggers. *)
Definition needs_growth (t : hash_map Key T) : bool :=
  bucket_count t <? 2 * float_of_size (m_size t + 1).

Definition grown_capacity (t : hash_map Key T) : Z := Z.max 8 (4 * bucket_count t).

(** The result [r] of a completed [emplace_impl(k, v)] on [t]. *)
Definition emplace_post (t : hash_map Key T) (k : Key) (v : T)
    (r : hash_map Key T * (iterator * bool)) : Prop :=
  wf r.1 /\ usable r.1 /\ m_empty_key r.1 = m_empty_key t /\
  bucket_count r.1 = (if needs_growth t then grown_capacity t else bucket_count t) /\
  if r.2.2
  then ~ present t k /\ m_size r.1 = m_size t + 1 /\ slot r.1 r.2.1 = Some (k, v) /\
       (forall k' v', holds r.1 k' v' <-> holds t k' v' \/ (k' = k /\ v' = v))
  else present t k /\ m_size r.1 = m_size t /\ (exists v0, slot r.1 r.2.1 = Some (k, v0)) /\
       (needs_growth t = false -> r.1 = t) /\
       (forall k' v', holds r.1 k' v' <-> holds t k' v').

(** The result [r] of a completed [erase(k)] on [t]. *)
Definition erase_post_key (t : hash_map Key T) (k : Key) (r : hash_map Key T * Z) : Prop :=
  wf r.1 /\ m_empty_key r.1 = m_empty_key t /\ bucket_count r.1 = bucket_count t /\
  ((r.2 = 1 /\ present t k /\ m_size r.1 = m_size t - 1 /\
    forall k' v', holds r.1 k' v' <-> holds t k' v' /\ k' <> k) \/
   (r.2 = 0 /\ ~ present t k /\ r.1 = t)).

(** [survives k t t']: [t'] comes from [t] by further calls of [insert],
    [emplace], [operator[]], [rehash], [reserve] and [erase], none of which
    erases [k]. *)
Inductive survives (k : Key) (t : hash_map Key T) : hash_map Key T -> Prop :=
| survives_now : survives k t t
| survives_insert fuel t' k' v' r :
    survives k t t' -> k' <> m_empty_key t' ->
    insert fuel t' (k', v') = Done r -> survives k t r.1
| survives_emplace fuel t' k' v' r :
    survives k t t' -> k' <> m_empty_key t' ->
    emplace fuel t' k' v' = Done r -> survives k t r.1
| survives_subscript fuel t' k' r :
    survives k t t' -> k' <> m_empty_key t' ->
    subscript fuel t' k' = Done r -> survives k t r.1
| survives_rehash fuel t' count t'' :
    survives k t t' -> 0 <= count < 2 ^ 64 ->
    rehash fuel t' count = Done t'' -> survives k t t''
| survives_reserve fuel t' count t'' :
    survives k t t' -> 0 <= count < 2 ^ 64 ->
    reserve fuel t' count = Done t'' -> survives k t t''
| survives_erase fuel t' k' r :
    survives k t t' -> k' <> m_empty_key t' -> k' <> k ->
    erase fuel t' k' = Done r -> survives k t r.1
| survives_erase_it fuel t' it k' v' t'' :
    survives k t t' -> slot t' it = Some (k', v') -> k' <> m_empty_key t' -> k' <> k ->
    erase_it fuel t' it = Done t'' -> survives k t t''.

(** The entries of a table: its occupied buckets, in index order. *)
Definition entries (t : hash_map Key T) : list (Key * T) :=
  filter (fun b => b.1 <> m_empty_key t) (m_buckets t).

End proof_vocabulary.

(** ** A concrete instance: 64-bit integer keys hashed by the identity *)

Definition demo : Config Z Z :=
  {| Key_eq_dec := Z.eq_dec;
     hasher := fun k => k;
     Key_default := 0;
     T_default := 0;
     max_size := 2 ^ 62 - 1;
     max_size_range := ltac:(lia);
     ndebug := false |}.

(** The tables of the scenario of the specification: capacity 8, empty key
    0, and keys 1, 9 and 17, all of home index 1, inserted in this order. *)
Definition demo_empty8 : hash_map Z Z :=
  {| m_empty_key := 0; m_buckets := replicate 8 (0, 0); m_size := 0 |}.

Definition demo_one : hash_map Z Z :=
  {| m_empty_key := 0;
     m_buckets := [(0, 0); (1, 10); (0, 0); (0, 0); (0, 0); (0, 0); (0, 0); (0, 0)];
     m_size := 1 |}.

Definition demo_two : hash_map Z Z :=
  {| m_empty_key := 0;
     m_buckets := [(0, 0); (1, 10); (9, 90); (0, 0); (0, 0); (0, 0); (0, 0); (0, 0)];
     m_size := 2 |}.

Definition demo_table : hash_map Z Z :=
  {| m_empty_key := 0;
     m_buckets := [(0, 0); (1, 10); (9, 90); (17, 170); (0, 0); (0, 0); (0, 0); (0, 0)];
     m_size := 3 |}.

(** [hash_map(0)] *)
Definition demo_no_buckets : hash_map Z Z :=
  {| m_empty_key := 0; m_buckets := []; m_size := 0 |}.

(** Keys [n], [n-1], ..., [1] inserted one after the other. *)
Fixpoint fill (fuel : nat) (n : nat) (t : hash_map Z Z) : outcome (hash_map Z Z) :=
  match n with
  | O => Done t
  | S m =>
      do r <- insert (cfg := demo) fuel t (Z.of_nat (S m), 0);
      fill fuel m r.1
  end.

Definition big_fuel : nat := Z.to_nat (2 ^ 28).

(** [hash_map(1 << 25)] followed by [count] inserts of distinct keys. *)
Definition big_table (count : Z) : outcome (hash_map Z Z) :=
  do t <- construct (cfg := demo) (2 ^ 25) 0;
  fill big_fuel (Z.to_nat count) t.

(** [demo_table] after [erase(9)] and after [erase(1)]: the later entries
    of the probe sequence have moved one bucket back, and the vacated bucket
    keeps a stale value. *)
Definition demo_after_erase : hash_map Z Z :=
  {| m_empty_key := 0;
     m_buckets := [(0, 0); (1, 10); (17, 170); (0, 170); (0, 0); (0, 0); (0, 0); (0, 0)];
     m_size := 2 |}.

Definition demo_shifted : hash_map Z Z :=
  {| m_empty_key := 0;
     m_buckets := [(0, 0); (9, 90); (17, 170); (0, 170); (0, 0); (0, 0); (0, 0); (0, 0)];
     m_size := 2 |}.

(** [demo_table] after [insert({25, 250})]: the key has home index 1 and
    goes to the first vacant bucket after it. *)
Definition demo_four : hash_map Z Z :=
  {| m_empty_key := 0;
     m_buckets := [(0, 0); (1, 10); (9, 90); (17, 170); (25, 250); (0, 0); (0, 0); (0, 0)];
     m_size := 4 |}.

(** [demo_table] after [operator[](25)]. *)
Definition demo_defaulted : hash_map Z Z :=
  {| m_empty_key := 0;
     m_buckets := [(0, 0); (1, 10); (9, 90); (17, 170); (25, 0); (0, 0); (0, 0); (0, 0)];
     m_size := 4 |}.

(** [demo_four] after [erase(25)]. *)
Definition demo_four_erased : hash_map Z Z :=
  {| m_empty_key := 0;
     m_buckets := [(0, 0); (1, 10); (9, 90); (17, 170); (0, 250); (0, 0); (0, 0); (0, 0)];
     m_size := 3 |}.

(** The same keys and hash in a build with [NDEBUG], and on a vector that
    holds eight buckets at most. *)
Definition demo_release : Config Z Z :=
  {| Key_eq_dec := Z.eq_dec;
     hasher := fun k => k;
     Key_default := 0;
     T_default := 0;
     max_size := 2 ^ 62 - 1;
     max_size_range := ltac:(lia);
     ndebug := true |}.

Definition demo_small : Config Z Z :=
  {| Key_eq_dec := Z.eq_dec;
     hasher := fun k => k;
     Key_default := 0;
     T_default := 0;
     max_size := 8;
     max_size_range := ltac:(lia);
     ndebug := false |}.

(** What [insert({0, 7})] makes of [demo_empty8] under [NDEBUG]. *)
Definition demo_miscounted : hash_map Z Z :=
  {| m_empty_key := 0; m_buckets := (0, 7) :: replicate 7 (0, 0); m_size := 1 |}.

(** A run of the allocator for buckets of 72 bytes: the table of eight
    buckets, its successor of thirty-two, and the release of the first. *)
Definition demo_calls : list count_allocator.call :=
  [count_allocator.Allocate 8; count_allocator.Allocate 32; count_allocator.Deallocate 8].

(** * Properties *)

(** ** Machine arithmetic *)

Lemma wrap_small z : 0 <= z < 2 ^ 64 -> wrap z = z.
Proof. intros Hz. unfold wrap, size_t_digits. apply Z.mod_small. exact Hz. Qed.

Lemma wrap_range z : 0 <= wrap z < 2 ^ 64.
Proof. unfold wrap, size_t_digits. apply Z.mod_pos_bound. lia. Qed.

Lemma wrap_mod_divide z n : 0 < n -> (n | 2 ^ 64) -> wrap z mod n = z mod n.
Proof.
  intros Hn Hd. unfold wrap, size_t_digits.
  apply Z.mod_mod_divide. exact Hd.
Qed.

Lemma is_pow2_pos n : is_pow2 n -> 0 < n.
Proof. intros (p & Hp & ->). apply Z.pow_pos_nonneg; lia. Qed.

Lemma is_pow2_divide n : is_pow2 n -> n <= 2 ^ 64 -> (n | 2 ^ 64).
Proof.
  intros (p & Hp & ->) Hle.
  assert (p <= 64) by (apply (Z.pow_le_mono_r_iff 2); lia).
  exists (2 ^ (64 - p)). rewrite <- Z.pow_add_r by lia. f_equal. lia.
Qed.

Lemma compute_index_mod h n :
  is_pow2 n -> n <= 2 ^ 63 -> 0 <= h -> compute_index h n = h mod n.
Proof.
  intros Hp Hn Hh. pose proof (is_pow2_pos n Hp) as Hpos.
  unfold compute_index. rewrite wrap_small by lia.
  destruct Hp as (p & Hp & ->).
  replace (2 ^ p - 1) with (Z.ones p) by (rewrite Z.ones_equiv; lia).
  apply Z.land_ones. exact Hp.
Qed.

Lemma compute_index_range h n :
  is_pow2 n -> n <= 2 ^ 63 -> 0 <= h -> 0 <= compute_index h n < n.
Proof.
  intros Hp Hn Hh. rewrite compute_index_mod by assumption.
  apply Z.mod_pos_bound. apply is_pow2_pos. exact Hp.
Qed.

(** With no buckets the mask is all ones: the index is the hash itself. *)
Lemma compute_index_zero_capacity h : 0 <= h < 2 ^ 64 -> compute_index h 0 = h.
Proof.
  intros Hh. unfold compute_index, wrap, size_t_digits.
  change ((0 - 1) mod 2 ^ 64) with (Z.ones 64).
  rewrite Z.land_ones by lia. apply Z.mod_small. exact Hh.
Qed.

(** ** [compute_closest_capacity] *)

Lemma smear_loop_unfold m :
  smear_loop 7 1 m =
  smear_step 32 (smear_step 16 (smear_step 8 (smear_step 4 (smear_step 2 (smear_step 1 m))))).
Proof. reflexivity. Qed.

Lemma filled_init x : 0 < x -> filled (Z.log2 x) 1 x.
Proof.
  intros Hx. split.
  - intros n Hn. apply Z.bits_above_log2; lia.
  - intros n Hn Hw. replace n with (Z.log2 x) by lia. apply Z.bit_log2. exact Hx.
Qed.

Lemma filled_step p w y : 0 < w -> filled p w y -> filled p (2 * w) (smear_step w y).
Proof.
  intros Hw [Hhi Hlo]. unfold smear_step. split.
  - intros n Hn. rewrite Z.lor_spec.
    destruct (Z_lt_le_dec n 0) as [Hneg | Hnn].
    + rewrite !Z.testbit_neg_r by lia. reflexivity.
    + rewrite Z.shiftr_spec by lia. rewrite !Hhi by lia. reflexivity.
  - intros n Hn Hlow. rewrite Z.lor_spec, Z.shiftr_spec by lia.
    destruct (Z_lt_le_dec (p - w) n) as [Hnear | Hfar].
    + rewrite Hlo by lia. reflexivity.
    + rewrite (Hlo (n + w)) by lia. apply orb_true_r.
Qed.

Lemma filled_ones p w y : 0 <= p < w -> filled p w y -> y = Z.ones (p + 1).
Proof.
  intros Hp [Hhi Hlo]. apply Z.bits_inj'. intros n Hn.
  destruct (Z_lt_le_dec p n) as [Habove | Hbelow].
  - rewrite Hhi by lia. rewrite Z.ones_spec_high by lia. reflexivity.
  - rewrite Hlo by lia. rewrite Z.ones_spec_low by lia. reflexivity.
Qed.

Lemma smear_loop_ones x :
  0 < x < 2 ^ 64 -> smear_loop 7 1 x = 2 ^ (Z.log2 x + 1) - 1.
Proof.
  intros Hx. rewrite smear_loop_unfold.
  assert (Hp : 0 <= Z.log2 x < 64).
  { split; [apply Z.log2_nonneg |]. apply Z.log2_lt_pow2; lia. }
  pose proof (filled_init x ltac:(lia)) as H1.
  apply (filled_step _ 1) in H1; [| lia].
  apply (filled_step _ 2) in H1; [| lia].
  apply (filled_step _ 4) in H1; [| lia].
  apply (filled_step _ 8) in H1; [| lia].
  apply (filled_step _ 16) in H1; [| lia].
  apply (filled_step _ 32) in H1; [| lia].
  change (2 * 1) with 2 in H1. change (2 * 2) with 4 in H1.
  change (2 * 4) with 8 in H1. change (2 * 8) with 16 in H1.
  change (2 * 16) with 32 in H1. change (2 * 32) with 64 in H1.
  rewrite (filled_ones _ _ _ Hp H1). rewrite Z.ones_equiv. lia.
Qed.

Lemma compute_closest_capacity_in_range ndebug m :
  1 <= m <= 2 ^ 63 ->
  compute_closest_capacity ndebug m = Done (2 ^ Z.log2_up m).
Proof.
  intros Hm. unfold compute_closest_capacity, highest_capacity, size_t_digits.
  change (Z.shiftl 1 (64 - 1)) with (2 ^ 63).
  destruct (Z.gtb_spec m (2 ^ 63)) as [Hgt | _]; [lia |].
  rewrite (wrap_small (m - 1)) by lia.
  destruct (Z.eq_dec m 1) as [-> | Hne]; [reflexivity |].
  rewrite smear_loop_ones by lia.
  rewrite Z.log2_up_eqn by lia.
  replace (Z.pred m) with (m - 1) by lia.
  replace (Z.succ (Z.log2 (m - 1))) with (Z.log2 (m - 1) + 1) by lia.
  assert (Z.log2 (m - 1) < 63) by (apply Z.log2_lt_pow2; lia).
  pose proof (Z.log2_nonneg (m - 1)).
  assert (2 ^ (Z.log2 (m - 1) + 1) <= 2 ^ 63) by (apply Z.pow_le_mono_r; lia).
  assert (0 < 2 ^ (Z.log2 (m - 1) + 1)) by (apply Z.pow_pos_nonneg; lia).
  rewrite wrap_small by lia. f_equal. lia.
Qed.

Lemma log2_up_least m q : 0 < m -> 0 <= q -> m <= 2 ^ q -> 2 ^ Z.log2_up m <= 2 ^ q.
Proof.
  intros Hm Hq Hle. apply Z.pow_le_mono_r; [lia |].
  apply Z.log2_up_le_pow2; assumption.
Qed.

Lemma log2_up_ge m : 0 < m -> m <= 2 ^ Z.log2_up m.
Proof.
  intros Hm. destruct (Z.eq_dec m 1) as [-> | Hne]; [reflexivity |].
  apply Z.log2_up_spec. lia.
Qed.

Lemma closest_capacity_pow2 ndebug m c :
  1 <= m <= 2 ^ 63 -> compute_closest_capacity ndebug m = Done c ->
  is_pow2 c /\ m <= c /\ c <= 2 ^ 63 /\
  (forall c', is_pow2 c' -> m <= c' -> c <= c').
Proof.
  intros Hm Hc. rewrite compute_closest_capacity_in_range in Hc by assumption.
  injection Hc as <-.
  pose proof (Z.log2_up_nonneg m) as Hnn.
  repeat split.
  - exists (Z.log2_up m). split; [assumption | reflexivity].
  - apply log2_up_ge. lia.
  - change (2 ^ 63) with (2 ^ 63). apply log2_up_least; lia.
  - intros c' (q & Hq & ->) Hle. apply log2_up_least; lia.
Qed.

Lemma closest_capacity_of_pow2 ndebug c :
  is_pow2 c -> c <= 2 ^ 63 -> compute_closest_capacity ndebug c = Done c.
Proof.
  intros Hp Hc. pose proof (is_pow2_pos c Hp) as Hpos.
  destruct (compute_closest_capacity ndebug c) as [c' | e |] eqn:Hcc;
    rewrite compute_closest_capacity_in_range in Hcc by lia; try discriminate.
  injection Hcc as <-. f_equal.
  destruct Hp as (p & Hp & ->). rewrite Z.log2_up_pow2 by lia. reflexivity.
Qed.

(** ** Conversion to [float] *)

Lemma float_of_size_small n : n < 2 ^ 24 -> float_of_size n = n.
Proof.
  intros Hn. unfold float_of_size.
  destruct (Z_le_gt_dec n 0) as [Hle | Hpos].
  - rewrite Z.log2_nonpos by lia. reflexivity.
  - assert (Z.log2 n < 24) by (apply Z.log2_lt_pow2; lia).
    destruct (Z.leb_spec (Z.log2 n - 23) 0); [reflexivity | lia].
Qed.

Lemma float_of_size_large n :
  2 ^ 24 <= n ->
  float_of_size n =
  round_even (n / 2 ^ (Z.log2 n - 23)) (n mod 2 ^ (Z.log2 n - 23))
             (2 ^ (Z.log2 n - 23 - 1)) * 2 ^ (Z.log2 n - 23).
Proof.
  intros Hn. unfold float_of_size.
  assert (24 <= Z.log2 n) by (apply Z.log2_le_pow2; lia).
  destruct (Z.leb_spec (Z.log2 n - 23) 0); [lia |].
  rewrite Z.shiftr_div_pow2, Z.land_ones, Z.shiftl_mul_pow2, Z.shiftl_mul_pow2 by lia.
  rewrite Z.mul_1_l. reflexivity.
Qed.

Lemma round_even_bounds q r half : q <= round_even q r half <= q + 1.
Proof.
  unfold round_even.
  destruct (r <? half); [lia |]. destruct (half <? r); [lia |].
  destruct (Z.even q); lia.
Qed.

Lemma round_even_mono half qa ra qb rb :
  0 < half -> 0 <= ra < 2 * half -> 0 <= rb < 2 * half ->
  qa * (2 * half) + ra <= qb * (2 * half) + rb ->
  round_even qa ra half <= round_even qb rb half.
Proof.
  intros Hh Hra Hrb Hle.
  assert (Hq : qa <= qb) by nia.
  destruct (Z.eq_dec qa qb) as [-> | Hne].
  - assert (ra <= rb) by lia. unfold round_even.
    destruct (Z.ltb_spec ra half), (Z.ltb_spec rb half),
      (Z.ltb_spec half ra), (Z.ltb_spec half rb), (Z.even qb); lia.
  - pose proof (round_even_bounds qa ra half). pose proof (round_even_bounds qb rb half). lia.
Qed.

(** The float image of [n] stays within the binade of [n]. *)
Lemma float_of_size_binade n :
  2 ^ 24 <= n -> 2 ^ Z.log2 n <= float_of_size n <= 2 ^ (Z.log2 n + 1).
Proof.
  intros Hn. rewrite float_of_size_large by assumption.
  assert (HL : 24 <= Z.log2 n) by (apply Z.log2_le_pow2; lia).
  destruct (Z.log2_spec n ltac:(lia)) as [Hlo Hhi].
  set (e := Z.log2 n - 23) in *.
  assert (He : 0 < 2 ^ e) by (apply Z.pow_pos_nonneg; lia).
  assert (Hlo' : 2 ^ Z.log2 n = 2 ^ 23 * 2 ^ e).
  { rewrite <- Z.pow_add_r by lia. f_equal. lia. }
  assert (Hhi' : 2 ^ (Z.log2 n + 1) = 2 ^ 24 * 2 ^ e).
  { rewrite <- Z.pow_add_r by lia. f_equal. lia. }
  replace (Z.succ (Z.log2 n)) with (Z.log2 n + 1) in Hhi by lia.
  assert (Hq1 : 2 ^ 23 <= n / 2 ^ e) by (apply Z.div_le_lower_bound; lia).
  assert (Hq2 : n / 2 ^ e < 2 ^ 24) by (apply Z.div_lt_upper_bound; lia).
  pose proof (round_even_bounds (n / 2 ^ e) (n mod 2 ^ e) (2 ^ (e - 1))) as Hr.
  rewrite Hlo', Hhi'. split; apply Z.mul_le_mono_nonneg_r; lia.
Qed.

Lemma float_of_size_mono a b : a <= b -> float_of_size a <= float_of_size b.
Proof.
  intros Hab.
  destruct (Z_lt_le_dec b (2 ^ 24)) as [Hb | Hb].
  { rewrite !float_of_size_small by lia. exact Hab. }
  destruct (Z_lt_le_dec a (2 ^ 24)) as [Ha | Ha].
  { rewrite (float_of_size_small a) by lia.
    pose proof (float_of_size_binade b Hb).
    assert (2 ^ 24 <= 2 ^ Z.log2 b).
    { apply Z.pow_le_mono_r; [lia |]. apply Z.log2_le_pow2; lia. }
    lia. }
  assert (HL : Z.log2 a <= Z.log2 b) by (apply Z.log2_le_mono; exact Hab).
  destruct (Z.eq_dec (Z.log2 a) (Z.log2 b)) as [Heq | Hne].
  - rewrite (float_of_size_large a), (float_of_size_large b) by assumption.
    rewrite Heq.
    assert (24 <= Z.log2 b) by (apply Z.log2_le_pow2; lia).
    set (e := Z.log2 b - 23) in *.
    assert (He : 2 ^ e = 2 * 2 ^ (e - 1)).
    { rewrite <- (Z.pow_1_r 2) at 2. rewrite <- Z.pow_add_r by lia. f_equal. lia. }
    assert (Hh : 0 < 2 ^ (e - 1)) by (apply Z.pow_pos_nonneg; lia).
    apply Z.mul_le_mono_nonneg_r; [lia |].
    pose proof (Z.mod_pos_bound a (2 ^ e) ltac:(lia)).
    pose proof (Z.mod_pos_bound b (2 ^ e) ltac:(lia)).
    pose proof (Z.div_mod a (2 ^ e) ltac:(lia)).
    pose proof (Z.div_mod b (2 ^ e) ltac:(lia)).
    apply round_even_mono; lia.
  - pose proof (float_of_size_binade a Ha). pose proof (float_of_size_binade b Hb).
    assert (2 ^ (Z.log2 a + 1) <= 2 ^ Z.log2 b) by (apply Z.pow_le_mono_r; lia).
    lia.
Qed.

Lemma float_of_size_pow2 n : is_pow2 n -> float_of_size n = n.
Proof.
  intros (p & Hp & ->).
  destruct (Z_lt_le_dec p 24) as [Hlt | Hge].
  { apply float_of_size_small. apply Z.pow_lt_mono_r; lia. }
  assert (2 ^ 24 <= 2 ^ p) by (apply Z.pow_le_mono_r; lia).
  rewrite float_of_size_large by assumption.
  rewrite Z.log2_pow2 by lia.
  assert (He : 2 ^ p = 2 ^ 23 * 2 ^ (p - 23)).
  { rewrite <- Z.pow_add_r by lia. f_equal. lia. }
  assert (0 < 2 ^ (p - 23)) by (apply Z.pow_pos_nonneg; lia).
  assert (0 < 2 ^ (p - 23 - 1)) by (apply Z.pow_pos_nonneg; lia).
  rewrite He at 1 2. rewrite Z.div_mul, Z.mod_mul by lia.
  unfold round_even. destruct (Z.ltb_spec 0 (2 ^ (p - 23 - 1))); lia.
Qed.

Lemma float_of_size_nonneg n : 0 <= n -> 0 <= float_of_size n.
Proof. intros Hn. change 0 with (float_of_size 0) at 1. apply float_of_size_mono. exact Hn. Qed.

(** Rounding loses less than half of the value. *)
Lemma float_of_size_more_than_half n : 1 <= n -> n < 2 * float_of_size n.
Proof.
  intros Hn. destruct (Z_lt_le_dec n (2 ^ 24)) as [Hs | Hl].
  - rewrite float_of_size_small by assumption. lia.
  - pose proof (float_of_size_binade n Hl).
    destruct (Z.log2_spec n ltac:(lia)) as [_ Hhi].
    replace (Z.succ (Z.log2 n)) with (Z.log2 n + 1) in Hhi by lia.
    rewrite Z.pow_add_r in Hhi by (try apply Z.log2_nonneg; lia).
    change (2 ^ 1) with 2 in Hhi. lia.
Qed.

Lemma float_of_size_le_pow2 n c : n <= c -> is_pow2 c -> float_of_size n <= c.
Proof.
  intros Hn Hc. rewrite <- (float_of_size_pow2 c Hc). apply float_of_size_mono. exact Hn.
Qed.

(** ** The ring of bucket indices *)

(** The circular distance, case by case. *)
Lemma dist_spec n a c :
  0 <= a < n -> 0 <= c < n ->
  (c <= a /\ dist n a c = a - c) \/ (a < c /\ dist n a c = a - c + n).
Proof.
  intros Ha Hc. unfold dist. destruct (Z_le_gt_dec c a) as [Hle | Hgt].
  - left. split; [assumption |]. apply Z.mod_small. lia.
  - right. split; [lia |].
    rewrite <- (Z.mod_add (a - c) 1) by lia. rewrite Z.mul_1_l. apply Z.mod_small. lia.
Qed.

Lemma succ_mod_spec n a :
  0 <= a < n ->
  (a + 1 < n /\ (a + 1) mod n = a + 1) \/ (a + 1 = n /\ (a + 1) mod n = 0).
Proof.
  intros Ha. destruct (Z.eq_dec (a + 1) n) as [He | Hne].
  - right. split; [assumption |]. rewrite He. apply Z.mod_same. lia.
  - left. split; [lia |]. apply Z.mod_small. lia.
Qed.

(** The case analyses of [dist] and of the successor modulo the capacity,
    handed to [lia]. *)

Ltac note_dist n a c :=
  lazymatch goal with
  | _ : (c <= a /\ dist n a c = a - c) \/ (a < c /\ dist n a c = a - c + n) |- _ => fail
  | _ => pose proof (dist_spec n a c ltac:(lia) ltac:(lia))
  end.

Ltac note_succ n a :=
  lazymatch goal with
  | _ : (a + 1 < n /\ (a + 1) mod n = a + 1) \/ (a + 1 = n /\ (a + 1) mod n = 0) |- _ => fail
  | _ => pose proof (succ_mod_spec n a ltac:(lia))
  end.

Ltac dist_facts n :=
  repeat match goal with
  | |- context [(?a + 1) mod n] => note_succ n a
  | _ : context [(?a + 1) mod n] |- _ => note_succ n a
  end;
  repeat match goal with
  | |- context [dist n ?a ?c] => note_dist n a c
  | _ : context [dist n ?a ?c] |- _ => note_dist n a c
  end.

Ltac dist_lia n := dist_facts n; lia.

(** ** Buckets and indices *)

Section table.

Context {Key T : Type} {cfg : Config Key T}.
Implicit Types (t : hash_map Key T) (k : Key) (v : T) (b : Key * T).

Lemma key_equal_true a c : key_equal a c = true <-> a = c.
Proof. unfold key_equal. apply bool_decide_eq_true. Qed.

Lemma key_equal_false a c : key_equal a c = false <-> a <> c.
Proof. unfold key_equal. apply bool_decide_eq_false. Qed.

Lemma key_equal_refl a : key_equal a a = true.
Proof. apply key_equal_true. reflexivity. Qed.

Lemma slot_range t i b : slot t i = Some b -> 0 <= i < bucket_count t.
Proof.
  unfold slot, bucket_count. destruct (Z.ltb_spec i 0) as [Hneg | Hnn]; [discriminate |].
  intros Hl. apply lookup_lt_Some in Hl. lia.
Qed.

Lemma slot_defined t i : 0 <= i < bucket_count t -> exists b, slot t i = Some b.
Proof.
  unfold slot, bucket_count. intros Hi.
  destruct (Z.ltb_spec i 0) as [Hneg | Hnn]; [lia |].
  destruct (lookup_lt_is_Some_2 (m_buckets t) (Z.to_nat i)) as [b Hb]; [lia |].
  exists b. exact Hb.
Qed.

Lemma slot_cases t i :
  0 <= i < bucket_count t -> occupied t i \/ vacant t i.
Proof.
  intros Hi. destruct (slot_defined t i Hi) as [b Hb].
  destruct (decide (b.1 = m_empty_key t)) as [He | Hne].
  - right. exists b. split; assumption.
  - left. exists b. split; assumption.
Qed.

Lemma occupied_not_vacant t i : occupied t i -> vacant t i -> False.
Proof. intros (b & Hb & Hne) (b' & Hb' & He). congruence. Qed.

Lemma bucket_at_slot t i b : slot t i = Some b -> bucket_at t i = Done b.
Proof.
  unfold slot, bucket_at. destruct (Z.ltb_spec i 0); [discriminate |].
  intros ->. reflexivity.
Qed.

Lemma bucket_at_outside t i : bucket_count t <= i -> bucket_at t i = Fault OutOfBounds.
Proof.
  unfold bucket_at, bucket_count. intros Hi.
  rewrite lookup_ge_None_2 by lia. reflexivity.
Qed.

Lemma bucket_store_inside t i b :
  i < bucket_count t ->
  bucket_store t i b = Done (set_buckets t (<[Z.to_nat i := b]> (m_buckets t))).
Proof. unfold bucket_store. intros Hi. destruct (Z.ltb_spec i (bucket_count t)); [reflexivity | lia]. Qed.

Lemma bucket_count_store t i b :
  bucket_count (set_buckets t (<[Z.to_nat i := b]> (m_buckets t))) = bucket_count t.
Proof. unfold bucket_count, set_buckets. simpl. rewrite length_insert. reflexivity. Qed.

Lemma slot_store_eq t i b :
  0 <= i < bucket_count t ->
  slot (set_buckets t (<[Z.to_nat i := b]> (m_buckets t))) i = Some b.
Proof.
  unfold slot, bucket_count, set_buckets. simpl. intros Hi.
  destruct (Z.ltb_spec i 0); [lia |]. apply list_lookup_insert_eq. lia.
Qed.

Lemma slot_store_ne t i j b :
  0 <= i -> i <> j ->
  slot (set_buckets t (<[Z.to_nat i := b]> (m_buckets t))) j = slot t j.
Proof.
  unfold slot, set_buckets. simpl. intros Hi Hne.
  destruct (Z.ltb_spec j 0); [reflexivity |]. apply list_lookup_insert_ne. lia.
Qed.

Lemma slot_set_size t n i : slot (set_size t n) i = slot t i.
Proof. reflexivity. Qed.

(** *** Index arithmetic on a usable table *)

Lemma usable_pos t : usable t -> 0 < bucket_count t.
Proof. intros [Hp _]. apply is_pow2_pos. exact Hp. Qed.

Lemma usable_bound t : usable t -> bucket_count t < 2 ^ 62.
Proof. intros [_ Hm]. pose proof max_size_range. lia. Qed.

Lemma key_to_idx_range t k : usable t -> 0 <= key_to_idx t k < bucket_count t.
Proof.
  intros Hu. pose proof (usable_bound t Hu). destruct Hu as [Hp Hm].
  unfold key_to_idx. apply compute_index_range; [assumption | lia |].
  apply wrap_range.
Qed.

Lemma probe_next_mod t idx :
  usable t -> 0 <= idx < bucket_count t ->
  probe_next t idx = (idx + 1) mod bucket_count t.
Proof.
  intros Hu Hi. pose proof (usable_bound t Hu). destruct Hu as [Hp Hm].
  unfold probe_next. rewrite wrap_small by lia.
  apply compute_index_mod; [assumption | lia | lia].
Qed.

Lemma diff_dist t a c :
  usable t -> diff t a c = dist (bucket_count t) a c.
Proof.
  intros Hu. pose proof (usable_bound t Hu). pose proof (usable_pos t Hu).
  destruct Hu as [Hp Hm]. unfold diff, dist.
  rewrite compute_index_mod by (try apply wrap_range; try assumption; lia).
  assert (Hd : (bucket_count t | 2 ^ 64)) by (apply is_pow2_divide; [assumption | lia]).
  rewrite wrap_mod_divide by assumption.
  rewrite <- Z.add_mod_idemp_r by lia.
  rewrite wrap_mod_divide by assumption.
  rewrite Z.add_mod_idemp_r by lia.
  rewrite <- (Z.mod_add (a - c) 1) by lia. f_equal. lia.
Qed.


Lemma scan_exists t k z (m : nat) : forall s,
  usable t -> 0 <= s < bucket_count t -> vacant t z ->
  dist (bucket_count t) z s <= Z.of_nat m ->
  exists r, 0 <= r < bucket_count t /\ scanned t k s r /\
    dist (bucket_count t) r s <= dist (bucket_count t) z s /\
    (vacant t r \/ exists v, slot t r = Some (k, v)).
Proof.
  induction m as [| m IH]; intros s Hu Hs Hz Hm;
    pose proof Hz as (bz & Hbz & Hez); pose proof (slot_range _ _ _ Hbz) as Hzr;
    pose proof (usable_pos t Hu) as Hpos.
  - assert (z = s) as -> by dist_lia (bucket_count t).
    exists s. repeat split; try lia.
    + intros x Hx Hlt. dist_lia (bucket_count t).
    + left. exact Hz.
  - destruct (slot_defined t s Hs) as [b Hb].
    destruct (decide (b.1 = m_empty_key t)) as [He | Hne].
    { exists s. repeat split; try lia.
      - intros x Hx Hlt. dist_lia (bucket_count t).
      - dist_lia (bucket_count t).
      - left. exists b. split; assumption. }
    destruct (decide (b.1 = k)) as [Hk | Hnk].
    { exists s. repeat split; try lia.
      - intros x Hx Hlt. dist_lia (bucket_count t).
      - dist_lia (bucket_count t).
      - right. exists b.2. rewrite Hb. f_equal. destruct b; simpl in *; congruence. }
    assert (Hzs : z <> s) by (intros ->; congruence).
    assert (Hs' : 0 <= (s + 1) mod bucket_count t < bucket_count t) by (apply Z.mod_pos_bound; lia).
    destruct (IH ((s + 1) mod bucket_count t) Hu Hs' Hz) as (r & Hr & Hsc & Hd & Hstop).
    { dist_lia (bucket_count t). }
    exists r. repeat split; try lia.
    + intros x Hx Hlt.
      destruct (Z.eq_dec x s) as [-> | Hxs].
      * exists b. repeat split; assumption.
      * apply Hsc; [assumption |]. dist_lia (bucket_count t).
    + dist_lia (bucket_count t).
    + exact Hstop.
Qed.


Lemma scanned_next t k s r :
  usable t -> 0 <= s < bucket_count t -> 0 <= r < bucket_count t -> s <> r ->
  scanned t k s r -> scanned t k ((s + 1) mod bucket_count t) r.
Proof.
  intros Hu Hs Hr Hne Hsc x Hx Hlt. pose proof (usable_pos t Hu).
  apply Hsc; [assumption |]. dist_lia (bucket_count t).
Qed.

Lemma scanned_here t k s r :
  usable t -> 0 <= s < bucket_count t -> 0 <= r < bucket_count t -> s <> r ->
  scanned t k s r ->
  exists b, slot t s = Some b /\ b.1 <> k /\ b.1 <> m_empty_key t.
Proof.
  intros Hu Hs Hr Hne Hsc. pose proof (usable_pos t Hu).
  apply Hsc; [assumption |]. dist_lia (bucket_count t).
Qed.

Lemma find_loop_run (fuel : nat) t k r : forall s,
  usable t -> 0 <= s < bucket_count t -> 0 <= r < bucket_count t ->
  scanned t k s r -> dist (bucket_count t) r s < Z.of_nat fuel ->
  (forall v, slot t r = Some (k, v) -> find_loop fuel t k s = Done r) /\
  (k <> m_empty_key t -> vacant t r -> find_loop fuel t k s = Done (end_ t)).
Proof.
  induction fuel as [| fuel IH]; intros s Hu Hs Hr Hsc Hfuel;
    pose proof (usable_pos t Hu) as Hpos.
  { exfalso. dist_lia (bucket_count t). }
  destruct (Z.eq_dec s r) as [-> | Hne].
  - split.
    + intros v Hv. simpl. rewrite (bucket_at_slot _ _ _ Hv). simpl.
      rewrite key_equal_refl. reflexivity.
    + intros Hk (b & Hb & He). simpl. rewrite (bucket_at_slot _ _ _ Hb). simpl.
      assert (key_equal b.1 k = false) as -> by (apply key_equal_false; congruence).
      assert (key_equal b.1 (m_empty_key t) = true) as -> by (apply key_equal_true; assumption).
      reflexivity.
  - destruct (scanned_here t k s r Hu Hs Hr Hne Hsc) as (b & Hb & Hbk & Hbe).
    assert (Hs' : 0 <= (s + 1) mod bucket_count t < bucket_count t)
      by (apply Z.mod_pos_bound; lia).
    destruct (IH ((s + 1) mod bucket_count t) Hu Hs' Hr) as [IH1 IH2].
    { apply scanned_next; assumption. }
    { dist_lia (bucket_count t). }
    assert (Hstep : find_loop (S fuel) t k s =
                    find_loop fuel t k ((s + 1) mod bucket_count t)).
    { simpl. rewrite (bucket_at_slot _ _ _ Hb). simpl.
      assert (key_equal b.1 k = false) as -> by (apply key_equal_false; assumption).
      assert (key_equal b.1 (m_empty_key t) = false) as -> by (apply key_equal_false; assumption).
      rewrite probe_next_mod by assumption. reflexivity. }
    rewrite Hstep. split; assumption.
Qed.

Lemma emplace_loop_run (fuel : nat) t k v r : forall s,
  usable t -> 0 <= s < bucket_count t -> 0 <= r < bucket_count t ->
  scanned t k s r -> dist (bucket_count t) r s < Z.of_nat fuel ->
  (k <> m_empty_key t -> forall v0, slot t r = Some (k, v0) ->
     emplace_loop fuel t k v s = Done (t, (r, false))) /\
  (vacant t r ->
     emplace_loop fuel t k v s =
     Done (set_size (set_buckets t (<[Z.to_nat r := (k, v)]> (m_buckets t)))
                    (wrap (m_size t + 1)), (r, true))).
Proof.
  induction fuel as [| fuel IH]; intros s Hu Hs Hr Hsc Hfuel;
    pose proof (usable_pos t Hu) as Hpos.
  { exfalso. dist_lia (bucket_count t). }
  destruct (Z.eq_dec s r) as [-> | Hne].
  - split.
    + intros Hk v0 Hv. simpl. rewrite (bucket_at_slot _ _ _ Hv). simpl.
      assert (key_equal k (m_empty_key t) = false) as -> by (apply key_equal_false; assumption).
      rewrite key_equal_refl. reflexivity.
    + intros (b & Hb & He). simpl. rewrite (bucket_at_slot _ _ _ Hb). simpl.
      assert (key_equal b.1 (m_empty_key t) = true) as -> by (apply key_equal_true; assumption).
      rewrite bucket_store_inside by lia. reflexivity.
  - destruct (scanned_here t k s r Hu Hs Hr Hne Hsc) as (b & Hb & Hbk & Hbe).
    assert (Hs' : 0 <= (s + 1) mod bucket_count t < bucket_count t)
      by (apply Z.mod_pos_bound; lia).
    destruct (IH ((s + 1) mod bucket_count t) Hu Hs' Hr) as [IH1 IH2].
    { apply scanned_next; assumption. }
    { dist_lia (bucket_count t). }
    assert (Hstep : emplace_loop (S fuel) t k v s =
                    emplace_loop fuel t k v ((s + 1) mod bucket_count t)).
    { simpl. rewrite (bucket_at_slot _ _ _ Hb). simpl.
      assert (key_equal b.1 (m_empty_key t) = false) as -> by (apply key_equal_false; assumption).
      assert (key_equal b.1 k = false) as -> by (apply key_equal_false; assumption).
      rewrite probe_next_mod by assumption. reflexivity. }
    rewrite Hstep. split; assumption.
Qed.

(** *** Vacant buckets exist below full load *)

Lemma filter_short_witness (P : Key * T -> Prop) `{!forall x, Decision (P x)}
    (l : list (Key * T)) :
  (length (filter P l) < length l)%nat -> exists i x, l !! i = Some x /\ ~ P x.
Proof.
  induction l as [| a l IH]; simpl; intros Hlen; [lia |].
  destruct (decide (P a)) as [Hp | Hnp].
  - rewrite filter_cons_True in Hlen by assumption. simpl in Hlen.
    destruct IH as (i & x & Hi & Hx); [lia |].
    exists (S i), x. split; assumption.
  - exists 0%nat, a. split; [reflexivity | assumption].
Qed.

Lemma occupied_count_range t : 0 <= occupied_count t <= bucket_count t.
Proof.
  unfold occupied_count, bucket_count.
  pose proof (length_filter (fun b => b.1 <> m_empty_key t) (m_buckets t)). lia.
Qed.

Lemma vacant_exists t :
  occupied_count t < bucket_count t -> exists z, vacant t z.
Proof.
  unfold occupied_count, bucket_count. intros Hlt.
  destruct (filter_short_witness (fun b => b.1 <> m_empty_key t) (m_buckets t))
    as (i & x & Hi & Hx); [lia |].
  exists (Z.of_nat i), x. split.
  - unfold slot. destruct (Z.ltb_spec (Z.of_nat i) 0); [lia |].
    rewrite Nat2Z.id. exact Hi.
  - destruct (decide (x.1 = m_empty_key t)); [assumption | contradiction].
Qed.

Lemma wf_size_lt t : wf t -> usable t -> m_size t < bucket_count t.
Proof.
  intros Hwf Hu. pose proof (usable_pos t Hu).
  pose proof (occupied_count_range t). pose proof (wf_size t Hwf). pose proof (wf_load t Hwf).
  destruct (Z.eq_dec (m_size t) 0) as [-> | Hnz]; [assumption |].
  pose proof (float_of_size_more_than_half (m_size t)). lia.
Qed.

Lemma wf_vacant t : wf t -> usable t -> exists z, vacant t z.
Proof.
  intros Hwf Hu. apply vacant_exists. rewrite <- (wf_size t Hwf). apply wf_size_lt; assumption.
Qed.


(** ** Lookup on a well-formed table *)

Lemma assert_that_true nd : assert_that nd true = Done tt.
Proof. destruct nd; reflexivity. Qed.

Lemma assert_key t k : k <> m_empty_key t ->
  assert_that ndebug (negb (key_equal (m_empty_key t) k)) = Done tt.
Proof.
  intros Hk. assert (key_equal (m_empty_key t) k = false) as ->
    by (apply key_equal_false; congruence).
  apply assert_that_true.
Qed.

Lemma wf_usable t : wf t -> 0 < bucket_count t -> usable t.
Proof.
  intros Hwf Hpos. split; [| apply (wf_max_size t Hwf)].
  destruct (wf_capacity t Hwf) as [H0 | Hp]; [lia | exact Hp].
Qed.

Lemma wf_scanned t k v i :
  wf t -> k <> m_empty_key t -> slot t i = Some (k, v) ->
  scanned t k (key_to_idx t k) i.
Proof.
  intros Hwf Hk Hi x Hx Hlt.
  destruct (wf_contiguous t Hwf i k v x Hi Hk Hx Hlt) as (b & Hb & Hbe).
  exists b. repeat split; try assumption.
  intros Hbk. destruct b as [k' v']. simpl in *. subst k'.
  assert (x = i) by (eapply (wf_unique t Hwf); eassumption). subst x. lia.
Qed.

Lemma find_impl_present (fuel : nat) t k v i :
  wf t -> k <> m_empty_key t -> slot t i = Some (k, v) ->
  bucket_count t <= Z.of_nat fuel ->
  find_impl fuel t k = Done i.
Proof.
  intros Hwf Hk Hi Hfuel. pose proof (slot_range _ _ _ Hi) as Hr.
  assert (Hu : usable t) by (apply wf_usable; [assumption | lia]).
  unfold find_impl. rewrite assert_key by assumption. simpl.
  pose proof (key_to_idx_range t k Hu) as Hs.
  eapply (find_loop_run fuel t k i); try eassumption.
  - eapply wf_scanned; eassumption.
  - dist_lia (bucket_count t).
Qed.

(** Where the probe for [k] stops on a well-formed table. *)
Lemma wf_probe_stop t k :
  wf t -> usable t -> k <> m_empty_key t ->
  exists r, 0 <= r < bucket_count t /\ scanned t k (key_to_idx t k) r /\
    ((vacant t r /\ ~ present t k) \/ (exists v, slot t r = Some (k, v))).
Proof.
  intros Hwf Hu Hk. pose proof (usable_pos t Hu) as Hpos.
  destruct (wf_vacant t Hwf Hu) as [z Hz].
  pose proof (key_to_idx_range t k Hu) as Hs.
  destruct Hz as (bz & Hbz & Hez). pose proof (slot_range _ _ _ Hbz) as Hzr.
  destruct (scan_exists t k z (Z.to_nat (bucket_count t)) (key_to_idx t k) Hu Hs)
    as (r & Hr & Hsc & _ & Hstop).
  { exists bz. split; assumption. }
  { dist_lia (bucket_count t). }
  exists r. repeat split; try assumption; try lia.
  destruct Hstop as [Hvac | Hkey]; [left | right; exact Hkey].
  split; [exact Hvac |]. intros (v & _ & i & Hi).
  pose proof (slot_range _ _ _ Hi) as Hir.
  destruct (Z_lt_le_dec (dist (bucket_count t) i (key_to_idx t k))
                        (dist (bucket_count t) r (key_to_idx t k))) as [Hlt | Hge].
  - destruct (Hsc i Hir Hlt) as (b & Hb & Hbk & _). rewrite Hi in Hb.
    injection Hb as <-. simpl in Hbk. congruence.
  - destruct (Z.eq_dec i r) as [-> | Hne].
    + destruct Hvac as (b & Hb & Hbe). rewrite Hi in Hb. injection Hb as <-.
      simpl in Hbe. congruence.
    + assert (Hocc : occupied t r).
      { eapply (wf_contiguous t Hwf i k v r); try eassumption.
        dist_lia (bucket_count t). }
      eapply occupied_not_vacant; eassumption.
Qed.

Lemma find_impl_absent (fuel : nat) t k :
  wf t -> 0 < bucket_count t -> k <> m_empty_key t -> ~ present t k ->
  bucket_count t <= Z.of_nat fuel ->
  find_impl fuel t k = Done (end_ t).
Proof.
  intros Hwf Hpos Hk Habs Hfuel.
  assert (Hu : usable t) by (apply wf_usable; assumption).
  destruct (wf_probe_stop t k Hwf Hu Hk) as (r & Hr & Hsc & [[Hvac _] | [v Hv]]).
  - unfold find_impl. rewrite assert_key by assumption. simpl.
    pose proof (key_to_idx_range t k Hu) as Hs.
    eapply (find_loop_run fuel t k r); try eassumption.
    dist_lia (bucket_count t).
  - exfalso. apply Habs. exists v. split; [assumption | exists r; exact Hv].
Qed.

Lemma present_dec t k : wf t -> usable t -> k <> m_empty_key t ->
  present t k \/ ~ present t k.
Proof.
  intros Hwf Hu Hk.
  destruct (wf_probe_stop t k Hwf Hu Hk) as (r & Hr & Hsc & [[_ Habs] | [v Hv]]).
  - right. exact Habs.
  - left. exists v. split; [assumption | exists r; exact Hv].
Qed.

Lemma holds_functional t k v v' : wf t -> holds t k v -> holds t k v' -> v = v'.
Proof.
  intros Hwf (Hk & i & Hi) (_ & j & Hj).
  assert (i = j) by (eapply (wf_unique t Hwf); eassumption). subst j.
  congruence.
Qed.

Lemma at_impl_holds (fuel : nat) t k v :
  wf t -> holds t k v -> bucket_count t <= Z.of_nat fuel ->
  at_impl fuel t k = Done v.
Proof.
  intros Hwf (Hk & i & Hi) Hfuel. pose proof (slot_range _ _ _ Hi) as Hr.
  unfold at_impl. rewrite (find_impl_present fuel t k v i) by assumption. simpl.
  unfold end_. destruct (Z.eqb_spec i (bucket_count t)) as [He | Hne]; [lia |]. simpl.
  rewrite (bucket_at_slot _ _ _ Hi). reflexivity.
Qed.

Lemma at_impl_absent (fuel : nat) t k :
  wf t -> 0 < bucket_count t -> k <> m_empty_key t -> ~ present t k ->
  bucket_count t <= Z.of_nat fuel ->
  at_impl fuel t k = Fault KeyNotFound.
Proof.
  intros Hwf Hpos Hk Habs Hfuel. unfold at_impl.
  rewrite find_impl_absent by assumption. simpl.
  rewrite Z.eqb_refl. reflexivity.
Qed.


(** ** Counting occupied buckets *)

Lemma filter_length_insert (P : Key * T -> Prop) `{!forall x, Decision (P x)}
    (l : list (Key * T)) : forall (i : nat) x y,
  l !! i = Some x ->
  (length (filter P (<[i := y]> l)) + (if decide (P x) then 1 else 0) =
   length (filter P l) + (if decide (P y) then 1 else 0))%nat.
Proof.
  induction l as [| a l IH]; intros i x y Hi; [discriminate |].
  destruct i as [| i]; simpl in Hi.
  - injection Hi as ->. simpl. rewrite !filter_cons.
    destruct (decide (P x)), (decide (P y)); simpl; lia.
  - simpl. rewrite !filter_cons. specialize (IH i x y Hi).
    destruct (decide (P a)); simpl; lia.
Qed.

Lemma occupied_count_store t i x y :
  slot t i = Some x ->
  occupied_count (set_buckets t (<[Z.to_nat i := y]> (m_buckets t))) =
  occupied_count t - occupied_bit t x + occupied_bit t y.
Proof.
  unfold slot, occupied_count, occupied_bit, set_buckets. simpl.
  destruct (Z.ltb_spec i 0); [discriminate |]. intros Hi.
  pose proof (filter_length_insert (fun b => b.1 <> m_empty_key t) (m_buckets t)
                (Z.to_nat i) x y Hi) as Hlen.
  destruct (decide (x.1 <> m_empty_key t)), (decide (y.1 <> m_empty_key t)); lia.
Qed.

(** ** Placing a new entry *)

Lemma placed_slot_eq t r k v : 0 <= r < bucket_count t -> slot (placed t r k v) r = Some (k, v).
Proof. intros Hr. unfold placed. rewrite slot_set_size. apply slot_store_eq. exact Hr. Qed.

Lemma placed_slot_ne t r k v j : 0 <= r -> r <> j -> slot (placed t r k v) j = slot t j.
Proof. intros Hr Hne. unfold placed. rewrite slot_set_size. apply slot_store_ne; assumption. Qed.

Lemma placed_bucket_count t r k v : bucket_count (placed t r k v) = bucket_count t.
Proof. unfold placed. apply bucket_count_store. Qed.

Lemma placed_key_to_idx t r k v k' : key_to_idx (placed t r k v) k' = key_to_idx t k'.
Proof. unfold key_to_idx. rewrite placed_bucket_count. reflexivity. Qed.

Lemma placed_holds t r k v k' v' :
  k <> m_empty_key t -> vacant t r ->
  holds (placed t r k v) k' v' <-> holds t k' v' \/ (k' = k /\ v' = v).
Proof.
  intros Hk (bz & Hbz & Hez). pose proof (slot_range _ _ _ Hbz) as Hr. split.
  - intros (Hk' & i & Hi). destruct (Z.eq_dec r i) as [<- | Hne].
    + rewrite placed_slot_eq in Hi by assumption. injection Hi as <- <-. right. split; reflexivity.
    + rewrite placed_slot_ne in Hi by (assumption || lia). left. split; [exact Hk' | exists i; exact Hi].
  - intros [(Hk' & i & Hi) | [-> ->]].
    + split; [exact Hk' |]. exists i. rewrite placed_slot_ne; [exact Hi | lia |].
      intros ->. rewrite Hbz in Hi. injection Hi as ->. simpl in Hez. congruence.
    + split; [exact Hk |]. exists r. apply placed_slot_eq. exact Hr.
Qed.

Lemma placed_wf t r k v :
  wf t -> usable t -> k <> m_empty_key t -> vacant t r ->
  scanned t k (key_to_idx t k) r -> ~ present t k ->
  2 * float_of_size (m_size t + 1) <= bucket_count t ->
  wf (placed t r k v) /\ m_size (placed t r k v) = m_size t + 1.
Proof.
  intros Hwf Hu Hk Hvac Hsc Habs Hload.
  pose proof Hvac as (bz & Hbz & Hez). pose proof (slot_range _ _ _ Hbz) as Hr.
  pose proof (usable_bound t Hu) as Hbound. pose proof (wf_size_lt t Hwf Hu) as Hlt.
  pose proof (occupied_count_range t) as Hocc. pose proof (wf_size t Hwf) as Hsz.
  assert (Hsize : m_size (placed t r k v) = m_size t + 1).
  { unfold placed. simpl. apply wrap_small. lia. }
  split; [| exact Hsize]. constructor.
  - rewrite placed_bucket_count. apply (wf_capacity t Hwf).
  - rewrite placed_bucket_count. apply (wf_max_size t Hwf).
  - rewrite Hsize. unfold placed, occupied_count at 1. simpl.
    change (Z.of_nat (length (filter (fun b => b.1 <> m_empty_key t)
              (<[Z.to_nat r := (k, v)]> (m_buckets t)))))
      with (occupied_count (set_buckets t (<[Z.to_nat r := (k, v)]> (m_buckets t)))).
    rewrite (occupied_count_store t r bz (k, v) Hbz). unfold occupied_bit. simpl.
    destruct (decide (bz.1 <> m_empty_key t)); [contradiction |].
    destruct (decide (k <> m_empty_key t)); [lia | contradiction].
  - rewrite Hsize, placed_bucket_count. exact Hload.
  - intros i j k' v1 v2 Hi Hj Hk'. change (m_empty_key (placed t r k v)) with (m_empty_key t) in Hk'.
    destruct (Z.eq_dec r i) as [<- | Hi'], (Z.eq_dec r j) as [<- | Hj']; try reflexivity.
    + rewrite placed_slot_eq in Hi by assumption. injection Hi as <- <-.
      rewrite placed_slot_ne in Hj by (assumption || lia).
      exfalso. apply Habs. exists v2. split; [assumption | exists j; exact Hj].
    + rewrite placed_slot_eq in Hj by assumption. injection Hj as <- <-.
      rewrite placed_slot_ne in Hi by (assumption || lia).
      exfalso. apply Habs. exists v1. split; [assumption | exists i; exact Hi].
    + rewrite placed_slot_ne in Hi, Hj by (assumption || lia).
      eapply (wf_unique t Hwf); eassumption.
  - intros i k' v' s Hi Hk' Hs Hd.
    change (m_empty_key (placed t r k v)) with (m_empty_key t) in Hk'.
    rewrite placed_bucket_count in Hs, Hd. rewrite placed_key_to_idx in Hd.
    assert (Hold : occupied t s -> occupied (placed t r k v) s).
    { intros (b & Hb & Hbe). destruct (Z.eq_dec r s) as [<- | Hne].
      - exists (k, v). split; [apply placed_slot_eq; assumption | exact Hk].
      - exists b. split; [| exact Hbe]. rewrite placed_slot_ne by (assumption || lia). exact Hb. }
    apply Hold. destruct (Z.eq_dec r i) as [<- | Hne].
    + rewrite placed_slot_eq in Hi by assumption. injection Hi as <- <-.
      destruct (Hsc s Hs Hd) as (b & Hb & _ & Hbe). exists b. split; assumption.
    + rewrite placed_slot_ne in Hi by (assumption || lia).
      eapply (wf_contiguous t Hwf); eassumption.
Qed.

(** The probe loop of [emplace_impl] on a table that has room. *)
Lemma emplace_loop_wf (fuel : nat) t k v :
  wf t -> usable t -> k <> m_empty_key t ->
  bucket_count t <= Z.of_nat fuel ->
  (present t k /\ exists i v0, slot t i = Some (k, v0) /\
     emplace_loop fuel t k v (key_to_idx t k) = Done (t, (i, false))) \/
  (~ present t k /\ exists r, vacant t r /\ scanned t k (key_to_idx t k) r /\
     emplace_loop fuel t k v (key_to_idx t k) = Done (placed t r k v, (r, true))).
Proof.
  intros Hwf Hu Hk Hfuel. pose proof (usable_pos t Hu) as Hpos.
  pose proof (key_to_idx_range t k Hu) as Hs.
  destruct (wf_probe_stop t k Hwf Hu Hk) as (r & Hr & Hsc & Hstop).
  destruct (emplace_loop_run fuel t k v r (key_to_idx t k) Hu Hs Hr Hsc) as [Hfound Hfree].
  { dist_lia (bucket_count t). }
  destruct Hstop as [[Hvac Habs] | [v0 Hv0]].
  - right. split; [exact Habs |]. exists r. repeat split; try assumption.
    apply Hfree. exact Hvac.
  - left. split.
    + exists v0. split; [assumption | exists r; exact Hv0].
    + exists r, v0. split; [exact Hv0 |]. apply (Hfound Hk v0 Hv0).
Qed.


(** ** Backward-shift erase *)

Lemma stored_slot_eq t h b : 0 <= h < bucket_count t -> slot (stored t h b) h = Some b.
Proof. apply slot_store_eq. Qed.

Lemma stored_slot_ne t h b j : 0 <= h -> h <> j -> slot (stored t h b) j = slot t j.
Proof. apply slot_store_ne. Qed.

Lemma stored_bucket_count t h b : bucket_count (stored t h b) = bucket_count t.
Proof. apply bucket_count_store. Qed.

Lemma stored_key_to_idx t h b k : key_to_idx (stored t h b) k = key_to_idx t k.
Proof. unfold key_to_idx. rewrite stored_bucket_count. reflexivity. Qed.

Lemma stored_usable t h b : usable t -> usable (stored t h b).
Proof. unfold usable. rewrite stored_bucket_count. tauto. Qed.

Lemma stored_occupied t h b s :
  0 <= h < bucket_count t -> b.1 <> m_empty_key t ->
  occupied t s -> occupied (stored t h b) s.
Proof.
  intros Hh Hb (x & Hx & Hxe). destruct (Z.eq_dec h s) as [<- | Hne].
  - exists b. split; [apply stored_slot_eq; assumption | exact Hb].
  - exists x. split; [| exact Hxe]. rewrite stored_slot_ne by (assumption || lia). exact Hx.
Qed.

Lemma erase_loop_vacate t hole idx z :
  erase_inv t hole idx z -> vacant t idx ->
  exists old, slot t hole = Some old /\
    erase_post t hole (set_size (stored t hole (m_empty_key t, old.2)) (wrap (m_size t - 1))).
Proof.
  intros [Hu Hhole Hidx Hz Hord Hcont Hpend Huniq] Hvac.
  pose proof (usable_pos t Hu) as Hpos.
  destruct Hhole as (old & Hold & Holde). pose proof (slot_range _ _ _ Hold) as Hh.
  exists old. split; [exact Hold |].
  set (t' := set_size (stored t hole (m_empty_key t, old.2)) (wrap (m_size t - 1))).
  assert (Hsame : forall j, j <> hole -> slot t' j = slot t j).
  { intros j Hj. unfold t'. rewrite slot_set_size. apply stored_slot_ne; lia. }
  assert (Hat : slot t' hole = Some (m_empty_key t, old.2)).
  { unfold t'. rewrite slot_set_size. apply stored_slot_eq. exact Hh. }
  assert (Hn : bucket_count t' = bucket_count t) by apply stored_bucket_count.
  assert (Hkey : forall k, key_to_idx t' k = key_to_idx t k) by (intros; apply stored_key_to_idx).
  assert (Hback : forall i k v, slot t' i = Some (k, v) -> k <> m_empty_key t ->
                  i <> hole /\ slot t i = Some (k, v)).
  { intros i k v Hi Hk. destruct (Z.eq_dec i hole) as [-> | Hne].
    - rewrite Hat in Hi. injection Hi as <- <-. contradiction.
    - split; [exact Hne |]. rewrite <- Hsame by assumption. exact Hi. }
  constructor.
  - reflexivity.
  - exact Hn.
  - reflexivity.
  - unfold t'. change (occupied_count (set_size ?x _)) with (occupied_count x).
    unfold stored. rewrite (occupied_count_store t hole old _ Hold). unfold occupied_bit. simpl.
    destruct (decide (old.1 <> m_empty_key t)); [| contradiction].
    destruct (decide (m_empty_key t <> m_empty_key t)); [contradiction | lia].
  - intros i j k v v' Hi Hj Hk. change (m_empty_key t') with (m_empty_key t) in Hk.
    destruct (Hback i k v Hi Hk) as [Hi1 Hi2]. destruct (Hback j k v' Hj Hk) as [Hj1 Hj2].
    eapply Huniq; eassumption.
  - intros i k v s Hi Hk Hs Hd. change (m_empty_key t') with (m_empty_key t) in Hk.
    rewrite Hn in Hs, Hd. rewrite Hkey in Hd.
    destruct (Hback i k v Hi Hk) as [Hi1 Hi2].
    pose proof (slot_range _ _ _ Hi2) as Hir.
    pose proof (key_to_idx_range t k Hu) as Hhome.
    destruct (Hcont i k v s Hi1 Hi2 Hk Hs Hd) as (x & Hx & Hxe).
    destruct (Z.eq_dec s hole) as [-> | Hne].
    + exfalso. pose proof (Hpend i k v Hi1 Hi2 Hk Hd) as Hp.
      assert (Hii : i <> idx).
      { intros ->. destruct Hvac as (y & Hy & Hye). rewrite Hi2 in Hy.
        injection Hy as <-. simpl in Hye. contradiction. }
      apply (occupied_not_vacant t idx); [| exact Hvac].
      apply (Hcont i k v idx Hi1 Hi2 Hk Hidx). dist_lia (bucket_count t).
    + exists x. split; [| exact Hxe]. rewrite Hsame by assumption. exact Hx.
  - intros k v Hk. split.
    + intros (i & Hi). exists i. apply (Hback i k v Hi Hk).
    + intros (i & Hne & Hi). exists i. rewrite Hsame by assumption. exact Hi.
Qed.


Lemma erase_inv_skip t hole idx z b :
  erase_inv t hole idx z -> slot t idx = Some b -> b.1 <> m_empty_key t ->
  ~ dist (bucket_count t) hole (key_to_idx t b.1) <
    dist (bucket_count t) idx (key_to_idx t b.1) ->
  erase_inv t hole ((idx + 1) mod bucket_count t) z.
Proof.
  intros [Hu Hhole Hidx Hz Hord Hcont Hpend Huniq] Hb Hbe Hskip.
  pose proof (usable_pos t Hu) as Hpos.
  pose proof Hhole as (old & Hold & _). pose proof (slot_range _ _ _ Hold) as Hh.
  pose proof Hz as (bz & Hbz & Hbze). pose proof (slot_range _ _ _ Hbz) as Hzr.
  assert (Hzi : z <> idx) by (intros ->; congruence).
  constructor; try assumption.
  - apply Z.mod_pos_bound. lia.
  - dist_lia (bucket_count t).
  - intros i k v Hi1 Hi2 Hk Hd. pose proof (Hpend i k v Hi1 Hi2 Hk Hd) as Hp.
    pose proof (slot_range _ _ _ Hi2) as Hir.
    assert (Hii : i <> idx).
    { intros ->. rewrite Hi2 in Hb. injection Hb as <-. simpl in Hskip. contradiction. }
    dist_lia (bucket_count t).
Qed.

Lemma erase_inv_move t hole idx z b :
  erase_inv t hole idx z -> slot t idx = Some b -> b.1 <> m_empty_key t ->
  dist (bucket_count t) hole (key_to_idx t b.1) <
    dist (bucket_count t) idx (key_to_idx t b.1) ->
  erase_inv (stored t hole b) idx ((idx + 1) mod bucket_count t) z.
Proof.
  intros [Hu Hhole Hidx Hz Hord Hcont Hpend Huniq] Hb Hbe Hmove.
  pose proof (usable_pos t Hu) as Hpos.
  pose proof Hhole as (old & Hold & _). pose proof (slot_range _ _ _ Hold) as Hh.
  pose proof Hz as (bz & Hbz & Hbze). pose proof (slot_range _ _ _ Hbz) as Hzr.
  assert (Hzi : z <> idx) by (intros ->; congruence).
  assert (Hzh : z <> hole) by (intros ->; eapply occupied_not_vacant; eassumption).
  assert (Hih : idx <> hole) by (intros ->; dist_lia (bucket_count t)).
  assert (Hsame : forall j, j <> hole -> slot (stored t hole b) j = slot t j).
  { intros j Hj. apply stored_slot_ne; lia. }
  assert (Hat : slot (stored t hole b) hole = Some b) by (apply stored_slot_eq; exact Hh).
  assert (Hocc : forall s, occupied t s -> occupied (stored t hole b) s).
  { intros s. apply stored_occupied; assumption. }
  constructor; rewrite ?stored_bucket_count.
  - apply stored_usable. exact Hu.
  - exists b. split; [| exact Hbe]. rewrite Hsame by assumption. exact Hb.
  - apply Z.mod_pos_bound. lia.
  - exists bz. split; [| exact Hbze]. rewrite Hsame by assumption. exact Hbz.
  - dist_lia (bucket_count t).
  - intros i k v s Hi1 Hi2 Hk Hs Hd.
    change (m_empty_key (stored t hole b)) with (m_empty_key t) in Hk.
    rewrite stored_key_to_idx in Hd. apply Hocc.
    pose proof (key_to_idx_range t k Hu) as Hhome.
    destruct (Z.eq_dec i hole) as [-> | Hne].
    + rewrite Hat in Hi2. injection Hi2 as ->. simpl in *.
      apply (Hcont idx k v s Hih Hb Hk Hs). lia.
    + rewrite Hsame in Hi2 by assumption.
      apply (Hcont i k v s Hne Hi2 Hk Hs Hd).
  - intros i k v Hi1 Hi2 Hk Hd. pose proof (slot_range _ _ _ Hi2) as Hir.
    rewrite stored_bucket_count in Hir. dist_lia (bucket_count t).
  - intros i j k v v' Hi1 Hj1 Hi2 Hj2 Hk.
    change (m_empty_key (stored t hole b)) with (m_empty_key t) in Hk.
    destruct (Z.eq_dec i hole) as [-> | Hi3], (Z.eq_dec j hole) as [-> | Hj3];
      try reflexivity.
    + rewrite Hat in Hi2. injection Hi2 as ->. rewrite Hsame in Hj2 by assumption.
      exfalso. apply Hj1. apply (Huniq j idx k v' v); assumption.
    + rewrite Hat in Hj2. injection Hj2 as ->. rewrite Hsame in Hi2 by assumption.
      exfalso. apply Hi1. apply (Huniq i idx k v v'); assumption.
    + rewrite Hsame in Hi2, Hj2 by assumption.
      apply (Huniq i j k v v'); assumption.
Qed.

Lemma occupied_count_stored t hole b old :
  slot t hole = Some old -> old.1 <> m_empty_key t -> b.1 <> m_empty_key t ->
  occupied_count (stored t hole b) = occupied_count t.
Proof.
  intros Hold Holde Hbe. unfold stored.
  rewrite (occupied_count_store t hole old b Hold). unfold occupied_bit.
  destruct (decide (old.1 <> m_empty_key t)); [| contradiction].
  destruct (decide (b.1 <> m_empty_key t)); [lia | contradiction].
Qed.

Lemma erase_post_move t hole idx b t' :
  occupied t hole -> idx <> hole -> slot t idx = Some b -> b.1 <> m_empty_key t ->
  erase_post (stored t hole b) idx t' -> erase_post t hole t'.
Proof.
  intros (old & Hold & Holde) Hih Hb Hbe [He Hn Hsz Hoc Hu Hc Hs].
  pose proof (slot_range _ _ _ Hold) as Hh.
  assert (Hsame : forall j, j <> hole -> slot (stored t hole b) j = slot t j).
  { intros j Hj. apply stored_slot_ne; lia. }
  assert (Hat : slot (stored t hole b) hole = Some b) by (apply stored_slot_eq; exact Hh).
  constructor; try assumption.
  - rewrite Hn. apply stored_bucket_count.
  - rewrite Hoc. f_equal. eapply occupied_count_stored; eassumption.
  - intros k v Hk. rewrite (Hs k v Hk). split.
    + intros (i & Hi1 & Hi2). destruct (Z.eq_dec i hole) as [-> | Hne].
      * rewrite Hat in Hi2. injection Hi2 as ->. exists idx. split; assumption.
      * exists i. split; [exact Hne |]. rewrite <- Hsame by assumption. exact Hi2.
    + intros (i & Hi1 & Hi2). destruct (Z.eq_dec i idx) as [-> | Hne].
      * exists hole. split; [congruence |]. rewrite Hat. congruence.
      * exists i. split; [exact Hne |]. rewrite Hsame by assumption. exact Hi2.
Qed.

Lemma erase_loop_spec (fuel : nat) z : forall t hole idx,
  erase_inv t hole idx z ->
  dist (bucket_count t) z idx < Z.of_nat fuel ->
  exists t', erase_loop fuel t hole idx = Done t' /\ erase_post t hole t'.
Proof.
  induction fuel as [| fuel IH]; intros t hole idx Hinv Hfuel.
  { exfalso. pose proof (ei_usable _ _ _ _ Hinv) as Hu. pose proof (usable_pos t Hu).
    pose proof (ei_idx _ _ _ _ Hinv). destruct (ei_vacant _ _ _ _ Hinv) as (bz & Hbz & _).
    pose proof (slot_range _ _ _ Hbz). dist_lia (bucket_count t). }
  pose proof (ei_usable _ _ _ _ Hinv) as Hu. pose proof (usable_pos t Hu) as Hpos.
  pose proof (ei_idx _ _ _ _ Hinv) as Hidx.
  pose proof (ei_hole _ _ _ _ Hinv) as Hhole.
  pose proof (ei_order _ _ _ _ Hinv) as Hord.
  pose proof (ei_vacant _ _ _ _ Hinv) as Hz.
  destruct Hz as (bz & Hbz & Hbze). pose proof (slot_range _ _ _ Hbz) as Hzr.
  destruct Hhole as (old & Hold & Holde). pose proof (slot_range _ _ _ Hold) as Hh.
  destruct (slot_defined t idx Hidx) as [b Hb].
  simpl. rewrite (bucket_at_slot _ _ _ Hb). simpl.
  destruct (decide (b.1 = m_empty_key t)) as [He | Hne].
  - assert (key_equal b.1 (m_empty_key t) = true) as -> by (apply key_equal_true; exact He).
    destruct (erase_loop_vacate t hole idx z Hinv) as (old' & Hold' & Hpost).
    { exists b. split; assumption. }
    rewrite (bucket_at_slot _ _ _ Hold'). simpl.
    rewrite bucket_store_inside by lia. simpl.
    eexists. split; [reflexivity | exact Hpost].
  - assert (key_equal b.1 (m_empty_key t) = false) as -> by (apply key_equal_false; exact Hne).
    rewrite !diff_dist by assumption.
    assert (Hzi : z <> idx) by (intros ->; congruence).
    destruct (Z.ltb_spec (dist (bucket_count t) hole (key_to_idx t b.1))
                         (dist (bucket_count t) idx (key_to_idx t b.1))) as [Hmove | Hskip].
    + rewrite bucket_store_inside by lia. simpl.
      fold (stored t hole b).
      rewrite probe_next_mod by (try apply stored_usable; rewrite ?stored_bucket_count; assumption).
      rewrite stored_bucket_count.
      destruct (IH (stored t hole b) idx ((idx + 1) mod bucket_count t)) as (t' & Hrun & Hpost).
      { apply erase_inv_move; assumption. }
      { rewrite stored_bucket_count. dist_lia (bucket_count t). }
      exists t'. split; [exact Hrun |].
      eapply erase_post_move; try eassumption.
      * exists old. split; assumption.
      * intros ->. dist_lia (bucket_count t).
    + rewrite probe_next_mod by assumption.
      destruct (IH t hole ((idx + 1) mod bucket_count t)) as (t' & Hrun & Hpost).
      { eapply erase_inv_skip; try eassumption. lia. }
      { dist_lia (bucket_count t). }
      exists t'. split; assumption.
Qed.


Lemma erase_impl_it_wf (fuel : nat) t it :
  wf t -> occupied t it -> bucket_count t <= Z.of_nat fuel ->
  exists t', erase_impl_it fuel t it = Done t' /\ wf t' /\
    m_empty_key t' = m_empty_key t /\ bucket_count t' = bucket_count t /\
    m_size t' = m_size t - 1 /\
    (forall k v, holds t' k v <->
       k <> m_empty_key t /\ exists i, i <> it /\ slot t i = Some (k, v)).
Proof.
  intros Hwf Hocc Hfuel. pose proof Hocc as (old & Hold & Holde).
  pose proof (slot_range _ _ _ Hold) as Hit.
  assert (Hu : usable t) by (apply wf_usable; [assumption | lia]).
  pose proof (usable_pos t Hu) as Hpos.
  destruct (wf_vacant t Hwf Hu) as [z Hz].
  pose proof Hz as (bz & Hbz & Hbze). pose proof (slot_range _ _ _ Hbz) as Hzr.
  assert (Hzi : z <> it) by (intros ->; eapply occupied_not_vacant; eassumption).
  assert (Hnext : 0 <= (it + 1) mod bucket_count t < bucket_count t)
    by (apply Z.mod_pos_bound; lia).
  unfold erase_impl_it. rewrite probe_next_mod by assumption.
  destruct (erase_loop_spec fuel z t it ((it + 1) mod bucket_count t)) as (t' & Hrun & Hpost).
  { constructor; try assumption.
    - dist_lia (bucket_count t).
    - intros i k v s _. apply (wf_contiguous t Hwf).
    - intros i k v Hi1 Hi2 _ _. pose proof (slot_range _ _ _ Hi2). dist_lia (bucket_count t).
    - intros i j k v v' _ _. apply (wf_unique t Hwf). }
  { dist_lia (bucket_count t). }
  destruct Hpost as [He Hn Hsz Hoc Hun Hco Hsl].
  pose proof (occupied_count_range t') as Hr'. pose proof (occupied_count_range t) as Hr.
  pose proof (wf_size t Hwf) as Hsize. pose proof (usable_bound t Hu) as Hb.
  assert (Hsz' : m_size t' = m_size t - 1) by (rewrite Hsz; apply wrap_small; lia).
  exists t'. split_and!; try assumption.
  - constructor; try assumption.
    + rewrite Hn. apply (wf_capacity t Hwf).
    + rewrite Hn. apply (wf_max_size t Hwf).
    + lia.
    + rewrite Hn, Hsz'. pose proof (wf_load t Hwf).
      pose proof (float_of_size_mono (m_size t - 1) (m_size t)). lia.
  - intros k v. unfold holds. rewrite He. split.
    + intros [Hk Hi]. split; [exact Hk |]. apply (Hsl k v Hk). exact Hi.
    + intros [Hk Hi]. split; [exact Hk |]. apply (Hsl k v Hk). exact Hi.
Qed.

Lemma erase_impl_present (fuel : nat) t k :
  wf t -> k <> m_empty_key t -> present t k -> bucket_count t <= Z.of_nat fuel ->
  exists t', erase_impl fuel t k = Done (t', 1) /\ wf t' /\
    m_empty_key t' = m_empty_key t /\ bucket_count t' = bucket_count t /\
    m_size t' = m_size t - 1 /\
    (forall k' v', holds t' k' v' <-> holds t k' v' /\ k' <> k).
Proof.
  intros Hwf Hk (v & _ & i & Hi) Hfuel. pose proof (slot_range _ _ _ Hi) as Hir.
  destruct (erase_impl_it_wf fuel t i Hwf) as (t' & Hrun & Hwf' & He & Hn & Hsz & Hh).
  { exists (k, v). split; [exact Hi | exact Hk]. }
  { exact Hfuel. }
  exists t'. split_and!; try assumption.
  - unfold erase_impl. rewrite (find_impl_present fuel t k v i) by assumption. simpl.
    unfold end_. destruct (Z.eqb_spec i (bucket_count t)); [lia |]. simpl.
    rewrite Hrun. reflexivity.
  - intros k' v'. rewrite Hh. split.
    + intros (Hk' & j & Hj & Hs). split.
      * split; [exact Hk' | exists j; exact Hs].
      * intros ->. apply Hj. eapply (wf_unique t Hwf); eassumption.
    + intros ((Hk' & j & Hj) & Hne). split; [exact Hk' |].
      exists j. split; [| exact Hj]. intros ->. rewrite Hi in Hj. congruence.
Qed.

Lemma erase_impl_absent (fuel : nat) t k :
  wf t -> 0 < bucket_count t -> k <> m_empty_key t -> ~ present t k ->
  bucket_count t <= Z.of_nat fuel ->
  erase_impl fuel t k = Done (t, 0).
Proof.
  intros Hwf Hpos Hk Habs Hfuel. unfold erase_impl.
  rewrite find_impl_absent by assumption. simpl. rewrite Z.eqb_refl. reflexivity.
Qed.

(** ** More fuel changes no result *)

Lemma find_loop_mono (f f' : nat) t k : forall idx r,
  (f <= f')%nat -> find_loop f t k idx = Done r -> find_loop f' t k idx = Done r.
Proof.
  revert f'. induction f as [| f IH]; intros f' idx r Hle Hrun; [discriminate |].
  destruct f' as [| f']; [lia |]. simpl in *.
  destruct (bucket_at t idx) as [b | e |]; simpl in *; try discriminate.
  destruct (key_equal b.1 k); [exact Hrun |].
  destruct (key_equal b.1 (m_empty_key t)); [exact Hrun |].
  apply IH; [lia | exact Hrun].
Qed.

Lemma emplace_loop_mono (f f' : nat) t k v : forall idx r,
  (f <= f')%nat -> emplace_loop f t k v idx = Done r -> emplace_loop f' t k v idx = Done r.
Proof.
  revert f'. induction f as [| f IH]; intros f' idx r Hle Hrun; [discriminate |].
  destruct f' as [| f']; [lia |]. simpl in *.
  destruct (bucket_at t idx) as [b | e |]; simpl in *; try discriminate.
  destruct (key_equal b.1 (m_empty_key t)); [exact Hrun |].
  destruct (key_equal b.1 k); [exact Hrun |].
  apply IH; [lia | exact Hrun].
Qed.

Lemma erase_loop_mono (f f' : nat) : forall t hole idx r,
  (f <= f')%nat -> erase_loop f t hole idx = Done r -> erase_loop f' t hole idx = Done r.
Proof.
  revert f'. induction f as [| f IH]; intros f' t hole idx r Hle Hrun; [discriminate |].
  destruct f' as [| f']; [lia |]. simpl in *.
  destruct (bucket_at t idx) as [b | e |]; simpl in *; try discriminate.
  destruct (key_equal b.1 (m_empty_key t)); [exact Hrun |].
  destruct (diff t hole (key_to_idx t b.1) <? diff t idx (key_to_idx t b.1)).
  - destruct (bucket_store t hole b) as [t1 | e |]; simpl in *; try discriminate.
    apply IH; [lia | exact Hrun].
  - apply IH; [lia | exact Hrun].
Qed.

Lemma insert_range_mono ins ins' e : ins_le ins ins' -> forall es t r,
  insert_range ins es e t = Done r -> insert_range ins' es e t = Done r.
Proof.
  intros Hle es. induction es as [| b es IH]; intros t r Hrun; simpl in *; [exact Hrun |].
  destruct (key_equal b.1 e); [apply IH; exact Hrun |].
  destruct (ins t b.1 b.2) as [r1 | err |] eqn:Hins; simpl in *; try discriminate.
  rewrite (Hle _ _ _ _ Hins). simpl. apply IH. exact Hrun.
Qed.

Lemma construct_copy_mono ins ins' other bc r : ins_le ins ins' ->
  construct_copy ins other bc = Done r -> construct_copy ins' other bc = Done r.
Proof.
  intros Hle. unfold construct_copy.
  destruct (construct bc (m_empty_key other)) as [t0 | e |]; simpl; try discriminate.
  apply insert_range_mono. exact Hle.
Qed.

Lemma rehash_with_mono ins ins' t c r : ins_le ins ins' ->
  rehash_with ins t c = Done r -> rehash_with ins' t c = Done r.
Proof.
  intros Hle. unfold rehash_with.
  destruct (size_of_float _) as [needed | e |]; simpl; try discriminate.
  destruct (compute_closest_capacity _ _) as [c' | e |]; simpl; try discriminate.
  destruct (construct_copy ins t c') as [o | e |] eqn:Hc; simpl; try discriminate.
  rewrite (construct_copy_mono ins ins' t c' o Hle Hc). simpl. trivial.
Qed.

Lemma check_for_rehash_with_mono ins ins' t r : ins_le ins ins' ->
  check_for_rehash_with ins t = Done r -> check_for_rehash_with ins' t = Done r.
Proof.
  intros Hle. unfold check_for_rehash_with.
  destruct (float_gt_half _ _); [| trivial]. apply rehash_with_mono. exact Hle.
Qed.

Lemma emplace_impl_S (f : nat) t k v :
  emplace_impl (S f) t k v =
  (assert_that ndebug (negb (key_equal (m_empty_key t) k)) ;;
   do t1 <- check_for_rehash_with (emplace_impl f) t;
   emplace_loop (S f) t1 k v (key_to_idx t1 k)).
Proof. reflexivity. Qed.

Lemma emplace_impl_mono (f : nat) : forall f', (f <= f')%nat ->
  ins_le (emplace_impl f) (emplace_impl f').
Proof.
  induction f as [| f IH]; intros f' Hle t k v r Hrun; [discriminate |].
  destruct f' as [| f']; [lia |].
  rewrite emplace_impl_S in Hrun |- *.
  destruct (assert_that _ _) as [[] | e |]; cbn [bind] in *; try discriminate.
  destruct (check_for_rehash_with (emplace_impl f) t) as [t1 | e |] eqn:Hc;
    cbn [bind] in *; try discriminate.
  rewrite (check_for_rehash_with_mono _ (emplace_impl f') t t1 (IH f' ltac:(lia)) Hc).
  cbn [bind]. eapply emplace_loop_mono; [| exact Hrun]. lia.
Qed.


(** ** A freshly constructed table *)

Lemma fresh_bucket_count c e : 0 <= c -> bucket_count (fresh c e) = c.
Proof. intros Hc. unfold bucket_count, fresh. simpl. rewrite length_replicate. lia. Qed.

Lemma fresh_slot c e i b : slot (fresh c e) i = Some b -> b = (e, T_default).
Proof.
  unfold slot, fresh. simpl. destruct (i <? 0); [discriminate |].
  intros Hl. apply lookup_replicate in Hl. tauto.
Qed.

Lemma fresh_not_holds c e k v : ~ holds (fresh c e) k v.
Proof.
  intros (Hk & i & Hi). apply fresh_slot in Hi. injection Hi as -> _.
  apply Hk. reflexivity.
Qed.

Lemma filter_replicate_none (P : Key * T -> Prop) `{!forall x, Decision (P x)}
    (n : nat) (x : Key * T) : ~ P x -> filter P (replicate n x) = [].
Proof.
  intros Hx. induction n as [| n IH]; [reflexivity |].
  simpl. rewrite filter_cons_False by assumption. exact IH.
Qed.

Lemma fresh_wf c e : c = 0 \/ is_pow2 c -> c <= max_size -> wf (fresh c e).
Proof.
  intros Hc Hm.
  assert (Hnn : 0 <= c) by (destruct Hc as [-> | Hp]; [lia | apply is_pow2_pos in Hp; lia]).
  constructor; rewrite ?fresh_bucket_count by assumption; try assumption.
  - unfold occupied_count, fresh. simpl.
    rewrite filter_replicate_none; [reflexivity |]. simpl. intros Hne. apply Hne. reflexivity.
  - intros i j k v v' Hi _ Hk. apply fresh_slot in Hi. injection Hi as -> _.
    exfalso. apply Hk. reflexivity.
  - intros i k v s Hi Hk. apply fresh_slot in Hi. injection Hi as -> _.
    exfalso. apply Hk. reflexivity.
Qed.

Lemma construct_pow2 c e :
  is_pow2 c -> c <= max_size -> construct c e = Done (fresh c e).
Proof.
  intros Hp Hm. pose proof max_size_range. unfold construct.
  rewrite closest_capacity_of_pow2 by (assumption || lia). simpl.
  unfold vector_resize. destruct (Z.leb_spec c max_size); [reflexivity | lia].
Qed.

Lemma closest_capacity_zero nd : compute_closest_capacity nd 0 = Done 0.
Proof. reflexivity. Qed.

Lemma construct_done bc e t :
  0 <= bc -> construct bc e = Done t ->
  exists c, t = fresh c e /\ (c = 0 \/ is_pow2 c) /\ c <= max_size /\
    (bc = 0 -> c = 0) /\ (1 <= bc -> is_pow2 c /\ bc <= c /\
                                     forall c', is_pow2 c' -> bc <= c' -> c <= c').
Proof.
  intros Hbc. pose proof max_size_range as Hmax. unfold construct.
  destruct (Z.eq_dec bc 0) as [-> | Hnz].
  { rewrite closest_capacity_zero. simpl. unfold vector_resize.
    destruct (Z.leb_spec 0 max_size); [| lia]. simpl. intros [= <-].
    exists 0. split_and!; try reflexivity; try lia. }
  destruct (Z_le_gt_dec bc (2 ^ 63)) as [Hle | Hgt].
  - destruct (compute_closest_capacity ndebug bc) as [c | err |] eqn:Hc; simpl; try discriminate.
    destruct (closest_capacity_pow2 ndebug bc c ltac:(lia) Hc) as (Hp & Hge & Hc63 & Hleast).
    unfold vector_resize. destruct (Z.leb_spec c max_size); [| discriminate]. simpl.
    intros [= <-]. exists c. split_and!; try reflexivity; try assumption; try lia.
    + right. exact Hp.
    + intros _. split_and!; assumption.
  - unfold compute_closest_capacity, highest_capacity, size_t_digits.
    change (Z.shiftl 1 (64 - 1)) with (2 ^ 63).
    destruct (Z.gtb_spec bc (2 ^ 63)); [| lia].
    destruct ndebug; simpl; try discriminate.
    unfold vector_resize. destruct (Z.leb_spec (2 ^ 63) max_size); [lia | discriminate].
Qed.

(** ** Insertion without growth *)

Lemma wf_size_range t : wf t -> 0 <= m_size t <= bucket_count t.
Proof. intros Hwf. rewrite (wf_size t Hwf). apply occupied_count_range. Qed.

Lemma wf_bucket_count_bound t : wf t -> 0 <= bucket_count t < 2 ^ 62.
Proof.
  intros Hwf. pose proof max_size_range. pose proof (wf_max_size t Hwf).
  unfold bucket_count in *. lia.
Qed.

Lemma float_of_bucket_count t : wf t -> float_of_size (bucket_count t) = bucket_count t.
Proof.
  intros Hwf. destruct (wf_capacity t Hwf) as [-> | Hp]; [reflexivity |].
  apply float_of_size_pow2. exact Hp.
Qed.

(** The test of [check_for_rehash], in integers. *)
Lemma growth_check t :
  wf t ->
  float_gt_half (float_of_size (wrap (size t + 1))) (float_of_size (bucket_count t)) =
  (bucket_count t <? 2 * float_of_size (m_size t + 1)).
Proof.
  intros Hwf. pose proof (wf_size_range t Hwf). pose proof (wf_bucket_count_bound t Hwf).
  unfold float_gt_half, size. rewrite wrap_small by lia.
  rewrite float_of_bucket_count by assumption. reflexivity.
Qed.

Lemma check_for_rehash_no_growth ins t :
  wf t -> 2 * float_of_size (m_size t + 1) <= bucket_count t ->
  check_for_rehash_with ins t = Done t.
Proof.
  intros Hwf Hroom. unfold check_for_rehash_with. rewrite growth_check by assumption.
  destruct (Z.ltb_spec (bucket_count t) (2 * float_of_size (m_size t + 1))); [lia | reflexivity].
Qed.

Lemma emplace_impl_no_growth (fuel : nat) t k v :
  wf t -> k <> m_empty_key t ->
  2 * float_of_size (m_size t + 1) <= bucket_count t ->
  emplace_impl (S fuel) t k v = emplace_loop (S fuel) t k v (key_to_idx t k).
Proof.
  intros Hwf Hk Hroom. rewrite emplace_impl_S, assert_key by assumption. cbn [bind].
  rewrite check_for_rehash_no_growth by assumption. reflexivity.
Qed.

Lemma occ_len_nonneg e es : 0 <= occ_len e es.
Proof. unfold occ_len. lia. Qed.

Lemma occ_len_cons e b es :
  occ_len e (b :: es) = (if decide (b.1 = e) then 0 else 1) + occ_len e es.
Proof.
  unfold occ_len. rewrite filter_cons.
  destruct (decide (b.1 <> e)), (decide (b.1 = e)); simpl; try lia; contradiction.
Qed.

Lemma distinct_keys_tail e b es : distinct_keys e (b :: es) -> distinct_keys e es.
Proof.
  intros Hd i j k v v' Hi Hj Hk.
  assert (S i = S j) by (apply (Hd (S i) (S j) k v v'); assumption). lia.
Qed.

Lemma distinct_keys_head e k v es v' :
  distinct_keys e ((k, v) :: es) -> k <> e -> (k, v') ∈ es -> False.
Proof.
  intros Hd Hk Hin. apply list_elem_of_lookup in Hin as [j Hj].
  assert (0%nat = S j) by (apply (Hd 0%nat (S j) k v v'); [reflexivity | exact Hj | exact Hk]).
  lia.
Qed.

Lemma insert_range_no_growth (fuel : nat) e : forall es acc,
  wf acc -> usable acc -> m_empty_key acc = e ->
  distinct_keys e es ->
  (forall k v, (k, v) ∈ es -> k <> e -> ~ present acc k) ->
  2 * float_of_size (m_size acc + occ_len e es) <= bucket_count acc ->
  bucket_count acc <= Z.of_nat fuel ->
  exists acc', insert_range (emplace_impl fuel) es e acc = Done acc' /\
    wf acc' /\ m_empty_key acc' = e /\ bucket_count acc' = bucket_count acc /\
    m_size acc' = m_size acc + occ_len e es /\
    (forall k v, holds acc' k v <-> holds acc k v \/ (k <> e /\ (k, v) ∈ es)).
Proof.
  induction es as [| b es IH]; intros acc Hwf Hu He Hd Hnew Hroom Hfuel.
  { exists acc. simpl. split_and!; try reflexivity; try assumption.
    - unfold occ_len. simpl. lia.
    - intros k v. split; [tauto |]. intros [Hh | [_ Hin]]; [exact Hh |].
      apply elem_of_nil in Hin. contradiction. }
  rewrite occ_len_cons in Hroom. pose proof (occ_len_nonneg e es) as Hnn.
  cbn [insert_range]. destruct (decide (b.1 = e)) as [Hbe | Hbe].
  - assert (key_equal b.1 e = true) as -> by (apply key_equal_true; exact Hbe).
    destruct (IH acc Hwf Hu He (distinct_keys_tail _ _ _ Hd)) as (acc' & Hrun & Hwf' & He' & Hn' & Hsz' & Hh').
    { intros k v Hin. apply (Hnew k v). apply elem_of_cons. right. exact Hin. }
    { replace (m_size acc + occ_len e es) with (m_size acc + (0 + occ_len e es)) by lia. exact Hroom. }
    { exact Hfuel. }
    exists acc'. split_and!; try assumption.
    + rewrite occ_len_cons. destruct (decide (b.1 = e)); [lia | contradiction].
    + intros k v. rewrite Hh'. split.
      * intros [Hh | [Hk Hin]]; [left; exact Hh | right]. split; [exact Hk |].
        apply elem_of_cons. right. exact Hin.
      * intros [Hh | [Hk Hin]]; [left; exact Hh | right]. split; [exact Hk |].
        apply elem_of_cons in Hin as [Heq | Hin]; [subst b; simpl in Hbe; contradiction | exact Hin].
  - assert (key_equal b.1 e = false) as -> by (apply key_equal_false; exact Hbe).
    destruct b as [kb vb]. simpl in Hbe |- *.
    pose proof (usable_pos acc Hu) as Hpos.
    destruct fuel as [| fuel]; [lia |].
    assert (Hkb : kb <> m_empty_key acc) by congruence.
    assert (Hroom1 : 2 * float_of_size (m_size acc + 1) <= bucket_count acc).
    { pose proof (float_of_size_mono (m_size acc + 1) (m_size acc + (1 + occ_len e es))). lia. }
    rewrite emplace_impl_no_growth by assumption.
    destruct (emplace_loop_wf (S fuel) acc kb vb Hwf Hu Hkb Hfuel)
      as [[Hpres _] | (Habs & r & Hvac & Hsc & Hrun)].
    { exfalso. apply (Hnew kb vb); [apply elem_of_cons; left; reflexivity | exact Hbe | exact Hpres]. }
    rewrite Hrun. cbn [bind fst].
    destruct (placed_wf acc r kb vb Hwf Hu Hkb Hvac Hsc Habs Hroom1) as [Hwf1 Hsz1].
    destruct (IH (placed acc r kb vb)) as (acc' & Hrun' & Hwf' & He' & Hn' & Hsz' & Hh').
    + exact Hwf1.
    + unfold usable. rewrite placed_bucket_count. exact Hu.
    + exact He.
    + exact (distinct_keys_tail _ _ _ Hd).
    + intros k v Hin Hk (v0 & Hh0). apply placed_holds in Hh0; [| assumption..].
      destruct Hh0 as [Hh0 | [-> _]].
      * apply (Hnew k v); [apply elem_of_cons; right; exact Hin | exact Hk | exists v0; exact Hh0].
      * apply (distinct_keys_head e kb vb es v); assumption.
    + rewrite Hsz1, placed_bucket_count.
      replace (m_size acc + 1 + occ_len e es) with (m_size acc + (1 + occ_len e es)) by lia.
      exact Hroom.
    + rewrite placed_bucket_count. exact Hfuel.
    + exists acc'. split_and!; try assumption.
      * rewrite Hn'. apply placed_bucket_count.
      * rewrite Hsz', Hsz1, occ_len_cons. simpl.
        destruct (decide (kb = e)); [contradiction | lia].
      * intros k v. rewrite Hh'. rewrite placed_holds by assumption. split.
        -- intros [[Hh | [-> ->]] | [Hk Hin]].
           ++ left. exact Hh.
           ++ right. split; [exact Hbe | apply elem_of_cons; left; reflexivity].
           ++ right. split; [exact Hk | apply elem_of_cons; right; exact Hin].
        -- intros [Hh | [Hk Hin]]; [left; left; exact Hh |].
           apply elem_of_cons in Hin as [[= -> ->] | Hin].
           ++ left. right. split; reflexivity.
           ++ right. split; assumption.
Qed.


(** ** Rehash *)

Lemma slot_lookup t (i : nat) : slot t (Z.of_nat i) = m_buckets t !! i.
Proof. unfold slot. destruct (Z.ltb_spec (Z.of_nat i) 0); [lia |]. rewrite Nat2Z.id. reflexivity. Qed.

Lemma holds_elem t k v : holds t k v <-> k <> m_empty_key t /\ (k, v) ∈ m_buckets t.
Proof.
  unfold holds. split; intros [Hk Hi]; (split; [exact Hk |]).
  - destruct Hi as [i Hi]. apply list_elem_of_lookup. exists (Z.to_nat i).
    unfold slot in Hi. destruct (i <? 0); [discriminate | exact Hi].
  - apply list_elem_of_lookup in Hi as [i Hi]. exists (Z.of_nat i).
    rewrite slot_lookup. exact Hi.
Qed.

Lemma wf_distinct_keys t : wf t -> distinct_keys (m_empty_key t) (m_buckets t).
Proof.
  intros Hwf i j k v v' Hi Hj Hk. rewrite <- slot_lookup in Hi, Hj.
  pose proof (wf_unique t Hwf _ _ _ _ _ Hi Hj Hk). lia.
Qed.

Lemma size_of_float_load t :
  wf t -> size_of_float (float_div_half (float_of_size (size t))) =
          Done (2 * float_of_size (m_size t)).
Proof.
  intros Hwf. pose proof (wf_load t Hwf). pose proof (wf_bucket_count_bound t Hwf).
  unfold size_of_float, float_div_half, size, size_t_digits.
  destruct (Z.ltb_spec (2 * float_of_size (m_size t)) (2 ^ 64)); [reflexivity | lia].
Qed.

Lemma rehash_target_range t count : wf t -> 8 <= rehash_target t count.
Proof. intros Hwf. unfold rehash_target, minimum_capacity. lia. Qed.

Lemma rehash_spec (fuel : nat) t count :
  wf t ->
  2 ^ Z.log2_up (rehash_target t count) <= max_size ->
  2 ^ Z.log2_up (rehash_target t count) <= Z.of_nat fuel ->
  exists t', rehash fuel t count = Done t' /\ wf t' /\
    m_empty_key t' = m_empty_key t /\
    bucket_count t' = 2 ^ Z.log2_up (rehash_target t count) /\
    m_size t' = m_size t /\
    (forall k v, holds t' k v <-> holds t k v).
Proof.
  intros Hwf Hfit Hfuel. pose proof max_size_range as Hmax.
  pose proof (rehash_target_range t count Hwf) as Ht8.
  pose proof (log2_up_ge (rehash_target t count) ltac:(lia)) as Hge.
  remember (2 ^ Z.log2_up (rehash_target t count)) as c eqn:Hc.
  assert (Hp : is_pow2 c).
  { exists (Z.log2_up (rehash_target t count)). split; [apply Z.log2_up_nonneg | exact Hc]. }
  unfold rehash, rehash_with. rewrite size_of_float_load by assumption. cbn [bind].
  fold (rehash_target t count).
  rewrite compute_closest_capacity_in_range by lia. cbn [bind]. rewrite <- Hc.
  unfold construct_copy. rewrite construct_pow2 by assumption. cbn [bind].
  destruct (insert_range_no_growth fuel (m_empty_key t) (m_buckets t) (fresh c (m_empty_key t)))
    as (t' & Hrun & Hwf' & He' & Hn' & Hsz' & Hh').
  - apply fresh_wf; [right; exact Hp | exact Hfit].
  - split; rewrite fresh_bucket_count by lia; assumption.
  - reflexivity.
  - apply wf_distinct_keys. exact Hwf.
  - intros k v _ _ (v0 & Hh0). eapply fresh_not_holds. exact Hh0.
  - rewrite fresh_bucket_count by lia. change (m_size (fresh c (m_empty_key t))) with 0.
    change (occ_len (m_empty_key t) (m_buckets t)) with (occupied_count t).
    rewrite <- (wf_size t Hwf). unfold rehash_target in Hge. rewrite Z.add_0_l. lia.
  - rewrite fresh_bucket_count by lia. exact Hfuel.
  - exists t'. rewrite Hrun. split_and!; try assumption; try reflexivity.
    + rewrite Hn'. apply fresh_bucket_count. lia.
    + rewrite Hsz'. change (occ_len (m_empty_key t) (m_buckets t)) with (occupied_count t).
      rewrite <- (wf_size t Hwf). reflexivity.
    + intros k v. rewrite Hh', (holds_elem t). split.
      * intros [Hh0 | Hin]; [exfalso; eapply fresh_not_holds; exact Hh0 | exact Hin].
      * intros Hin. right. exact Hin.
Qed.

(** What a completed [rehash] says about the resources it found. *)
Lemma rehash_done_fits ins t count t' :
  wf t -> rehash_with ins t count = Done t' ->
  2 ^ Z.log2_up (rehash_target t count) <= max_size.
Proof.
  intros Hwf. pose proof max_size_range as Hmax.
  pose proof (rehash_target_range t count Hwf) as Ht8.
  unfold rehash_with. rewrite size_of_float_load by assumption. cbn [bind].
  fold (rehash_target t count).
  destruct (Z_le_gt_dec (rehash_target t count) (2 ^ 63)) as [Hle | Hgt].
  - rewrite compute_closest_capacity_in_range by lia. cbn [bind].
    unfold construct_copy, construct.
    rewrite closest_capacity_of_pow2.
    + cbn [bind]. unfold vector_resize.
      destruct (Z.leb_spec (2 ^ Z.log2_up (rehash_target t count)) max_size); [lia | discriminate].
    + exists (Z.log2_up (rehash_target t count)). split; [apply Z.log2_up_nonneg | reflexivity].
    + apply log2_up_least; lia.
  - unfold compute_closest_capacity, highest_capacity, size_t_digits.
    change (Z.shiftl 1 (64 - 1)) with (2 ^ 63).
    destruct (Z.gtb_spec (rehash_target t count) (2 ^ 63)); [| lia].
    destruct ndebug; cbn [assert_that bind]; [| discriminate].
    unfold construct_copy, construct.
    rewrite closest_capacity_of_pow2 by (try (exists 63; split; [lia | reflexivity]); lia).
    cbn [bind]. unfold vector_resize.
    destruct (Z.leb_spec (2 ^ 63) max_size); [lia | discriminate].
Qed.

Lemma rehash_done (fuel : nat) t count t' :
  wf t -> rehash fuel t count = Done t' ->
  wf t' /\ m_empty_key t' = m_empty_key t /\
  bucket_count t' = 2 ^ Z.log2_up (rehash_target t count) /\
  m_size t' = m_size t /\
  (forall k v, holds t' k v <-> holds t k v).
Proof.
  intros Hwf Hrun. pose proof (rehash_done_fits _ t count t' Hwf Hrun) as Hfit.
  set (F := Nat.max fuel (Z.to_nat (2 ^ Z.log2_up (rehash_target t count)))).
  destruct (rehash_spec F t count Hwf Hfit) as (t'' & Hrun' & Hpost); [lia |].
  assert (Heq : rehash F t count = Done t').
  { unfold rehash. eapply rehash_with_mono; [| exact Hrun]. apply emplace_impl_mono. lia. }
  rewrite Heq in Hrun'. injection Hrun' as <-. exact Hpost.
Qed.


(** ** The growth check *)

Lemma grown_capacity_pow2 t : wf t -> is_pow2 (grown_capacity t).
Proof.
  intros Hwf. unfold grown_capacity.
  destruct (wf_capacity t Hwf) as [-> | (p & Hp & ->)].
  - exists 3. split; [lia | reflexivity].
  - destruct (Z_le_gt_dec p 1) as [Hle | Hgt].
    + exists 3. split; [lia |].
      assert (2 ^ p <= 2 ^ 1) by (apply Z.pow_le_mono_r; lia).
      change (2 ^ 1) with 2 in *. change (2 ^ 3) with 8. lia.
    + exists (p + 2). split; [lia |]. rewrite Z.pow_add_r by lia.
      assert (2 ^ 2 <= 2 ^ p) by (apply Z.pow_le_mono_r; lia).
      change (2 ^ 2) with 4 in *. lia.
Qed.

Lemma grown_capacity_log2 t : wf t -> 2 ^ Z.log2_up (grown_capacity t) = grown_capacity t.
Proof.
  intros Hwf. destruct (grown_capacity_pow2 t Hwf) as (p & Hp & ->).
  rewrite Z.log2_up_pow2 by assumption. reflexivity.
Qed.

Lemma grown_capacity_target t :
  wf t -> rehash_target t (wrap (Z.shiftl (bucket_count t) 2)) = grown_capacity t.
Proof.
  intros Hwf. pose proof (wf_bucket_count_bound t Hwf). pose proof (wf_load t Hwf).
  unfold rehash_target, grown_capacity, minimum_capacity.
  rewrite Z.shiftl_mul_pow2 by lia. change (2 ^ 2) with 4.
  rewrite wrap_small by lia. lia.
Qed.

Lemma float_of_size_succ_pos n : 0 <= n -> 1 <= float_of_size (n + 1).
Proof.
  intros Hn. change 1 with (float_of_size 1) at 1. apply float_of_size_mono. lia.
Qed.

Lemma grown_room t : wf t -> 2 * float_of_size (m_size t + 1) <= grown_capacity t.
Proof.
  intros Hwf. pose proof (wf_size_range t Hwf) as Hr. unfold grown_capacity.
  destruct (wf_capacity t Hwf) as [H0 | Hp].
  - rewrite H0 in *. assert (m_size t = 0) as -> by lia. change (float_of_size (0 + 1)) with 1. lia.
  - assert (Hu : usable t) by (split; [exact Hp | apply (wf_max_size t Hwf)]).
    pose proof (wf_size_lt t Hwf Hu).
    pose proof (float_of_size_le_pow2 (m_size t + 1) (bucket_count t) ltac:(lia) Hp). lia.
Qed.

Lemma check_for_rehash_spec (fuel : nat) t :
  wf t ->
  (needs_growth t = true -> grown_capacity t <= max_size) ->
  (needs_growth t = true -> grown_capacity t <= Z.of_nat fuel) ->
  exists t1, check_for_rehash fuel t = Done t1 /\ wf t1 /\ usable t1 /\
    m_empty_key t1 = m_empty_key t /\ m_size t1 = m_size t /\
    bucket_count t1 = (if needs_growth t then grown_capacity t else bucket_count t) /\
    (needs_growth t = false -> t1 = t) /\
    2 * float_of_size (m_size t + 1) <= bucket_count t1 /\
    (forall k v, holds t1 k v <-> holds t k v).
Proof.
  intros Hwf Hfit Hfuel. unfold check_for_rehash, check_for_rehash_with.
  rewrite growth_check by assumption. fold (needs_growth t).
  destruct (needs_growth t) eqn:Hg.
  - destruct (rehash_spec fuel t (wrap (Z.shiftl (bucket_count t) 2)) Hwf)
      as (t1 & Hrun & Hwf1 & He1 & Hn1 & Hsz1 & Hh1).
    { rewrite grown_capacity_target, grown_capacity_log2 by assumption. auto. }
    { rewrite grown_capacity_target, grown_capacity_log2 by assumption. auto. }
    rewrite grown_capacity_target, grown_capacity_log2 in Hn1 by assumption.
    exists t1. unfold rehash in Hrun. rewrite Hrun. split_and!; try assumption; try reflexivity.
    + split; [rewrite Hn1; apply grown_capacity_pow2; exact Hwf | rewrite Hn1; auto].
    + discriminate.
    + rewrite Hn1. apply grown_room. exact Hwf.
  - unfold needs_growth in Hg. apply Z.ltb_ge in Hg.
    pose proof (wf_size_range t Hwf) as Hr.
    pose proof (float_of_size_succ_pos (m_size t) ltac:(lia)) as H1.
    exists t. split_and!; try assumption; try reflexivity.
    apply wf_usable; [assumption | lia].
Qed.

(** ** [emplace_impl] *)

Lemma present_iff t t' k :
  (forall k' v', holds t' k' v' <-> holds t k' v') -> present t' k <-> present t k.
Proof. intros Hh. unfold present. split; intros [v Hv]; exists v; apply Hh; exact Hv. Qed.

Lemma emplace_impl_spec (fuel : nat) t k v :
  wf t -> k <> m_empty_key t ->
  (needs_growth t = true -> grown_capacity t <= max_size) ->
  bucket_count t < Z.of_nat fuel -> grown_capacity t < Z.of_nat fuel ->
  exists r, emplace_impl fuel t k v = Done r /\ emplace_post t k v r.
Proof.
  intros Hwf Hk Hfit Hfuel1 Hfuel2. pose proof (wf_bucket_count_bound t Hwf) as Hb.
  destruct fuel as [| fuel]; [lia |].
  rewrite emplace_impl_S, assert_key by assumption. cbn [bind].
  destruct (check_for_rehash_spec fuel t Hwf Hfit)
    as (t1 & Hrun & Hwf1 & Hu1 & He1 & Hsz1 & Hn1 & Hsame & Hroom & Hh1); [lia |].
  unfold check_for_rehash in Hrun. rewrite Hrun. cbn [bind].
  assert (Hk1 : k <> m_empty_key t1) by congruence.
  assert (Hf : bucket_count t1 <= Z.of_nat (S fuel)).
  { rewrite Hn1. destruct (needs_growth t); lia. }
  destruct (emplace_loop_wf (S fuel) t1 k v Hwf1 Hu1 Hk1 Hf)
    as [(Hpres & i & v0 & Hi & Hloop) | (Habs & r & Hvac & Hsc & Hloop)].
  - exists (t1, (i, false)). split; [exact Hloop |].
    unfold emplace_post. cbn [fst snd]. split_and!; try assumption.
    + apply (present_iff t t1 k Hh1). exact Hpres.
    + exists v0. exact Hi.
  - exists (placed t1 r k v, (r, true)). split; [exact Hloop |].
    rewrite <- Hsz1 in Hroom.
    destruct (placed_wf t1 r k v Hwf1 Hu1 Hk1 Hvac Hsc Habs Hroom) as [Hwf2 Hsz2].
    pose proof Hvac as (bz & Hbz & _). pose proof (slot_range _ _ _ Hbz) as Hr.
    unfold emplace_post. cbn [fst snd]. split_and!; try assumption.
    + unfold usable. rewrite placed_bucket_count. exact Hu1.
    + rewrite placed_bucket_count. exact Hn1.
    + intros Hp. apply Habs. apply (present_iff t t1 k Hh1). exact Hp.
    + rewrite Hsz2. lia.
    + apply placed_slot_eq. exact Hr.
    + intros k' v'. rewrite placed_holds by assumption. rewrite Hh1. reflexivity.
Qed.

Lemma emplace_impl_done (fuel : nat) t k v r :
  wf t -> k <> m_empty_key t -> emplace_impl fuel t k v = Done r ->
  emplace_post t k v r.
Proof.
  intros Hwf Hk Hrun.
  assert (Hfit : needs_growth t = true -> grown_capacity t <= max_size).
  { intros Hg. destruct fuel as [| fuel]; [discriminate |].
    rewrite emplace_impl_S, assert_key in Hrun by assumption. cbn [bind] in Hrun.
    unfold check_for_rehash_with in Hrun. rewrite growth_check in Hrun by assumption.
    fold (needs_growth t) in Hrun. rewrite Hg in Hrun.
    destruct (rehash_with (emplace_impl fuel) t (wrap (Z.shiftl (bucket_count t) 2)))
      as [t1 | e |] eqn:Hre; cbn [bind] in Hrun; try discriminate.
    apply rehash_done_fits in Hre; [| exact Hwf].
    rewrite grown_capacity_target, grown_capacity_log2 in Hre by assumption. exact Hre. }
  set (F := Nat.max fuel (S (Z.to_nat (Z.max (bucket_count t) (grown_capacity t))))).
  destruct (emplace_impl_spec F t k v Hwf Hk Hfit) as (r' & Hrun' & Hpost); try lia.
  assert (Heq : emplace_impl F t k v = Done r).
  { eapply emplace_impl_mono; [| exact Hrun]. lia. }
  rewrite Heq in Hrun'. injection Hrun' as <-. exact Hpost.
Qed.


(** ** The copy constructor, [clear], [swap], and what completed calls give *)

Lemma insert_range_done (fuel : nat) e : forall es acc acc',
  wf acc -> m_empty_key acc = e -> distinct_keys e es ->
  (forall k v, (k, v) ∈ es -> k <> e -> ~ present acc k) ->
  insert_range (emplace_impl fuel) es e acc = Done acc' ->
  wf acc' /\ m_empty_key acc' = e /\
  (forall k v, holds acc' k v <-> holds acc k v \/ (k <> e /\ (k, v) ∈ es)).
Proof.
  induction es as [| b es IH]; intros acc acc' Hwf He Hd Hnew Hrun.
  { simpl in Hrun. injection Hrun as <-. split_and!; try assumption.
    intros k v. split; [tauto |]. intros [Hh | [_ Hin]]; [exact Hh |].
    apply elem_of_nil in Hin. contradiction. }
  cbn [insert_range] in Hrun. destruct (decide (b.1 = e)) as [Hbe | Hbe].
  - assert (Hkeq : key_equal b.1 e = true) by (apply key_equal_true; exact Hbe).
    rewrite Hkeq in Hrun.
    destruct (IH acc acc' Hwf He (distinct_keys_tail _ _ _ Hd)) as (Hwf' & He' & Hh'); [| exact Hrun |].
    { intros k v Hin. apply (Hnew k v). apply elem_of_cons. right. exact Hin. }
    split_and!; try assumption. intros k v. rewrite Hh'. split.
    + intros [Hh | [Hk Hin]]; [left; exact Hh | right]. split; [exact Hk |].
      apply elem_of_cons. right. exact Hin.
    + intros [Hh | [Hk Hin]]; [left; exact Hh | right]. split; [exact Hk |].
      apply elem_of_cons in Hin as [Heq | Hin]; [subst b; simpl in Hbe; contradiction | exact Hin].
  - assert (Hkeq : key_equal b.1 e = false) by (apply key_equal_false; exact Hbe).
    rewrite Hkeq in Hrun. destruct b as [kb vb]. simpl in Hbe, Hrun.
    destruct (emplace_impl fuel acc kb vb) as [r | err |] eqn:Hins; cbn [bind] in Hrun;
      try discriminate.
    assert (Hkb : kb <> m_empty_key acc) by congruence.
    pose proof (emplace_impl_done fuel acc kb vb r Hwf Hkb Hins) as (Hwf1 & Hu1 & He1 & _ & Hcase).
    destruct (r.2.2).
    + destruct Hcase as (Habs & _ & _ & Hh1).
      destruct (IH r.1 acc' Hwf1 ltac:(congruence) (distinct_keys_tail _ _ _ Hd)) as (Hwf' & He' & Hh');
        [| exact Hrun |].
      { intros k v Hin Hk (v0 & Hh0). apply Hh1 in Hh0. destruct Hh0 as [Hh0 | [-> _]].
        - apply (Hnew k v); [apply elem_of_cons; right; exact Hin | exact Hk | exists v0; exact Hh0].
        - apply (distinct_keys_head e kb vb es v); assumption. }
      split_and!; try assumption. intros k v. rewrite Hh', Hh1. split.
      * intros [[Hh | [-> ->]] | [Hk Hin]].
        -- left. exact Hh.
        -- right. split; [exact Hbe | apply elem_of_cons; left; reflexivity].
        -- right. split; [exact Hk | apply elem_of_cons; right; exact Hin].
      * intros [Hh | [Hk Hin]]; [left; left; exact Hh |].
        apply elem_of_cons in Hin as [[= -> ->] | Hin].
        -- left. right. split; reflexivity.
        -- right. split; assumption.
    + destruct Hcase as (Hpres & _). exfalso.
      apply (Hnew kb vb); [apply elem_of_cons; left; reflexivity | exact Hbe | exact Hpres].
Qed.

Lemma construct_wf bc e t : 0 <= bc -> construct bc e = Done t ->
  wf t /\ m_empty_key t = e /\ m_size t = 0 /\ forall k v, ~ holds t k v.
Proof.
  intros Hbc Hc. destruct (construct_done bc e t Hbc Hc) as (c & -> & Hcap & Hm & _).
  split_and!; try reflexivity.
  - apply fresh_wf; assumption.
  - intros k v. apply fresh_not_holds.
Qed.

Lemma construct_from_done (fuel : nat) other bc t :
  wf other -> 0 <= bc -> construct_from fuel other bc = Done t ->
  wf t /\ m_empty_key t = m_empty_key other /\
  (forall k v, holds t k v <-> holds other k v).
Proof.
  intros Hwf Hbc. unfold construct_from, construct_copy.
  destruct (construct bc (m_empty_key other)) as [t0 | err |] eqn:Hc; cbn [bind];
    try discriminate.
  destruct (construct_wf bc _ t0 Hbc Hc) as (Hwf0 & He0 & _ & Hh0).
  intros Hrun.
  destruct (insert_range_done fuel (m_empty_key other) (m_buckets other) t0 t Hwf0 He0)
    as (Hwf' & He' & Hh'); [| | exact Hrun |].
  - apply wf_distinct_keys. exact Hwf.
  - intros k v _ _ (v0 & Hv0). apply (Hh0 k v0). exact Hv0.
  - split_and!; try assumption. intros k v. rewrite Hh', (holds_elem other). split.
    + intros [Hh | Hin]; [exfalso; apply (Hh0 k v); exact Hh | exact Hin].
    + intros Hin. right. exact Hin.
Qed.

Lemma clear_slot t i b : slot (clear t) i = Some b -> b.1 = m_empty_key t.
Proof.
  unfold slot, clear. simpl. destruct (i <? 0); [discriminate |].
  rewrite list_lookup_fmap. destruct (m_buckets t !! Z.to_nat i) as [x |]; [| discriminate].
  simpl. intros [= <-]. destruct (decide (x.1 = m_empty_key t)) as [He | Hne].
  - assert (key_equal x.1 (m_empty_key t) = true) as -> by (apply key_equal_true; exact He).
    exact He.
  - assert (key_equal x.1 (m_empty_key t) = false) as -> by (apply key_equal_false; exact Hne).
    reflexivity.
Qed.

Lemma filter_none (P : Key * T -> Prop) `{!forall x, Decision (P x)} (l : list (Key * T)) :
  (forall x, x ∈ l -> ~ P x) -> filter P l = [].
Proof.
  induction l as [| a l IH]; intros Hall; [reflexivity |].
  rewrite filter_cons_False by (apply Hall; apply elem_of_cons; left; reflexivity).
  apply IH. intros x Hx. apply Hall. apply elem_of_cons. right. exact Hx.
Qed.

Lemma clear_wf t : wf t -> wf (clear t).
Proof.
  intros Hwf.
  assert (Hn : bucket_count (clear t) = bucket_count t).
  { unfold bucket_count, clear. simpl. rewrite length_map. reflexivity. }
  constructor; rewrite ?Hn.
  - apply (wf_capacity t Hwf).
  - apply (wf_max_size t Hwf).
  - unfold occupied_count. rewrite filter_none; [reflexivity |].
    intros x Hx. apply list_elem_of_lookup in Hx as [i Hi].
    rewrite <- slot_lookup in Hi. apply clear_slot in Hi. intros Hne. apply Hne. exact Hi.
  - pose proof (wf_bucket_count_bound t Hwf). change (0 <= bucket_count t). lia.
  - intros i j k v v' Hi _ Hk. apply clear_slot in Hi. contradiction.
  - intros i k v s Hi Hk. apply clear_slot in Hi. contradiction.
Qed.

Lemma clear_not_holds t k v : ~ holds (clear t) k v.
Proof. intros (Hk & i & Hi). apply clear_slot in Hi. contradiction. Qed.

Lemma swap_fst t t' : (swap t t').1 = t'.
Proof. destruct t'. reflexivity. Qed.

Lemma swap_snd t t' : (swap t t').2 = t.
Proof. destruct t. reflexivity. Qed.

Lemma find_impl_mono (f f' : nat) t k r :
  (f <= f')%nat -> find_impl f t k = Done r -> find_impl f' t k = Done r.
Proof.
  intros Hle. unfold find_impl.
  destruct (assert_that _ _) as [[] | e |]; cbn [bind]; try discriminate.
  apply find_loop_mono. exact Hle.
Qed.

Lemma erase_impl_mono (f f' : nat) t k r :
  (f <= f')%nat -> erase_impl f t k = Done r -> erase_impl f' t k = Done r.
Proof.
  intros Hle. unfold erase_impl.
  destruct (find_impl f t k) as [it | e |] eqn:Hfind; cbn [bind]; try discriminate.
  rewrite (find_impl_mono f f' t k it Hle Hfind). cbn [bind].
  destruct (negb (it =? end_ t)); [| trivial].
  unfold erase_impl_it.
  destruct (erase_loop f t it (probe_next t it)) as [t1 | e |] eqn:Hloop; cbn [bind];
    try discriminate.
  rewrite (erase_loop_mono f f' t it _ t1 Hle Hloop). trivial.
Qed.

Lemma find_loop_no_buckets (fuel : nat) t k idx r :
  bucket_count t = 0 -> find_loop fuel t k idx = Done r -> False.
Proof.
  intros Hn. destruct fuel as [| fuel]; [discriminate |]. simpl.
  assert (Hnil : m_buckets t = []).
  { apply length_zero_iff_nil. unfold bucket_count in Hn. lia. }
  unfold bucket_at. rewrite Hnil. discriminate.
Qed.


Lemma find_impl_no_buckets (fuel : nat) t k r :
  bucket_count t = 0 -> find_impl fuel t k = Done r -> False.
Proof.
  intros Hn. unfold find_impl.
  destruct (assert_that _ _) as [[] | e |]; cbn [bind]; try discriminate.
  apply find_loop_no_buckets. exact Hn.
Qed.

Lemma erase_impl_done (fuel : nat) t k r :
  wf t -> k <> m_empty_key t -> erase_impl fuel t k = Done r -> erase_post_key t k r.
Proof.
  intros Hwf Hk Hrun. pose proof (wf_bucket_count_bound t Hwf) as Hb.
  destruct (Z.eq_dec (bucket_count t) 0) as [H0 | Hnz].
  { exfalso. unfold erase_impl in Hrun.
    destruct (find_impl fuel t k) as [it | e |] eqn:Hfind; cbn [bind] in Hrun; try discriminate.
    eapply find_impl_no_buckets; eassumption. }
  assert (Hu : usable t) by (apply wf_usable; [assumption | lia]).
  set (F := Nat.max fuel (Z.to_nat (bucket_count t))).
  assert (HF : erase_impl F t k = Done r) by (eapply erase_impl_mono; [| exact Hrun]; lia).
  destruct (present_dec t k Hwf Hu Hk) as [Hpres | Habs].
  - destruct (erase_impl_present F t k Hwf Hk Hpres ltac:(lia))
      as (t' & Hrun' & Hwf' & He' & Hn' & Hsz' & Hh').
    rewrite HF in Hrun'. injection Hrun' as ->.
    unfold erase_post_key. cbn [fst snd]. split_and!; try assumption.
    left. split_and!; try assumption. reflexivity.
  - rewrite (erase_impl_absent F t k Hwf ltac:(lia) Hk Habs ltac:(lia)) in HF.
    injection HF as <-. unfold erase_post_key. cbn [fst snd]. split_and!; try assumption;
      try reflexivity.
    right. split_and!; try assumption; reflexivity.
Qed.

Lemma erase_impl_it_done (fuel : nat) t it t' :
  wf t -> occupied t it -> erase_impl_it fuel t it = Done t' ->
  wf t' /\ m_empty_key t' = m_empty_key t /\ bucket_count t' = bucket_count t /\
  m_size t' = m_size t - 1 /\
  (forall k v, holds t' k v <->
     k <> m_empty_key t /\ exists i, i <> it /\ slot t i = Some (k, v)).
Proof.
  intros Hwf Hocc Hrun. pose proof (wf_bucket_count_bound t Hwf) as Hb.
  set (F := Nat.max fuel (Z.to_nat (bucket_count t))).
  destruct (erase_impl_it_wf F t it Hwf Hocc ltac:(lia)) as (t'' & Hrun' & Hpost).
  assert (HF : erase_impl_it F t it = Done t').
  { unfold erase_impl_it in *. eapply erase_loop_mono; [| exact Hrun]. lia. }
  rewrite HF in Hrun'. injection Hrun' as <-. exact Hpost.
Qed.

Lemma reserve_done (fuel : nat) t count t' :
  wf t -> reserve fuel t count = Done t' ->
  wf t' /\ m_empty_key t' = m_empty_key t /\ m_size t' = m_size t /\
  8 <= bucket_count t' /\ is_pow2 (bucket_count t') /\
  (forall k v, holds t' k v <-> holds t k v).
Proof.
  intros Hwf. unfold reserve.
  destruct (size_of_float _) as [c | e |]; cbn [bind]; try discriminate.
  intros Hrun. destruct (rehash_done fuel t c t' Hwf Hrun) as (Hwf' & He' & Hn' & Hsz' & Hh').
  pose proof (rehash_target_range t c Hwf) as H8.
  pose proof (log2_up_ge (rehash_target t c) ltac:(lia)).
  split_and!; try assumption.
  - lia.
  - rewrite Hn'. exists (Z.log2_up (rehash_target t c)).
    split; [apply Z.log2_up_nonneg | reflexivity].
Qed.

Theorem reachable_wf t : reachable t -> wf t.
Proof.
  induction 1 as [bc e t Hbc Hc | fuel other bc t Hother IH Hbc Hc
                 | fuel t k v r Ht IH Hk Hrun | fuel t k v r Ht IH Hk Hrun
                 | fuel t k r Ht IH Hk Hrun | fuel t k r Ht IH Hk Hrun
                 | fuel t it t' Ht IH Hocc Hrun | t Ht IH
                 | fuel t count t' Ht IH Hc Hrun | fuel t count t' Ht IH Hc Hrun
                 | t t' Ht IH Ht' IH'].
  - apply (construct_wf bc e t ltac:(lia) Hc).
  - apply (construct_from_done fuel other bc t IH ltac:(lia) Hc).
  - apply (emplace_impl_done fuel t k v r IH Hk Hrun).
  - apply (emplace_impl_done fuel t k v r IH Hk Hrun).
  - unfold subscript in Hrun.
    destruct (emplace_impl fuel t k T_default) as [r0 | e |] eqn:He; cbn [bind] in Hrun;
      try discriminate.
    injection Hrun as <-. apply (emplace_impl_done fuel t k _ r0 IH Hk He).
  - apply (erase_impl_done fuel t k r IH Hk Hrun).
  - apply (erase_impl_it_done fuel t it t' IH Hocc Hrun).
  - apply clear_wf. exact IH.
  - apply (rehash_done fuel t count t' IH Hrun).
  - apply (reserve_done fuel t count t' IH Hrun).
  - rewrite swap_fst. exact IH'.
Qed.

Lemma survives_reachable k t t' : reachable t -> survives k t t' -> reachable t'.
Proof.
  intros Ht Hs. induction Hs.
  - exact Ht.
  - eapply reach_insert; eassumption.
  - eapply reach_emplace; eassumption.
  - eapply reach_subscript; eassumption.
  - eapply reach_rehash; eassumption.
  - eapply reach_reserve; eassumption.
  - eapply reach_erase; eassumption.
  - eapply reach_erase_it; try eassumption. eexists. split; [eassumption | assumption].
Qed.

Lemma survives_holds k v t t' :
  reachable t -> survives k t t' -> holds t k v -> holds t' k v.
Proof.
  intros Ht Hs Hh. induction Hs as [| fuel t' k' v' r Hs IH Hk' Hrun
      | fuel t' k' v' r Hs IH Hk' Hrun | fuel t' k' r Hs IH Hk' Hrun
      | fuel t' count t'' Hs IH Hc Hrun | fuel t' count t'' Hs IH Hc Hrun
      | fuel t' k' r Hs IH Hk' Hne Hrun | fuel t' it k' v' t'' Hs IH Hit Hk' Hne Hrun].
  - exact Hh.
  - pose proof (reachable_wf t' (survives_reachable k t t' Ht Hs)) as Hwf.
    destruct (emplace_impl_done fuel t' k' v' r Hwf Hk' Hrun) as (_ & _ & _ & _ & Hcase).
    destruct (r.2.2); [destruct Hcase as (_ & _ & _ & Hh') | destruct Hcase as (_ & _ & _ & _ & Hh')];
      apply Hh'; auto.
  - pose proof (reachable_wf t' (survives_reachable k t t' Ht Hs)) as Hwf.
    destruct (emplace_impl_done fuel t' k' v' r Hwf Hk' Hrun) as (_ & _ & _ & _ & Hcase).
    destruct (r.2.2); [destruct Hcase as (_ & _ & _ & Hh') | destruct Hcase as (_ & _ & _ & _ & Hh')];
      apply Hh'; auto.
  - pose proof (reachable_wf t' (survives_reachable k t t' Ht Hs)) as Hwf.
    unfold subscript in Hrun.
    destruct (emplace_impl fuel t' k' T_default) as [r0 | e |] eqn:He; cbn [bind] in Hrun;
      try discriminate.
    injection Hrun as <-. cbn [fst].
    destruct (emplace_impl_done fuel t' k' _ r0 Hwf Hk' He) as (_ & _ & _ & _ & Hcase).
    destruct (r0.2.2); [destruct Hcase as (_ & _ & _ & Hh') | destruct Hcase as (_ & _ & _ & _ & Hh')];
      apply Hh'; auto.
  - pose proof (reachable_wf t' (survives_reachable k t t' Ht Hs)) as Hwf.
    destruct (rehash_done fuel t' count t'' Hwf Hrun) as (_ & _ & _ & _ & Hh'). apply Hh'. auto.
  - pose proof (reachable_wf t' (survives_reachable k t t' Ht Hs)) as Hwf.
    destruct (reserve_done fuel t' count t'' Hwf Hrun) as (_ & _ & _ & _ & _ & Hh'). apply Hh'. auto.
  - pose proof (reachable_wf t' (survives_reachable k t t' Ht Hs)) as Hwf.
    destruct (erase_impl_done fuel t' k' r Hwf Hk' Hrun) as (_ & _ & _ & [Hcase | Hcase]).
    + destruct Hcase as (_ & _ & _ & Hh'). apply Hh'. split; [auto | congruence].
    + destruct Hcase as (_ & _ & ->). auto.
  - pose proof (reachable_wf t' (survives_reachable k t t' Ht Hs)) as Hwf.
    assert (Hocc : occupied t' it) by (exists (k', v'); split; assumption).
    destruct (erase_impl_it_done fuel t' it t'' Hwf Hocc Hrun) as (_ & He' & _ & _ & Hh').
    apply Hh'. destruct IH as (Hk & i & Hi). split; [congruence |].
    exists i. split; [| exact Hi]. intros ->. rewrite Hit in Hi. congruence.
Qed.


Lemma check_for_rehash_done (fuel : nat) t t1 :
  wf t -> check_for_rehash fuel t = Done t1 ->
  wf t1 /\ usable t1 /\ m_empty_key t1 = m_empty_key t /\ m_size t1 = m_size t /\
  bucket_count t1 = (if needs_growth t then grown_capacity t else bucket_count t) /\
  (needs_growth t = false -> t1 = t) /\
  2 * float_of_size (m_size t + 1) <= bucket_count t1 /\
  (forall k v, holds t1 k v <-> holds t k v).
Proof.
  intros Hwf Hrun. pose proof (wf_bucket_count_bound t Hwf) as Hb.
  assert (Hfit : needs_growth t = true -> grown_capacity t <= max_size).
  { intros Hg. unfold check_for_rehash, check_for_rehash_with in Hrun.
    rewrite growth_check in Hrun by assumption. fold (needs_growth t) in Hrun.
    rewrite Hg in Hrun. apply rehash_done_fits in Hrun; [| exact Hwf].
    rewrite grown_capacity_target, grown_capacity_log2 in Hrun by assumption. exact Hrun. }
  set (F := Nat.max fuel (Z.to_nat (grown_capacity t))).
  destruct (check_for_rehash_spec F t Hwf Hfit) as (t1' & Hrun' & Hpost); [lia |].
  assert (Heq : check_for_rehash F t = Done t1).
  { unfold check_for_rehash in *. eapply check_for_rehash_with_mono; [| exact Hrun].
    apply emplace_impl_mono. lia. }
  rewrite Heq in Hrun'. injection Hrun' as <-. exact Hpost.
Qed.

(** ** The claims *)

(** C1. Deletion completeness of backward-shift erase: in a reachable table
    that holds the key [k], [erase(k)] completes (given fuel for one pass
    over the buckets) and reports one erased element; afterwards [find(k)]
    returns [end()], and every other key the table held is found by [find]
    at a bucket that holds the key with its value. *)
Theorem erase_completeness (fuel : nat) t k :
  reachable t -> k <> m_empty_key t -> present t k ->
  bucket_count t <= Z.of_nat fuel ->
  exists t', erase fuel t k = Done (t', 1) /\
    find fuel t' k = Done (end_ t') /\
    forall k' v', k' <> k -> holds t k' v' ->
      exists i, find fuel t' k' = Done i /\ i <> end_ t' /\ slot t' i = Some (k', v') /\
                at_ fuel t' k' = Done v'.
Proof.
  intros Hr Hk Hpres Hfuel. pose proof (reachable_wf t Hr) as Hwf.
  destruct (erase_impl_present fuel t k Hwf Hk Hpres Hfuel)
    as (t' & Hrun & Hwf' & He' & Hn' & Hsz' & Hh').
  assert (Hpos : 0 < bucket_count t).
  { destruct Hpres as (v & _ & i & Hi). pose proof (slot_range _ _ _ Hi). lia. }
  exists t'. split; [exact Hrun |]. split.
  - apply find_impl_absent; try lia; try congruence.
    intros (v & Hv). apply Hh' in Hv. tauto.
  - intros k' v' Hne Hh. assert (Hh2 : holds t' k' v') by (apply Hh'; split; assumption).
    pose proof Hh2 as (Hk' & i & Hi). pose proof (slot_range _ _ _ Hi) as Hir.
    exists i. split_and!.
    + apply (find_impl_present fuel t' k' v' i); try assumption. lia.
    + unfold end_. lia.
    + exact Hi.
    + apply at_impl_holds; try assumption. lia.
Qed.

(** C3. Round trip: once [insert] has placed the pair [(k, v)] in a reachable
    table, [find(k)] returns a bucket holding [(k, v)], at once and after any
    further inserts, rehashes, reserves and erases of other keys. *)
Theorem round_trip (fuel fuel' : nat) t k v r t' :
  reachable t -> k <> m_empty_key t ->
  insert fuel t (k, v) = Done r -> r.2.2 = true ->
  survives k r.1 t' -> bucket_count t' <= Z.of_nat fuel' ->
  slot r.1 r.2.1 = Some (k, v) /\
  exists i, find fuel' t' k = Done i /\ i <> end_ t' /\ slot t' i = Some (k, v).
Proof.
  intros Hr Hk Hrun Hins Hs Hfuel. pose proof (reachable_wf t Hr) as Hwf.
  pose proof (emplace_impl_done fuel t k v r Hwf Hk Hrun) as (Hwf1 & Hu1 & He1 & Hn1 & Hcase).
  rewrite Hins in Hcase. destruct Hcase as (Habs & Hsz & Hslot & Hh).
  split; [exact Hslot |].
  assert (Hr1 : reachable r.1) by (eapply reach_insert; eassumption).
  assert (Hh1 : holds r.1 k v) by (apply Hh; right; split; reflexivity).
  pose proof (survives_holds k v r.1 t' Hr1 Hs Hh1) as (Hk' & i & Hi).
  pose proof (reachable_wf t' (survives_reachable k r.1 t' Hr1 Hs)) as Hwf'.
  pose proof (slot_range _ _ _ Hi) as Hir.
  exists i. split_and!.
  - apply (find_impl_present fuel' t' k v i); assumption.
  - unfold end_. lia.
  - exact Hi.
Qed.

(** C7. Duplicate insert: when a reachable table holds [k] with value [v],
    every call [insert(k, v')] that completes returns [inserted = false] and
    an iterator to the bucket of [k], which still holds [v], and leaves the
    mapping of the table as it was, so that [at(k)] is still [v]; and the
    call does complete when there is fuel for the probe loops and the bucket
    array of a growth, should the check ask for one, can be allocated. *)
Theorem duplicate_insert t k v v' :
  reachable t -> holds t k v ->
  (forall (fuel : nat) r, insert fuel t (k, v') = Done r ->
     r.2.2 = false /\ slot r.1 r.2.1 = Some (k, v) /\
     (forall k' v'', holds r.1 k' v'' <-> holds t k' v'') /\
     (forall fuel' : nat, bucket_count r.1 <= Z.of_nat fuel' -> at_ fuel' r.1 k = Done v)) /\
  (forall fuel : nat,
     Z.max 8 (4 * bucket_count t) <= max_size ->
     Z.max 8 (4 * bucket_count t) < Z.of_nat fuel ->
     exists t' i, insert fuel t (k, v') = Done (t', (i, false))).
Proof.
  intros Hr Hh. pose proof (reachable_wf t Hr) as Hwf.
  pose proof (wf_bucket_count_bound t Hwf) as Hb. pose proof Hh as (Hk & _).
  assert (Hdone : forall (fuel : nat) r, insert fuel t (k, v') = Done r ->
            r.2.2 = false /\ slot r.1 r.2.1 = Some (k, v) /\
            (forall k' v'', holds r.1 k' v'' <-> holds t k' v'') /\
            (forall fuel' : nat, bucket_count r.1 <= Z.of_nat fuel' -> at_ fuel' r.1 k = Done v)).
  { intros fuel r Hrun.
    destruct (emplace_impl_done fuel t k v' r Hwf Hk Hrun) as (Hwf1 & Hu1 & He1 & Hn1 & Hcase).
    destruct (r.2.2).
    { exfalso. destruct Hcase as (Habs & _). apply Habs. exists v. exact Hh. }
    destruct Hcase as (_ & _ & (v0 & Hv0) & _ & Hh').
    assert (v0 = v).
    { apply (holds_functional t k v0 v Hwf); [| exact Hh].
      apply Hh'. split; [congruence | exists r.2.1; exact Hv0]. }
    subst v0. split_and!; try assumption; try reflexivity.
    intros fuel' Hfuel'. apply at_impl_holds; [assumption | apply Hh'; exact Hh | assumption]. }
  split; [exact Hdone |].
  intros fuel Hfit Hfuel.
  destruct (emplace_impl_spec fuel t k v' Hwf Hk) as (r & Hrun & _).
  { intros _. exact Hfit. } { lia. } { unfold grown_capacity. lia. }
  destruct (Hdone fuel r Hrun) as (Hfalse & _).
  destruct r as [t' [i ins]]. cbn [fst snd] in Hfalse. subst ins.
  exists t', i. exact Hrun.
Qed.

Lemma float_of_size_le_double n : 0 <= n -> float_of_size n <= 2 * n.
Proof.
  intros Hn. destruct (Z_lt_le_dec n (2 ^ 24)) as [Hs | Hl].
  - rewrite float_of_size_small by assumption. lia.
  - pose proof (float_of_size_binade n Hl) as [_ Hhi].
    destruct (Z.log2_spec n ltac:(lia)) as [Hlo _].
    rewrite Z.pow_add_r in Hhi by (try apply Z.log2_nonneg; lia).
    change (2 ^ 1) with 2 in Hhi. lia.
Qed.

Lemma pow2_log2_up_lt_double m : 1 <= m -> 2 ^ Z.log2_up m < 2 * m.
Proof.
  intros Hm. destruct (Z.eq_dec m 1) as [-> | Hne]; [reflexivity |].
  destruct (Z.log2_up_spec m ltac:(lia)) as [Hlo _].
  pose proof (Z.log2_up_pos m ltac:(lia)).
  replace (Z.log2_up m) with (Z.pred (Z.log2_up m) + 1) by lia.
  rewrite Z.pow_add_r by lia. change (2 ^ 1) with 2. lia.
Qed.

(** C8. [rehash] and [reserve] preserve the contents: on a reachable table
    both calls complete when the bucket array they ask for can be allocated,
    and whenever they complete the table maps exactly the keys it mapped
    before, to the same values. *)
Theorem rehash_reserve_preserve t count :
  reachable t -> 0 <= count < 2 ^ 64 ->
  (forall fuel t', rehash fuel t count = Done t' ->
     forall k v, holds t' k v <-> holds t k v) /\
  (forall fuel t', reserve fuel t count = Done t' ->
     forall k v, holds t' k v <-> holds t k v) /\
  (forall fuel : nat, 2 * Z.max 8 (Z.max count (bucket_count t)) <= max_size ->
     max_size <= Z.of_nat fuel -> exists t', rehash fuel t count = Done t') /\
  (forall fuel : nat, 2 * Z.max 8 (Z.max (4 * count) (bucket_count t)) <= max_size ->
     max_size <= Z.of_nat fuel -> exists t', reserve fuel t count = Done t').
Proof.
  intros Hr Hc. pose proof (reachable_wf t Hr) as Hwf.
  pose proof (wf_load t Hwf) as Hload. pose proof max_size_range as Hmax.
  split_and!.
  - intros fuel t' Hrun. apply (rehash_done fuel t count t' Hwf Hrun).
  - intros fuel t' Hrun. apply (reserve_done fuel t count t' Hwf Hrun).
  - intros fuel Hfit Hfuel.
    pose proof (rehash_target_range t count Hwf) as H8.
    pose proof (pow2_log2_up_lt_double (rehash_target t count) ltac:(lia)) as Hlt.
    assert (Hle : 2 ^ Z.log2_up (rehash_target t count) <= max_size).
    { unfold rehash_target, minimum_capacity in *. lia. }
    destruct (rehash_spec fuel t count Hwf Hle ltac:(lia)) as (t' & Hrun & _).
    exists t'. exact Hrun.
  - intros fuel Hfit Hfuel. unfold reserve.
    pose proof (float_of_size_le_double count ltac:(lia)) as Hd.
    pose proof (float_of_size_nonneg count ltac:(lia)) as Hnn.
    unfold size_of_float, float_div_half, size_t_digits.
    destruct (Z.ltb_spec (2 * float_of_size count) (2 ^ 64)); [| lia]. cbn [bind].
    pose proof (rehash_target_range t (2 * float_of_size count) Hwf) as H8.
    pose proof (pow2_log2_up_lt_double (rehash_target t (2 * float_of_size count)) ltac:(lia)) as Hlt.
    assert (Hle : 2 ^ Z.log2_up (rehash_target t (2 * float_of_size count)) <= max_size).
    { unfold rehash_target, minimum_capacity in *. lia. }
    destruct (rehash_spec fuel t _ Hwf Hle ltac:(lia)) as (t' & Hrun & _).
    exists t'. exact Hrun.
Qed.

(** The buckets a probe passes are occupied and distinct, so there are no
    more of them than entries. *)
Lemma run_le_occupied_count (d : nat) : forall t s,
  0 <= s < bucket_count t -> Z.of_nat d <= bucket_count t ->
  (forall j, 0 <= j < Z.of_nat d -> occupied t ((s + j) mod bucket_count t)) ->
  Z.of_nat d <= occupied_count t.
Proof.
  induction d as [| d IH]; intros t s Hs Hd Hocc.
  - pose proof (occupied_count_range t). lia.
  - destruct (Hocc 0 ltac:(lia)) as (b & Hb & Hbe).
    rewrite Z.add_0_r, Z.mod_small in Hb by lia.
    set (t' := stored t s (m_empty_key t, b.2)).
    assert (Hn' : bucket_count t' = bucket_count t) by apply stored_bucket_count.
    assert (Hc' : occupied_count t' = occupied_count t - 1).
    { unfold t', stored. rewrite (occupied_count_store t s b _ Hb). unfold occupied_bit.
      cbn [fst]. destruct (decide (b.1 <> m_empty_key t)); [| contradiction].
      destruct (decide (m_empty_key t <> m_empty_key t)); [contradiction | lia]. }
    enough (Z.of_nat d <= occupied_count t') by lia.
    apply (IH t' ((s + 1) mod bucket_count t)).
    + rewrite Hn'. apply Z.mod_pos_bound. lia.
    + lia.
    + intros j Hj. rewrite Hn'. rewrite Zplus_mod_idemp_l.
      replace (s + 1 + j) with (s + (j + 1)) by lia.
      destruct (Hocc (j + 1) ltac:(lia)) as (b' & Hb' & Hbe').
      exists b'. split; [| exact Hbe'].
      unfold t'. rewrite stored_slot_ne; [exact Hb' | lia |].
      intros Heq.
      assert (Hx : (s + (j + 1)) mod bucket_count t = s mod bucket_count t)
        by (rewrite <- Heq; rewrite Z.mod_small by lia; reflexivity).
      assert (Hd0 : (j + 1) mod bucket_count t = 0).
      { replace (j + 1) with (s + (j + 1) - s) by lia.
        rewrite Zminus_mod, Hx, Z.sub_diag. apply Zmod_0_l. }
      rewrite Z.mod_small in Hd0 by lia. lia.
Qed.

Lemma scanned_length t k s r :
  usable t -> 0 <= s < bucket_count t -> 0 <= r < bucket_count t ->
  scanned t k s r -> dist (bucket_count t) r s <= occupied_count t.
Proof.
  intros Hu Hs Hr Hsc. pose proof (usable_pos t Hu) as Hpos.
  assert (Hd : 0 <= dist (bucket_count t) r s < bucket_count t)
    by (apply Z.mod_pos_bound; lia).
  rewrite <- (Z2Nat.id (dist (bucket_count t) r s)) by lia.
  apply (run_le_occupied_count _ t s); [exact Hs | lia |].
  intros j Hj. rewrite Z2Nat.id in Hj by lia.
  assert (Hx : 0 <= (s + j) mod bucket_count t < bucket_count t)
    by (apply Z.mod_pos_bound; lia).
  destruct (Hsc ((s + j) mod bucket_count t) Hx) as (b & Hb & _ & Hbe).
  - unfold dist at 1. rewrite Zminus_mod_idemp_l.
    replace (s + j - s) with j by lia. rewrite Z.mod_small by lia. lia.
  - exists b. split; assumption.
Qed.

(** C9. Probe termination.  Let [t1] be a reachable table with buckets,
    where [find] probes, or the table that the growth check of an insert
    leaves, where [insert] probes.  From the home index of any key other
    than the empty key the probe sequence reaches, after at most [size()]
    steps and so before it has gone round the [bucket_count()] buckets, a
    bucket that is vacant or holds the key, all buckets passed holding other
    keys.  The loops stop there as soon as they have fuel for that many
    steps and one more: at a vacant bucket [find] answers [end()] and
    [insert] places the entry; at the key both return its bucket. *)
Theorem probe_termination t t1 k :
  reachable t -> k <> m_empty_key t ->
  (t1 = t /\ 0 < bucket_count t) \/ (exists fuel0 : nat, check_for_rehash fuel0 t = Done t1) ->
  exists r, 0 <= r < bucket_count t1 /\
    dist (bucket_count t1) r (key_to_idx t1 k) <= size t1 /\
    size t1 < bucket_count t1 /\
    scanned t1 k (key_to_idx t1 k) r /\
    ((vacant t1 r /\
      forall fuel : nat, dist (bucket_count t1) r (key_to_idx t1 k) < Z.of_nat fuel ->
        find_loop fuel t1 k (key_to_idx t1 k) = Done (end_ t1) /\
        forall v, emplace_loop fuel t1 k v (key_to_idx t1 k) = Done (placed t1 r k v, (r, true)))
     \/
     (exists v0, slot t1 r = Some (k, v0) /\
      forall fuel : nat, dist (bucket_count t1) r (key_to_idx t1 k) < Z.of_nat fuel ->
        find_loop fuel t1 k (key_to_idx t1 k) = Done r /\
        forall v, emplace_loop fuel t1 k v (key_to_idx t1 k) = Done (t1, (r, false)))).
Proof.
  intros Hr Hk Ht1. pose proof (reachable_wf t Hr) as Hwf.
  assert (H1 : wf t1 /\ usable t1 /\ m_empty_key t1 = m_empty_key t).
  { destruct Ht1 as [[-> Hpos] | [fuel0 Hrun]].
    - split_and!; [exact Hwf | apply wf_usable; assumption | reflexivity].
    - destruct (check_for_rehash_done fuel0 t t1 Hwf Hrun) as (Hwf1 & Hu1 & He1 & _).
      split_and!; assumption. }
  destruct H1 as (Hwf1 & Hu1 & He1).
  assert (Hk1 : k <> m_empty_key t1) by congruence.
  pose proof (key_to_idx_range t1 k Hu1) as Hs.
  destruct (wf_probe_stop t1 k Hwf1 Hu1 Hk1) as (r & Hrr & Hsc & Hstop).
  pose proof (scanned_length t1 k _ r Hu1 Hs Hrr Hsc) as Hlen.
  rewrite <- (wf_size t1 Hwf1) in Hlen.
  exists r. split; [exact Hrr |]. split; [exact Hlen |].
  split; [apply wf_size_lt; assumption |]. split; [exact Hsc |].
  destruct Hstop as [[Hvac _] | [v0 Hv0]].
  - left. split; [exact Hvac |]. intros fuel Hfuel.
    destruct (find_loop_run fuel t1 k r _ Hu1 Hs Hrr Hsc Hfuel) as [_ Hmiss].
    split; [apply Hmiss; assumption |]. intros v.
    destruct (emplace_loop_run fuel t1 k v r _ Hu1 Hs Hrr Hsc Hfuel) as [_ Hnew].
    apply Hnew. exact Hvac.
  - right. exists v0. split; [exact Hv0 |]. intros fuel Hfuel.
    destruct (find_loop_run fuel t1 k r _ Hu1 Hs Hrr Hsc Hfuel) as [Hfound _].
    split; [apply (Hfound v0 Hv0) |]. intros v.
    destruct (emplace_loop_run fuel t1 k v r _ Hu1 Hs Hrr Hsc Hfuel) as [Hdup _].
    apply (Hdup Hk1 v0 Hv0).
Qed.


(** What holds of the size and the load in every reachable table: the
    counter is exact, the load is at most one half as [check_for_rehash]
    measures it, in single precision, and exactly so up to [2^24] elements. *)
Lemma size_and_load_invariant t :
  reachable t ->
  m_size t = occupied_count t /\
  2 * float_of_size (m_size t) <= bucket_count t /\
  (m_size t <= 2 ^ 24 -> 2 * m_size t <= bucket_count t) /\
  (0 < bucket_count t -> m_size t < bucket_count t).
Proof.
  intros Hr. pose proof (reachable_wf t Hr) as Hwf.
  pose proof (wf_size t Hwf). pose proof (wf_load t Hwf).
  split_and!; try assumption.
  - intros Hs. destruct (Z.eq_dec (m_size t) (2 ^ 24)) as [He | Hne].
    + rewrite He in *. change (float_of_size (2 ^ 24)) with (2 ^ 24) in *. lia.
    + rewrite float_of_size_small in * by lia. lia.
  - intros Hpos. apply wf_size_lt; [assumption | apply wf_usable; assumption].
Qed.

(** The capacity of a reachable table is zero or a power of two; it is at
    least [minimum_capacity()] after [hash_map()], [rehash] and [reserve]. *)
Lemma capacity_invariant t :
  reachable t -> bucket_count t = 0 \/ is_pow2 (bucket_count t).
Proof. intros Hr. apply (wf_capacity t (reachable_wf t Hr)). Qed.

Lemma rehash_capacity (fuel : nat) t count t' :
  reachable t -> rehash fuel t count = Done t' ->
  is_pow2 (bucket_count t') /\ 8 <= bucket_count t'.
Proof.
  intros Hr Hrun. pose proof (reachable_wf t Hr) as Hwf.
  destruct (rehash_done fuel t count t' Hwf Hrun) as (_ & _ & Hn & _).
  pose proof (rehash_target_range t count Hwf) as H8.
  pose proof (log2_up_ge (rehash_target t count) ltac:(lia)).
  split; [| lia]. rewrite Hn. exists (Z.log2_up (rehash_target t count)).
  split; [apply Z.log2_up_nonneg | reflexivity].
Qed.

Lemma construct_default_capacity t :
  construct_default = Done t -> bucket_count t = 8.
Proof.
  unfold construct_default, minimum_capacity. intros Hc.
  destruct (construct_done 8 Key_default t ltac:(lia) Hc) as (c & -> & _ & Hm & _ & Hc8).
  destruct (Hc8 ltac:(lia)) as (Hp & Hge & Hleast).
  rewrite fresh_bucket_count by lia.
  assert (c <= 8) by (apply Hleast; [exists 3; split; [lia | reflexivity] | lia]). lia.
Qed.

(** The order of events in [emplace_impl]: the growth check comes first and
    the probe loop runs on the table it leaves; nothing grows afterwards. *)
Lemma growth_before_placement (fuel : nat) t k v r :
  reachable t -> k <> m_empty_key t -> insert (S fuel) t (k, v) = Done r ->
  exists t1, check_for_rehash fuel t = Done t1 /\
    emplace_loop (S fuel) t1 k v (key_to_idx t1 k) = Done r /\
    bucket_count r.1 = bucket_count t1 /\
    bucket_count t1 =
      (if float_gt_half (float_of_size (wrap (size t + 1))) (float_of_size (bucket_count t))
       then Z.max 8 (4 * bucket_count t) else bucket_count t) /\
    2 * float_of_size (m_size r.1) <= bucket_count r.1.
Proof.
  intros Hr Hk Hrun. pose proof (reachable_wf t Hr) as Hwf.
  pose proof (emplace_impl_done (S fuel) t k v r Hwf Hk Hrun) as (Hwf' & _ & _ & Hn' & _).
  unfold insert in Hrun. cbn [fst snd] in Hrun.
  rewrite emplace_impl_S, assert_key in Hrun by assumption. cbn [bind] in Hrun.
  fold (check_for_rehash fuel t) in Hrun.
  destruct (check_for_rehash fuel t) as [t1 | e |] eqn:Hc; cbn [bind] in Hrun; try discriminate.
  destruct (check_for_rehash_done fuel t t1 Hwf Hc) as (_ & _ & _ & _ & Hn1 & _).
  exists t1. split_and!; try assumption; try reflexivity.
  - rewrite Hn', Hn1. reflexivity.
  - rewrite Hn1, growth_check by assumption. reflexivity.
  - apply (wf_load _ Hwf').
Qed.

Lemma closest_capacity_overflow nd m :
  2 ^ 63 < m ->
  compute_closest_capacity nd m = if nd then Done (2 ^ 63) else Fault AssertFailed.
Proof.
  intros Hm. unfold compute_closest_capacity, highest_capacity, size_t_digits.
  change (Z.shiftl 1 (64 - 1)) with (2 ^ 63).
  destruct (Z.gtb_spec m (2 ^ 63)); [| lia]. destruct nd; reflexivity.
Qed.

(** Probing stays inside the bucket array as soon as there is one. *)
Lemma probe_in_bounds t k idx :
  reachable t -> 0 < bucket_count t -> 0 <= idx < bucket_count t ->
  0 <= key_to_idx t k < bucket_count t /\ 0 <= probe_next t idx < bucket_count t.
Proof.
  intros Hr Hpos Hidx. pose proof (reachable_wf t Hr) as Hwf.
  assert (Hu : usable t) by (apply wf_usable; assumption).
  split; [apply key_to_idx_range; exact Hu |].
  rewrite probe_next_mod by assumption. apply Z.mod_pos_bound. lia.
Qed.

Lemma find_no_buckets (fuel : nat) t k :
  bucket_count t = 0 -> k <> m_empty_key t ->
  find (S fuel) t k = Fault OutOfBounds.
Proof.
  intros Hn Hk. unfold find, find_impl. rewrite assert_key by assumption. cbn [bind].
  assert (Hnil : m_buckets t = []).
  { apply length_zero_iff_nil. unfold bucket_count in Hn. lia. }
  simpl. unfold bucket_at. rewrite Hnil. reflexivity.
Qed.

(** [holds] is what lookups observe: [at(k)] yields [v] exactly when the
    table holds [(k, v)]. *)
Lemma holds_iff_at (fuel : nat) t k v :
  reachable t -> k <> m_empty_key t -> 0 < bucket_count t ->
  bucket_count t <= Z.of_nat fuel ->
  holds t k v <-> at_ fuel t k = Done v.
Proof.
  intros Hr Hk Hpos Hfuel. pose proof (reachable_wf t Hr) as Hwf.
  assert (Hu : usable t) by (apply wf_usable; assumption).
  split.
  - intros Hh. apply at_impl_holds; assumption.
  - intros Hat. destruct (present_dec t k Hwf Hu Hk) as [[v0 Hv0] | Habs].
    + unfold at_ in Hat. rewrite (at_impl_holds fuel t k v0 Hwf Hv0 Hfuel) in Hat.
      injection Hat as <-. exact Hv0.
    + unfold at_ in Hat. rewrite (at_impl_absent fuel t k Hwf Hpos Hk Habs Hfuel) in Hat.
      discriminate.
Qed.

(** *** No probe leaves the bucket array

    [OutOfBounds] is the only account the embedding gives of an access past
    the end of [m_buckets]; on a table with buckets the probe loops never
    produce it, whatever the fuel. *)

Lemma find_loop_in_bounds (fuel : nat) t k : forall idx,
  usable t -> 0 <= idx < bucket_count t ->
  find_loop fuel t k idx <> Fault OutOfBounds.
Proof.
  induction fuel as [| fuel IH]; intros idx Hu Hidx; [discriminate |].
  pose proof (usable_pos t Hu) as Hpos.
  destruct (slot_defined t idx Hidx) as [b Hb]. simpl.
  rewrite (bucket_at_slot _ _ _ Hb). cbn [bind].
  destruct (key_equal b.1 k); [discriminate |].
  destruct (key_equal b.1 (m_empty_key t)); [discriminate |].
  apply IH; [exact Hu |]. rewrite probe_next_mod by assumption.
  apply Z.mod_pos_bound. lia.
Qed.

Lemma emplace_loop_in_bounds (fuel : nat) t k v : forall idx,
  usable t -> 0 <= idx < bucket_count t ->
  emplace_loop fuel t k v idx <> Fault OutOfBounds.
Proof.
  induction fuel as [| fuel IH]; intros idx Hu Hidx; [discriminate |].
  pose proof (usable_pos t Hu) as Hpos.
  destruct (slot_defined t idx Hidx) as [b Hb]. simpl.
  rewrite (bucket_at_slot _ _ _ Hb). cbn [bind].
  destruct (key_equal b.1 (m_empty_key t)).
  { rewrite bucket_store_inside by lia. discriminate. }
  destruct (key_equal b.1 k); [discriminate |].
  apply IH; [exact Hu |]. rewrite probe_next_mod by assumption.
  apply Z.mod_pos_bound. lia.
Qed.

Lemma erase_loop_in_bounds (fuel : nat) : forall t hole idx,
  usable t -> 0 <= hole < bucket_count t -> 0 <= idx < bucket_count t ->
  erase_loop fuel t hole idx <> Fault OutOfBounds.
Proof.
  induction fuel as [| fuel IH]; intros t hole idx Hu Hhole Hidx; [discriminate |].
  pose proof (usable_pos t Hu) as Hpos.
  destruct (slot_defined t idx Hidx) as [b Hb].
  destruct (slot_defined t hole Hhole) as [old Hold]. simpl.
  rewrite (bucket_at_slot _ _ _ Hb). cbn [bind].
  destruct (key_equal b.1 (m_empty_key t)).
  { rewrite (bucket_at_slot _ _ _ Hold). cbn [bind].
    rewrite bucket_store_inside by lia. discriminate. }
  destruct (diff t hole (key_to_idx t b.1) <? diff t idx (key_to_idx t b.1)).
  - rewrite bucket_store_inside by lia. cbn [bind]. fold (stored t hole b).
    apply IH; rewrite ?stored_bucket_count.
    + apply stored_usable. exact Hu.
    + exact Hidx.
    + rewrite probe_next_mod by (try apply stored_usable; rewrite ?stored_bucket_count; assumption).
      rewrite stored_bucket_count. apply Z.mod_pos_bound. lia.
  - apply IH; try assumption. rewrite probe_next_mod by assumption.
    apply Z.mod_pos_bound. lia.
Qed.

Lemma find_in_bounds (fuel : nat) t k :
  reachable t -> 0 < bucket_count t -> find fuel t k <> Fault OutOfBounds.
Proof.
  intros Hr Hpos. pose proof (reachable_wf t Hr) as Hwf.
  assert (Hu : usable t) by (apply wf_usable; assumption).
  unfold find, find_impl. destruct (assert_that _ _) as [[] | e |] eqn:Ha; cbn [bind].
  - apply find_loop_in_bounds; [exact Hu | apply key_to_idx_range; exact Hu].
  - unfold assert_that in Ha. destruct ndebug; [discriminate |].
    destruct (negb _); [discriminate |]. injection Ha as <-. discriminate.
  - discriminate.
Qed.

End table.

(** ** The defects and the witnesses, on the concrete instance *)

Lemma demo_empty8_reachable : reachable (cfg := demo) demo_empty8.
Proof. apply (reach_construct (cfg := demo) 8 0); [lia | reflexivity]. Qed.

Lemma demo_table_reachable : reachable (cfg := demo) demo_table.
Proof.
  pose proof demo_empty8_reachable as H0.
  apply (reach_insert (cfg := demo) 8 demo_empty8 1 10 (demo_one, (1, true))) in H0;
    [| discriminate | reflexivity].
  apply (reach_insert (cfg := demo) 8 demo_one 9 90 (demo_two, (2, true))) in H0;
    [| discriminate | reflexivity].
  apply (reach_insert (cfg := demo) 8 demo_two 17 170 (demo_table, (3, true))) in H0;
    [| discriminate | reflexivity].
  exact H0.
Qed.

(** The scenario of the specification: keys 1, 9 and 17 occupy buckets 1, 2
    and 3; erasing 9 moves 17 into bucket 2; afterwards [find(17)] is bucket
    2, [find(9)] is [end()] and [find(1)] is bucket 1. *)
Example backward_shift_scenario :
  insert (cfg := demo) 8 demo_two (17, 170) = Done (demo_table, (3, true)) /\
  erase (cfg := demo) 8 demo_table 9 = Done (demo_after_erase, 1) /\
  find (cfg := demo) 8 demo_after_erase 17 = Done 2 /\
  find (cfg := demo) 8 demo_after_erase 9 = Done (end_ demo_after_erase) /\
  find (cfg := demo) 8 demo_after_erase 1 = Done 1.
Proof. split_and!; reflexivity. Qed.

Lemma demo_no_buckets_reachable : reachable (cfg := demo) demo_no_buckets.
Proof. apply (reach_construct (cfg := demo) 0 0); [lia | reflexivity]. Qed.

Lemma fill_spec (F : nat) (cap : Z) (n : nat) : forall t,
  reachable (cfg := demo) t -> m_empty_key t = 0 -> bucket_count t = cap ->
  2 * float_of_size (m_size t + Z.of_nat n) <= cap ->
  Z.max 8 (4 * cap) < Z.of_nat F ->
  (forall k, present t k -> Z.of_nat n < k) ->
  exists t', fill F n t = Done t' /\ reachable (cfg := demo) t' /\
    m_empty_key t' = 0 /\ bucket_count t' = cap /\ m_size t' = m_size t + Z.of_nat n /\
    (forall k, present t' k -> present t k \/ 1 <= k <= Z.of_nat n).
Proof.
  induction n as [| n IH]; intros t Hr He Hn Hroom HF Hfresh.
  { exists t. simpl. split_and!; try assumption; try reflexivity; try lia. intros k Hk. left. exact Hk. }
  pose proof (reachable_wf (cfg := demo) t Hr) as Hwf.
  pose proof (wf_size_range (cfg := demo) t Hwf) as Hsz.
  pose proof (wf_bucket_count_bound (cfg := demo) t Hwf) as Hb.
  assert (Hk : Z.of_nat (S n) <> m_empty_key t) by (rewrite He; lia).
  assert (Hg : needs_growth t = false).
  { unfold needs_growth. apply Z.ltb_ge.
    pose proof (float_of_size_mono (m_size t + 1) (m_size t + Z.of_nat (S n)) ltac:(lia)). lia. }
  destruct (emplace_impl_spec (cfg := demo) F t (Z.of_nat (S n)) 0 Hwf Hk) as (r & Hrun & Hpost).
  { rewrite Hg. discriminate. } { lia. } { unfold grown_capacity. lia. }
  destruct Hpost as (Hwf1 & Hu1 & He1 & Hn1 & Hcase). rewrite Hg in Hn1.
  destruct (r.2.2) eqn:Hins.
  2: { exfalso. destruct Hcase as (Hpres & _). apply Hfresh in Hpres. lia. }
  destruct Hcase as (Habs & Hsz1 & Hslot & Hh).
  assert (Hr1 : reachable (cfg := demo) r.1).
  { apply (reach_insert (cfg := demo) F t (Z.of_nat (S n)) 0 r Hr Hk Hrun). }
  destruct (IH r.1 Hr1) as (t' & Hrun' & Hr' & He' & Hn' & Hsz' & Hkeys).
  - congruence.
  - lia.
  - rewrite Hsz1. replace (m_size t + 1 + Z.of_nat n) with (m_size t + Z.of_nat (S n)) by lia.
    exact Hroom.
  - exact HF.
  - intros k (v & Hv). apply Hh in Hv. destruct Hv as [Hv | [-> _]].
    + assert (Z.of_nat (S n) < k) by (apply Hfresh; exists v; exact Hv). lia.
    + lia.
  - exists t'. cbn [fill]. unfold insert in Hrun |- *. cbn [fst snd] in Hrun |- *.
    rewrite Hrun. cbn [bind]. split_and!; try assumption; try lia.
    intros k Hk'. destruct (Hkeys k Hk') as [(v & Hv) | Hrange]; [| right; lia].
    apply Hh in Hv. destruct Hv as [Hv | [-> _]]; [left; exists v; exact Hv | right; lia].
Qed.

Lemma big_table_spec (count : Z) :
  0 <= count <= 2 ^ 24 + 1 ->
  exists t, big_table count = Done t /\ reachable (cfg := demo) t /\
    m_empty_key t = 0 /\ bucket_count t = 2 ^ 25 /\ m_size t = count /\
    (forall k, present t k -> 1 <= k <= count).
Proof.
  intros Hc. unfold big_table.
  assert (Hp : is_pow2 (2 ^ 25)) by (exists 25; split; [lia | reflexivity]).
  rewrite (construct_pow2 (cfg := demo) (2 ^ 25) 0 Hp) by (simpl; lia). cbn [bind].
  assert (Hr0 : reachable (cfg := demo) (fresh (cfg := demo) (2 ^ 25) 0)).
  { apply (reach_construct (cfg := demo) (2 ^ 25) 0); [lia |].
    apply (construct_pow2 (cfg := demo)); [exact Hp | simpl; lia]. }
  destruct (fill_spec big_fuel (2 ^ 25) (Z.to_nat count) _ Hr0) as (t & Hrun & Hr & He & Hn & Hsz & Hkeys).
  - reflexivity.
  - apply (fresh_bucket_count (cfg := demo)). lia.
  - change (m_size (fresh (cfg := demo) (2 ^ 25) 0)) with 0.
    rewrite Z.add_0_l, Z2Nat.id by lia.
    pose proof (float_of_size_mono count (2 ^ 24 + 1) ltac:(lia)) as Hm.
    change (float_of_size (2 ^ 24 + 1)) with (2 ^ 24) in Hm. lia.
  - unfold big_fuel. rewrite Z2Nat.id by lia. lia.
  - intros k (v & Hv). exfalso. eapply (fresh_not_holds). exact Hv.
  - exists t. split_and!; try assumption.
    + rewrite Hsz. change (m_size (fresh (cfg := demo) (2 ^ 25) 0)) with 0. lia.
    + intros k Hk. destruct (Hkeys k Hk) as [(v & Hv) | Hrange]; [| lia].
      exfalso. eapply (fresh_not_holds). exact Hv.
Qed.

Lemma not_pow2_zero : ~ is_pow2 0.
Proof. intros Hp. apply is_pow2_pos in Hp. lia. Qed.

(** C2. The size counter is exact, but the load is not capped at one half:
    [hash_map(1 << 25)] followed by [2^24 + 1] inserts of distinct keys is a
    table of [2^25] buckets holding [2^24 + 1] elements, because the test of
    [check_for_rehash] compares in single precision, where [2^24 + 1] is
    [2^24]. *)
Theorem load_factor_exceeded :
  exists t, big_table (2 ^ 24 + 1) = Done t /\ reachable (cfg := demo) t /\
    m_size t = occupied_count (cfg := demo) t /\
    m_size t = 2 ^ 24 + 1 /\ bucket_count t = 2 ^ 25 /\
    bucket_count t < 2 * m_size t.
Proof.
  destruct (big_table_spec (2 ^ 24 + 1) ltac:(lia)) as (t & Hrun & Hr & _ & Hn & Hsz & _).
  exists t. split_and!.
  - exact Hrun.
  - exact Hr.
  - apply (size_and_load_invariant (cfg := demo) t Hr).
  - exact Hsz.
  - exact Hn.
  - rewrite Hn, Hsz. lia.
Qed.

(** C6. The growth check precedes the probe loop, but it does not fire on
    every insert that takes the size above half the capacity: in a table of
    [2^25] buckets holding [2^24] elements, [size() + 1] exceeds
    [bucket_count() * 0.5], [check_for_rehash] leaves the table as it is, and
    the insert of a new key completes in the same [2^25] buckets, with a load
    above one half. *)
Theorem growth_check_misses :
  exists t r, big_table (2 ^ 24) = Done t /\ reachable (cfg := demo) t /\
    bucket_count t < 2 * (size t + 1) /\
    check_for_rehash (cfg := demo) big_fuel t = Done t /\
    insert (cfg := demo) big_fuel t (2 ^ 24 + 1, 0) = Done r /\ r.2.2 = true /\
    bucket_count r.1 = bucket_count t /\
    bucket_count r.1 < 2 * size r.1.
Proof.
  destruct (big_table_spec (2 ^ 24) ltac:(lia)) as (t & Hrun & Hr & He & Hn & Hsz & Hkeys).
  pose proof (reachable_wf (cfg := demo) t Hr) as Hwf.
  assert (Hg : needs_growth t = false).
  { unfold needs_growth. rewrite Hn, Hsz. reflexivity. }
  assert (Hk : 2 ^ 24 + 1 <> m_empty_key t) by (rewrite He; lia).
  assert (HF : Z.of_nat big_fuel = 2 ^ 28) by (unfold big_fuel; apply Z2Nat.id; lia).
  destruct (emplace_impl_spec (cfg := demo) big_fuel t (2 ^ 24 + 1) 0 Hwf Hk)
    as (r & Hins & Hpost).
  { rewrite Hg. discriminate. } { lia. } { unfold grown_capacity. lia. }
  destruct Hpost as (_ & _ & _ & Hn1 & Hcase). rewrite Hg in Hn1.
  destruct (r.2.2) eqn:Hb.
  2: { exfalso. destruct Hcase as (Hpres & _). apply Hkeys in Hpres. lia. }
  destruct Hcase as (_ & Hsz1 & _).
  exists t, r. unfold size. split_and!.
  - exact Hrun.
  - exact Hr.
  - rewrite Hn, Hsz. lia.
  - apply (check_for_rehash_no_growth (cfg := demo)); [exact Hwf |].
    rewrite Hn, Hsz. change (float_of_size (2 ^ 24 + 1)) with (2 ^ 24). lia.
  - exact Hins.
  - exact Hb.
  - exact Hn1.
  - rewrite Hn1, Hn, Hsz1, Hsz. lia.
Qed.

(** C4. The constructor rounds the requested bucket count up to a power of
    two but does not raise it to [minimum_capacity()]: [hash_map(0)] has no
    bucket at all and [hash_map(3)] has four. *)
Theorem constructor_ignores_minimum_capacity :
  construct_count (cfg := demo) 0 = Done demo_no_buckets /\
  bucket_count demo_no_buckets = 0 /\ ~ is_pow2 (bucket_count demo_no_buckets) /\
  reachable (cfg := demo) demo_no_buckets /\
  exists t, construct_count (cfg := demo) 3 = Done t /\ reachable (cfg := demo) t /\
            bucket_count t = 4 /\ bucket_count t < minimum_capacity.
Proof.
  split_and!; try reflexivity.
  - exact not_pow2_zero.
  - exact demo_no_buckets_reachable.
  - eexists. split; [reflexivity |]. split; [| split; reflexivity].
    apply (reach_construct (cfg := demo) 3 0); [lia | reflexivity].
Qed.

(** C5. [compute_closest_capacity(0)] is [0], which is no power of two: the
    decrement wraps around and the increment wraps back.  (Beyond [2^63] the
    call stops at the assertion, unless assertions are compiled out, in which
    case it returns [2^63].) *)
Theorem closest_capacity_of_zero :
  compute_closest_capacity false 0 = Done 0 /\
  compute_closest_capacity true 0 = Done 0 /\
  ~ is_pow2 0 /\
  compute_closest_capacity false (2 ^ 63 + 1) = Fault AssertFailed /\
  compute_closest_capacity true (2 ^ 63 + 1) = Done (2 ^ 63).
Proof. split_and!; try reflexivity. exact not_pow2_zero. Qed.

(** C10. On the table of [hash_map(0)] the first bucket access of [find],
    [count] and [erase] is out of bounds: the mask of [compute_index] is all
    ones, so the home index of key [5] is [5], and there is no bucket. *)
Theorem probe_out_of_bounds_without_buckets :
  construct_count (cfg := demo) 0 = Done demo_no_buckets /\
  bucket_count demo_no_buckets = 0 /\
  key_to_idx (cfg := demo) demo_no_buckets 5 = 5 /\
  find (cfg := demo) 1 demo_no_buckets 5 = Fault OutOfBounds /\
  count (cfg := demo) 1 demo_no_buckets 5 = Fault OutOfBounds /\
  erase (cfg := demo) 1 demo_no_buckets 5 = Fault OutOfBounds.
Proof. split_and!; reflexivity. Qed.

Lemma demo_present_9 : present demo_table 9.
Proof. exists 90. split; [discriminate | exists 2; reflexivity]. Qed.

Lemma erase_completeness_witness :
  reachable (cfg := demo) demo_table /\ 9 <> m_empty_key demo_table /\
  present demo_table 9 /\ bucket_count demo_table <= Z.of_nat 8 /\
  exists t', erase (cfg := demo) 8 demo_table 9 = Done (t', 1) /\
    find (cfg := demo) 8 t' 9 = Done (end_ t') /\
    forall k' v', k' <> 9 -> holds demo_table k' v' ->
      exists i, find (cfg := demo) 8 t' k' = Done i /\ i <> end_ t' /\
                slot t' i = Some (k', v') /\ at_ (cfg := demo) 8 t' k' = Done v'.
Proof.
  split_and!.
  - exact demo_table_reachable.
  - discriminate.
  - exact demo_present_9.
  - discriminate.
  - apply (erase_completeness (cfg := demo) 8 demo_table 9).
    + exact demo_table_reachable.
    + discriminate.
    + exact demo_present_9.
    + discriminate.
Defined.

Lemma demo_survives : survives (cfg := demo) 9 demo_two demo_shifted.
Proof.
  apply (survives_erase (cfg := demo) 9 demo_two 8 demo_table 1 (demo_shifted, 1));
    [| discriminate | discriminate | reflexivity].
  apply (survives_insert (cfg := demo) 9 demo_two 8 demo_two 17 170 (demo_table, (3, true)));
    [| discriminate | reflexivity].
  apply survives_now.
Qed.

Lemma demo_one_reachable : reachable (cfg := demo) demo_one.
Proof.
  apply (reach_insert (cfg := demo) 8 demo_empty8 1 10 (demo_one, (1, true)));
    [exact demo_empty8_reachable | discriminate | reflexivity].
Qed.

Lemma round_trip_witness :
  reachable (cfg := demo) demo_one /\ 9 <> m_empty_key demo_one /\
  insert (cfg := demo) 8 demo_one (9, 90) = Done (demo_two, (2, true)) /\
  survives (cfg := demo) 9 demo_two demo_shifted /\
  bucket_count demo_shifted <= Z.of_nat 8 /\
  slot demo_two 2 = Some (9, 90) /\
  exists i, find (cfg := demo) 8 demo_shifted 9 = Done i /\ i <> end_ demo_shifted /\
            slot demo_shifted i = Some (9, 90).
Proof.
  split_and!.
  - exact demo_one_reachable.
  - discriminate.
  - reflexivity.
  - exact demo_survives.
  - discriminate.
  - apply (round_trip (cfg := demo) 8 8 demo_one 9 90 (demo_two, (2, true)) demo_shifted).
    + exact demo_one_reachable.
    + discriminate.
    + reflexivity.
    + reflexivity.
    + exact demo_survives.
    + discriminate.
  - apply (round_trip (cfg := demo) 8 8 demo_one 9 90 (demo_two, (2, true)) demo_shifted).
    + exact demo_one_reachable.
    + discriminate.
    + reflexivity.
    + reflexivity.
    + exact demo_survives.
    + discriminate.
Defined.

Lemma demo_holds_9 : holds demo_table 9 90.
Proof. split; [discriminate | exists 2; reflexivity]. Qed.

Lemma duplicate_insert_witness :
  reachable (cfg := demo) demo_table /\ holds demo_table 9 90 /\
  (forall (fuel : nat) r, insert (cfg := demo) fuel demo_table (9, 5) = Done r ->
     r.2.2 = false /\ slot r.1 r.2.1 = Some (9, 90) /\
     (forall k' v'', holds r.1 k' v'' <-> holds demo_table k' v'') /\
     (forall fuel' : nat, bucket_count r.1 <= Z.of_nat fuel' ->
        at_ (cfg := demo) fuel' r.1 9 = Done 90)) /\
  (forall fuel : nat,
     Z.max 8 (4 * bucket_count demo_table) <= max_size (Config := demo) ->
     Z.max 8 (4 * bucket_count demo_table) < Z.of_nat fuel ->
     exists t' i, insert (cfg := demo) fuel demo_table (9, 5) = Done (t', (i, false))).
Proof.
  split; [exact demo_table_reachable |]. split; [exact demo_holds_9 |].
  apply (duplicate_insert (cfg := demo) demo_table 9 90 5).
  - exact demo_table_reachable.
  - exact demo_holds_9.
Defined.

Lemma rehash_reserve_preserve_witness :
  reachable (cfg := demo) demo_table /\ 0 <= 16 < 2 ^ 64 /\
  (forall fuel t', rehash (cfg := demo) fuel demo_table 16 = Done t' ->
     forall k v, holds t' k v <-> holds demo_table k v) /\
  (forall fuel t', reserve (cfg := demo) fuel demo_table 16 = Done t' ->
     forall k v, holds t' k v <-> holds demo_table k v) /\
  (forall fuel : nat,
     2 * Z.max 8 (Z.max 16 (bucket_count demo_table)) <= max_size (Config := demo) ->
     max_size (Config := demo) <= Z.of_nat fuel ->
     exists t', rehash (cfg := demo) fuel demo_table 16 = Done t') /\
  (forall fuel : nat,
     2 * Z.max 8 (Z.max (4 * 16) (bucket_count demo_table)) <= max_size (Config := demo) ->
     max_size (Config := demo) <= Z.of_nat fuel ->
     exists t', reserve (cfg := demo) fuel demo_table 16 = Done t').
Proof.
  split; [exact demo_table_reachable |]. split; [lia |].
  apply (rehash_reserve_preserve (cfg := demo) demo_table 16).
  - exact demo_table_reachable.
  - lia.
Defined.

(** * Further properties of the members

    The members of [hash_map] and of the growth policy beyond the
    statements above, and the counting allocator. *)

(** ** The growth policy *)

(** X1. [compute_index] on a capacity that is a power of two is the
    remainder of the hash by the capacity, hence a valid bucket index, and
    applying it twice changes nothing. *)
Theorem compute_index_remainder (hash capacity : Z) :
  is_pow2 capacity -> capacity <= 2 ^ 63 -> 0 <= hash < 2 ^ 64 ->
  compute_index hash capacity = hash mod capacity /\
  0 <= compute_index hash capacity < capacity /\
  compute_index (compute_index hash capacity) capacity = compute_index hash capacity.
Proof.
  intros Hp Hc Hh. pose proof (is_pow2_pos capacity Hp) as Hpos.
  rewrite !compute_index_mod by (try assumption; try lia; apply Z.mod_pos_bound; lia).
  split_and!; try reflexivity.
  - apply Z.mod_pos_bound; assumption.
  - apply Z.mod_pos_bound; assumption.
  - apply Z.mod_mod. lia.
Qed.

(** X2. For a request between [1] and [2^63], [compute_closest_capacity]
    returns the least power of two that is not below the request; it is
    less than twice the request, and it is a fixed point of the function. *)
Theorem closest_capacity_least (nd : bool) (m : Z) :
  1 <= m <= 2 ^ 63 ->
  exists c, compute_closest_capacity nd m = Done c /\
    is_pow2 c /\ m <= c /\ c < 2 * m /\
    (forall c', is_pow2 c' -> m <= c' -> c <= c') /\
    compute_closest_capacity nd c = Done c.
Proof.
  intros Hm. exists (2 ^ Z.log2_up m).
  pose proof (compute_closest_capacity_in_range nd m Hm) as Hrun.
  destruct (closest_capacity_pow2 nd m _ Hm Hrun) as (Hp & Hge & Hle & Hleast).
  split_and!; try assumption.
  - apply pow2_log2_up_lt_double. lia.
  - apply closest_capacity_of_pow2; assumption.
Qed.

Section members.

Context {Key T : Type} {cfg : Config Key T}.
Implicit Types (t : hash_map Key T) (k : Key) (v : T).

(** ** Construction *)

(** X3. [hash_map(bucket_count, empty_key)] for a request of at least one
    bucket: when the rounded capacity fits the vector, the table has exactly
    that many buckets, all holding [(empty_key, T())], its size is zero and
    every lookup answers [end()] after one probe; when it does not fit,
    [resize] throws; and a request above [2^63] stops at the assertion, or at
    [resize] where assertions are compiled out. *)
Theorem constructor_result (bc : Z) (e : Key) :
  1 <= bc < 2 ^ 64 ->
  (bc <= 2 ^ 63 -> 2 ^ Z.log2_up bc <= max_size ->
     exists t, construct bc e = Done t /\ bucket_count t = 2 ^ Z.log2_up bc /\
       size t = 0 /\ m_empty_key t = e /\
       (forall i, 0 <= i < bucket_count t -> slot t i = Some (e, T_default)) /\
       (forall (fuel : nat) k, k <> e -> (0 < fuel)%nat -> find fuel t k = Done (end_ t))) /\
  (bc <= 2 ^ 63 -> max_size < 2 ^ Z.log2_up bc -> construct bc e = Fault LengthError) /\
  (2 ^ 63 < bc ->
     construct bc e = if ndebug then Fault LengthError else Fault AssertFailed).
Proof.
  intros Hbc. pose proof max_size_range as Hmax. split_and!.
  - intros Hle Hfit. pose proof (log2_up_ge bc ltac:(lia)) as Hge.
    remember (2 ^ Z.log2_up bc) as c eqn:Hc.
    assert (Hp : is_pow2 c).
    { exists (Z.log2_up bc). split; [apply Z.log2_up_nonneg | exact Hc]. }
    exists (fresh c e). unfold construct.
    rewrite compute_closest_capacity_in_range by lia. cbn [bind]. rewrite <- Hc.
    unfold vector_resize. destruct (Z.leb_spec c max_size); [| lia]. cbn [bind].
    split; [reflexivity |].
    assert (Hn : bucket_count (fresh c e) = c) by (apply fresh_bucket_count; lia).
    assert (Hall : forall i, 0 <= i < bucket_count (fresh c e) ->
                     slot (fresh c e) i = Some (e, T_default)).
    { intros i Hi. destruct (slot_defined (fresh c e) i Hi) as (b & Hb).
      rewrite Hb. f_equal. eapply fresh_slot. exact Hb. }
    split_and!; try reflexivity; try assumption.
    intros fuel k Hk Hfuel. destruct fuel as [| fuel]; [lia |].
    assert (Hu : usable (fresh c e)) by (split; rewrite Hn; assumption).
    unfold find, find_impl.
    rewrite assert_key by exact Hk. cbn [bind find_loop].
    pose proof (key_to_idx_range (fresh c e) k Hu) as Hidx.
    rewrite (bucket_at_slot _ _ _ (Hall _ Hidx)). cbn [bind fst].
    assert (key_equal e k = false) as -> by (apply key_equal_false; congruence).
    change (m_empty_key (fresh c e)) with e. rewrite key_equal_refl. reflexivity.
  - intros Hle Hfit. unfold construct.
    rewrite compute_closest_capacity_in_range by lia. cbn [bind].
    unfold vector_resize. destruct (Z.leb_spec (2 ^ Z.log2_up bc) max_size); [lia | reflexivity].
  - intros Hgt. unfold construct. rewrite closest_capacity_overflow by exact Hgt.
    destruct ndebug; [| reflexivity]. cbn [bind]. unfold vector_resize.
    destruct (Z.leb_spec (2 ^ 63) max_size); [lia | reflexivity].
Qed.

(** X4. The first insertion into [hash_map(0)] works although the table has
    no bucket to probe: the growth check fires, [rehash(0)] builds the
    minimum of eight buckets, and the entry is placed and found there. *)
Theorem insert_into_no_buckets (fuel : nat) (e : Key) k v :
  k <> e -> 8 <= max_size -> 8 < Z.of_nat fuel ->
  exists t0 r, construct 0 e = Done t0 /\ bucket_count t0 = 0 /\
    insert fuel t0 (k, v) = Done r /\
    bucket_count r.1 = 8 /\ r.2.2 = true /\ size r.1 = 1 /\
    slot r.1 r.2.1 = Some (k, v) /\
    find fuel r.1 k = Done r.2.1.
Proof.
  intros Hk Hmax Hfuel. exists (fresh 0 e).
  assert (Hc : construct 0 e = Done (fresh 0 e)).
  { unfold construct. rewrite closest_capacity_zero. cbn [bind]. unfold vector_resize.
    destruct (Z.leb_spec 0 max_size); [reflexivity | lia]. }
  assert (Hwf : wf (fresh 0 e)) by (apply fresh_wf; [left; reflexivity | lia]).
  assert (Hg : needs_growth (fresh 0 e) = true) by reflexivity.
  assert (Hcap : grown_capacity (fresh 0 e) = 8) by reflexivity.
  destruct (emplace_impl_spec fuel (fresh 0 e) k v Hwf Hk) as (r & Hrun & Hpost).
  - intros _. rewrite Hcap. exact Hmax.
  - change (bucket_count (fresh 0 e)) with 0. lia.
  - rewrite Hcap. exact Hfuel.
  - destruct Hpost as (Hwf' & Hu' & He' & Hn' & Hcase). rewrite Hg, Hcap in Hn'.
    exists r. destruct (r.2.2).
    + destruct Hcase as (_ & Hs & Hslot & _).
      split_and!; try assumption; try reflexivity.
      apply (find_impl_present fuel r.1 k v r.2.1); try assumption; try lia.
      rewrite He'. exact Hk.
    + destruct Hcase as ((v0 & Hh0) & _). exfalso. eapply fresh_not_holds. exact Hh0.
Qed.

(** ** Probing *)

Lemma probe_iter t s (j : nat) :
  usable t -> 0 <= s < bucket_count t ->
  Nat.iter j (probe_next t) s = (s + Z.of_nat j) mod bucket_count t.
Proof.
  intros Hu Hs. induction j as [| j IH].
  - change (Nat.iter 0 (probe_next t) s) with s.
    rewrite Z.add_0_r, Z.mod_small by lia. reflexivity.
  - rewrite Nat.iter_succ, IH.
    pose proof (usable_pos t Hu).
    rewrite probe_next_mod by (try assumption; apply Z.mod_pos_bound; lia).
    rewrite Zplus_mod_idemp_l. f_equal. lia.
Qed.

(** X5. Linear probing goes round the whole table: from any bucket,
    [probe_next] stays inside the table, comes back to the start after
    [bucket_count()] steps, reaches every bucket, never reaches one twice on
    the way, and [diff] counts the steps made. *)
Theorem probe_cycle t s :
  usable t -> 0 <= s < bucket_count t ->
  (forall j : nat, 0 <= Nat.iter j (probe_next t) s < bucket_count t) /\
  Nat.iter (Z.to_nat (bucket_count t)) (probe_next t) s = s /\
  (forall x, 0 <= x < bucket_count t ->
     exists j : nat, Z.of_nat j = dist (bucket_count t) x s /\
       Z.of_nat j < bucket_count t /\ Nat.iter j (probe_next t) s = x) /\
  (forall i j : nat, Z.of_nat i < bucket_count t -> Z.of_nat j < bucket_count t ->
     Nat.iter i (probe_next t) s = Nat.iter j (probe_next t) s -> i = j) /\
  (forall j : nat, Z.of_nat j < bucket_count t ->
     diff t (Nat.iter j (probe_next t) s) s = Z.of_nat j).
Proof.
  intros Hu Hs. pose proof (usable_pos t Hu) as Hpos. split_and!.
  - intros j. rewrite probe_iter by assumption. apply Z.mod_pos_bound. lia.
  - rewrite probe_iter by assumption. rewrite Z2Nat.id by lia.
    rewrite <- (Z.mul_1_l (bucket_count t)) at 1. rewrite Z.mod_add by lia.
    apply Z.mod_small. lia.
  - intros x Hx. exists (Z.to_nat (dist (bucket_count t) x s)).
    assert (0 <= dist (bucket_count t) x s < bucket_count t)
      by (apply Z.mod_pos_bound; lia).
    rewrite probe_iter by assumption. rewrite Z2Nat.id by lia.
    split_and!; [reflexivity | lia |].
    unfold dist. rewrite Zplus_mod_idemp_r.
    replace (s + (x - s)) with x by lia. apply Z.mod_small. lia.
  - intros i j Hi Hj. rewrite !probe_iter by assumption. intros He.
    assert (Hd : (Z.of_nat i - Z.of_nat j) mod bucket_count t = 0).
    { rewrite Zminus_mod.
      assert (Hi' : Z.of_nat i mod bucket_count t = (s + Z.of_nat i - s) mod bucket_count t)
        by (f_equal; lia).
      assert (Hj' : Z.of_nat j mod bucket_count t = (s + Z.of_nat j - s) mod bucket_count t)
        by (f_equal; lia).
      rewrite Hi', Hj'. rewrite (Zminus_mod (s + Z.of_nat i)), (Zminus_mod (s + Z.of_nat j)).
      rewrite He. rewrite Z.sub_diag. apply Zmod_0_l. }
    apply Z.mod_divide in Hd; [| lia]. destruct Hd as [q Hq].
    assert (q = 0) by nia. subst q. lia.
  - intros j Hj. rewrite diff_dist by assumption. rewrite probe_iter by assumption.
    unfold dist. rewrite Zminus_mod_idemp_l.
    replace (s + Z.of_nat j - s) with (Z.of_nat j) by lia. apply Z.mod_small. lia.
Qed.

(** X6. A probe reads at most [size() + 1] buckets: with that many rounds
    of the loop, [find] returns, and so does the probe loop of
    [emplace_impl]. *)
Theorem probe_length (fuel : nat) t k :
  reachable t -> 0 < bucket_count t -> k <> m_empty_key t ->
  size t < Z.of_nat fuel ->
  (exists it, find fuel t k = Done it) /\
  (forall v, exists r, emplace_loop fuel t k v (key_to_idx t k) = Done r).
Proof.
  intros Hr Hpos Hk Hfuel. pose proof (reachable_wf t Hr) as Hwf.
  assert (Hu : usable t) by (apply wf_usable; assumption).
  pose proof (key_to_idx_range t k Hu) as Hs.
  destruct (wf_probe_stop t k Hwf Hu Hk) as (r & Hrr & Hsc & Hstop).
  pose proof (scanned_length t k _ r Hu Hs Hrr Hsc) as Hlen.
  unfold size in Hfuel. rewrite (wf_size t Hwf) in Hfuel.
  destruct (find_loop_run fuel t k r _ Hu Hs Hrr Hsc ltac:(lia)) as [Hfound Hmiss].
  split.
  - unfold find, find_impl. rewrite assert_key by exact Hk. cbn [bind].
    destruct Hstop as [[Hvac _] | [v0 Hv0]].
    + eexists. apply Hmiss; assumption.
    + eexists. apply (Hfound v0). exact Hv0.
  - intros v.
    destruct (emplace_loop_run fuel t k v r _ Hu Hs Hrr Hsc ltac:(lia)) as [Hdup Hnew].
    destruct Hstop as [[Hvac _] | [v0 Hv0]].
    + eexists. apply Hnew. exact Hvac.
    + eexists. apply (Hdup Hk v0). exact Hv0.
Qed.

(** ** Lookup *)

(** X7. [find] returns [end()] exactly when the key is absent, and otherwise
    the index of the bucket that holds the key. *)
Theorem find_result (fuel : nat) t k :
  reachable t -> 0 < bucket_count t -> k <> m_empty_key t ->
  bucket_count t <= Z.of_nat fuel ->
  exists it, find fuel t k = Done it /\
    (it = end_ t <-> ~ present t k) /\
    (it <> end_ t -> 0 <= it < bucket_count t /\ exists v, slot t it = Some (k, v)).
Proof.
  intros Hr Hpos Hk Hfuel. pose proof (reachable_wf t Hr) as Hwf.
  assert (Hu : usable t) by (apply wf_usable; assumption).
  destruct (present_dec t k Hwf Hu Hk) as [[v [_ [i Hi]]] | Habs].
  - exists i. pose proof (slot_range t i _ Hi) as Hrange.
    split_and!.
    + apply (find_impl_present fuel t k v i); assumption.
    + unfold end_. split; [lia |]. intros Habs. exfalso. apply Habs.
      exists v. split; [assumption | exists i; assumption].
    + intros _. split; [assumption | exists v; assumption].
  - exists (end_ t). split_and!.
    + apply find_impl_absent; assumption.
    + tauto.
    + intros Hne. congruence.
Qed.

(** X8. [count] is [1] for a key of the table and [0] for any other. *)
Theorem count_membership (fuel : nat) t k :
  reachable t -> 0 < bucket_count t -> k <> m_empty_key t ->
  bucket_count t <= Z.of_nat fuel ->
  (present t k -> count fuel t k = Done 1) /\
  (~ present t k -> count fuel t k = Done 0).
Proof.
  intros Hr Hpos Hk Hfuel. pose proof (reachable_wf t Hr) as Hwf.
  unfold count, count_impl. split.
  - intros [v [_ [i Hi]]].
    rewrite (find_impl_present fuel t k v i) by assumption. cbn [bind].
    pose proof (slot_range t i _ Hi). unfold end_.
    destruct (i =? bucket_count t) eqn:He; [lia | reflexivity].
  - intros Habs. rewrite find_impl_absent by assumption. cbn [bind].
    rewrite Z.eqb_refl. reflexivity.
Qed.

(** X9. [at] returns the value the table maps the key to, and throws
    [std::out_of_range] exactly when the key is absent. *)
Theorem at_result (fuel : nat) t k :
  reachable t -> 0 < bucket_count t -> k <> m_empty_key t ->
  bucket_count t <= Z.of_nat fuel ->
  (forall v, holds t k v <-> at_ fuel t k = Done v) /\
  (~ present t k <-> at_ fuel t k = Fault KeyNotFound).
Proof.
  intros Hr Hpos Hk Hfuel. pose proof (reachable_wf t Hr) as Hwf.
  assert (Hu : usable t) by (apply wf_usable; assumption).
  unfold at_.
  destruct (present_dec t k Hwf Hu Hk) as [[v0 Hv0] | Habs].
  - rewrite (at_impl_holds fuel t k v0 Hwf Hv0 Hfuel). split.
    + intros v. split.
      * intros Hv. f_equal. apply (holds_functional t k); assumption.
      * intros [= <-]. assumption.
    + split; [| discriminate]. intros Habs. exfalso. apply Habs. exists v0. assumption.
  - rewrite (at_impl_absent fuel t k Hwf Hpos Hk Habs Hfuel). split.
    + intros v. split; [| discriminate]. intros Hv. exfalso. apply Habs. exists v. assumption.
    + tauto.
Qed.

(** ** Insertion *)

(** X10. [insert] of a key the table does not hold reports [true], adds one
    to [size()], puts the pair into the bucket it returns, and changes the
    mapping by this pair only; it completes when the grown table can be
    allocated. *)
Theorem insert_new_key t k v :
  reachable t -> k <> m_empty_key t -> ~ present t k ->
  (forall (fuel : nat) r, insert fuel t (k, v) = Done r ->
     r.2.2 = true /\ size r.1 = size t + 1 /\ slot r.1 r.2.1 = Some (k, v) /\
     (forall k' v', holds r.1 k' v' <-> holds t k' v' \/ (k' = k /\ v' = v))) /\
  (forall fuel : nat,
     Z.max 8 (4 * bucket_count t) <= max_size ->
     Z.max 8 (4 * bucket_count t) < Z.of_nat fuel ->
     exists r, insert fuel t (k, v) = Done r).
Proof.
  intros Hr Hk Habs. pose proof (reachable_wf t Hr) as Hwf. split.
  - intros fuel r Hrun. unfold insert in Hrun. cbn [fst snd] in Hrun.
    pose proof (emplace_impl_done fuel t k v r Hwf Hk Hrun) as (_ & _ & _ & _ & Hpost).
    destruct (r.2.2).
    + destruct Hpost as (_ & Hs & Hslot & Hm). unfold size. split_and!; try assumption.
      reflexivity.
    + destruct Hpost as (Hp & _). contradiction.
  - intros fuel Hmax Hfuel.
    pose proof (wf_bucket_count_bound t Hwf) as Hb.
    destruct (emplace_impl_spec fuel t k v Hwf Hk) as (r & Hrun & _).
    + intros _. exact Hmax.
    + lia.
    + exact Hfuel.
    + exists r. exact Hrun.
Qed.

Lemma half_load_room t :
  wf t -> 2 * (m_size t + 1) <= bucket_count t ->
  2 * float_of_size (m_size t + 1) <= bucket_count t.
Proof.
  intros Hwf Hroom. pose proof (wf_size_range t Hwf) as Hs.
  destruct (wf_capacity t Hwf) as [H0 | (p & Hp & Hn)]; [lia |].
  assert (1 <= p).
  { destruct (Z.eq_dec p 0) as [-> | ?]; [| lia]. change (2 ^ 0) with 1 in Hn. lia. }
  assert (Hpow : 2 ^ p = 2 * 2 ^ (p - 1)).
  { rewrite <- Z.pow_succ_r by lia. f_equal. lia. }
  assert (float_of_size (m_size t + 1) <= 2 ^ (p - 1)).
  { apply float_of_size_le_pow2; [lia |]. exists (p - 1). split; [lia | reflexivity]. }
  lia.
Qed.

(** X11. While [2 * (size() + 1) <= bucket_count()], [insert] does not
    rehash: the bucket count stays, every bucket but the one returned keeps
    its content, so iterators and references stay valid, and an insert that
    finds the key changes nothing at all. *)
Theorem insert_keeps_buckets t k v :
  reachable t -> k <> m_empty_key t -> 2 * (size t + 1) <= bucket_count t ->
  (forall (fuel : nat) r, insert fuel t (k, v) = Done r ->
     bucket_count r.1 = bucket_count t /\
     (forall i, i <> r.2.1 -> slot r.1 i = slot t i) /\
     (r.2.2 = false -> r.1 = t)) /\
  (forall fuel : nat, bucket_count t < Z.of_nat fuel ->
     exists r, insert fuel t (k, v) = Done r).
Proof.
  intros Hr Hk Hroom. pose proof (reachable_wf t Hr) as Hwf. unfold size in Hroom.
  pose proof (half_load_room t Hwf Hroom) as Hload.
  pose proof (wf_size_range t Hwf) as Hs.
  assert (Hu : usable t) by (apply wf_usable; [assumption | lia]).
  assert (Hloop : forall f : nat, bucket_count t <= Z.of_nat f ->
    exists r, emplace_loop f t k v (key_to_idx t k) = Done r /\
      bucket_count r.1 = bucket_count t /\
      (forall i, i <> r.2.1 -> slot r.1 i = slot t i) /\
      (r.2.2 = false -> r.1 = t)).
  { intros f Hf.
    destruct (emplace_loop_wf f t k v Hwf Hu Hk Hf)
      as [(_ & i & v0 & _ & Hrun) | (_ & r & Hvac & _ & Hrun)].
    - eexists. split; [exact Hrun |]. cbn [fst snd]. split_and!; reflexivity || auto.
    - eexists. split; [exact Hrun |]. cbn [fst snd]. split_and!.
      + apply placed_bucket_count.
      + intros i Hi. destruct Hvac as (b & Hb & _).
        pose proof (slot_range t r b Hb). apply placed_slot_ne; [lia | congruence].
      + discriminate. }
  split.
  - intros fuel r Hrun. destruct fuel as [| fuel]; [discriminate |].
    unfold insert in Hrun. cbn [fst snd] in Hrun.
    rewrite emplace_impl_no_growth in Hrun by assumption.
    assert (Hbig : bucket_count t <= Z.of_nat (S fuel + Z.to_nat (bucket_count t))) by lia.
    destruct (Hloop _ Hbig) as (r' & Hrun' & Hpost).
    rewrite (emplace_loop_mono (S fuel) (S fuel + Z.to_nat (bucket_count t)) t k v _ r
               ltac:(lia) Hrun) in Hrun'.
    injection Hrun' as <-. exact Hpost.
  - intros fuel Hfuel. destruct fuel as [| fuel]; [lia |].
    unfold insert. cbn [fst snd]. rewrite emplace_impl_no_growth by assumption.
    destruct (Hloop (S fuel) ltac:(lia)) as (r & Hrun & _). exists r. exact Hrun.
Qed.

(** X12. [insert] grows the table exactly when [check_for_rehash] finds
    [size() + 1] above half the bucket count, as [float] values; the table
    then has [max(8, 4 * bucket_count())] buckets.  The bucket count never
    decreases, stays a power of two, and no entry is lost. *)
Theorem insert_growth (fuel : nat) t k v r :
  reachable t -> k <> m_empty_key t -> insert fuel t (k, v) = Done r ->
  (bucket_count t < 2 * float_of_size (size t + 1) ->
     bucket_count r.1 = Z.max 8 (4 * bucket_count t)) /\
  (2 * float_of_size (size t + 1) <= bucket_count t ->
     bucket_count r.1 = bucket_count t) /\
  bucket_count t <= bucket_count r.1 /\
  is_pow2 (bucket_count r.1) /\
  (forall k' v', holds t k' v' -> holds r.1 k' v').
Proof.
  intros Hr Hk Hrun. pose proof (reachable_wf t Hr) as Hwf.
  unfold insert in Hrun. cbn [fst snd] in Hrun.
  pose proof (emplace_impl_done fuel t k v r Hwf Hk Hrun) as (_ & Hu & _ & Hn & Hpost).
  pose proof (wf_bucket_count_bound t Hwf) as Hb.
  unfold needs_growth, grown_capacity in Hn. unfold size.
  split_and!.
  - intros Hg. rewrite Hn. destruct (Z.ltb_spec (bucket_count t) (2 * float_of_size (m_size t + 1))); [reflexivity | lia].
  - intros Hg. rewrite Hn. destruct (Z.ltb_spec (bucket_count t) (2 * float_of_size (m_size t + 1))); [lia | reflexivity].
  - rewrite Hn. destruct (bucket_count t <? 2 * float_of_size (m_size t + 1)); lia.
  - apply Hu.
  - intros k' v' Hh. destruct (r.2.2).
    + destruct Hpost as (_ & _ & _ & Hm). apply Hm. left. assumption.
    + destruct Hpost as (_ & _ & _ & _ & Hm). apply Hm. assumption.
Qed.

(** X13. When the growth check fires and the grown table exceeds what the
    vector can hold, [insert] ends with the [std::length_error] of
    [resize]. *)
Theorem insert_length_error (fuel : nat) t k v :
  reachable t -> k <> m_empty_key t ->
  bucket_count t < 2 * float_of_size (size t + 1) ->
  max_size < Z.max 8 (4 * bucket_count t) ->
  insert (S fuel) t (k, v) = Fault LengthError.
Proof.
  intros Hr Hk Hg Hfit. pose proof (reachable_wf t Hr) as Hwf.
  pose proof max_size_range as Hmax.
  pose proof (wf_bucket_count_bound t Hwf) as Hb.
  unfold insert. cbn [fst snd]. rewrite emplace_impl_S, assert_key by assumption.
  cbn [bind]. unfold check_for_rehash_with. rewrite growth_check by assumption.
  unfold size in Hg. destruct (Z.ltb_spec (bucket_count t) (2 * float_of_size (m_size t + 1)));
    [| lia].
  unfold rehash_with. rewrite size_of_float_load by assumption. cbn [bind].
  fold (rehash_target t (wrap (Z.shiftl (bucket_count t) 2))).
  rewrite grown_capacity_target by assumption.
  pose proof (grown_capacity_pow2 t Hwf) as Hp. unfold grown_capacity in *.
  assert (Hcap : Z.max 8 (4 * bucket_count t) <= 2 ^ 63).
  { destruct (wf_capacity t Hwf) as [H0 | (p & Hp0 & Hn)]; [lia |].
    assert (p < 62) by (apply (Z.pow_lt_mono_r_iff 2); lia).
    pose proof (Z.pow_le_mono_r 2 p 61 ltac:(lia) ltac:(lia)). lia. }
  rewrite closest_capacity_of_pow2 by assumption. cbn [bind].
  unfold construct_copy, construct.
  rewrite closest_capacity_of_pow2 by assumption. cbn [bind].
  unfold vector_resize.
  destruct (Z.leb_spec (Z.max 8 (4 * bucket_count t)) max_size); [lia | reflexivity].
Qed.

(** X14. [operator[]] refers to the bucket of the key: for a key of the
    table the bucket holds its value and nothing changes; for a new key the
    pair [(key, T())] is inserted first.  The call completes when the grown
    table can be allocated. *)
Theorem subscript_result t k :
  reachable t -> k <> m_empty_key t ->
  (forall (fuel : nat) r, subscript fuel t k = Done r ->
     (forall v, holds t k v ->
        slot r.1 r.2 = Some (k, v) /\ size r.1 = size t /\
        forall k' v', holds r.1 k' v' <-> holds t k' v') /\
     (~ present t k ->
        slot r.1 r.2 = Some (k, T_default) /\ size r.1 = size t + 1 /\
        forall k' v', holds r.1 k' v' <-> holds t k' v' \/ (k' = k /\ v' = T_default))) /\
  (forall fuel : nat,
     Z.max 8 (4 * bucket_count t) <= max_size ->
     Z.max 8 (4 * bucket_count t) < Z.of_nat fuel ->
     exists r, subscript fuel t k = Done r).
Proof.
  intros Hr Hk. pose proof (reachable_wf t Hr) as Hwf. split.
  - intros fuel r Hrun. unfold subscript in Hrun.
    destruct (emplace_impl fuel t k T_default) as [r0 | e |] eqn:Hrun0; cbn [bind] in Hrun;
      try discriminate.
    injection Hrun as <-. cbn [fst snd].
    pose proof (emplace_impl_done fuel t k T_default r0 Hwf Hk Hrun0)
      as (Hwf' & _ & He & _ & Hpost).
    unfold size. destruct (r0.2.2).
    + destruct Hpost as (Habs & Hs & Hslot & Hm). split.
      * intros v Hv. exfalso. apply Habs. exists v. assumption.
      * intros _. split_and!; assumption.
    + destruct Hpost as (Hp & Hs & (v0 & Hslot) & _ & Hm). split.
      * intros v Hv. split_and!; try assumption.
        assert (Hv0 : holds r0.1 k v0).
        { split; [rewrite He; assumption | exists r0.2.1; assumption]. }
        apply Hm in Hv0. rewrite (holds_functional t k v v0 Hwf Hv Hv0). assumption.
      * intros Habs. contradiction.
  - intros fuel Hmax Hfuel. pose proof (wf_bucket_count_bound t Hwf) as Hb.
    destruct (emplace_impl_spec fuel t k T_default Hwf Hk) as (r & Hrun & _).
    + intros _. exact Hmax.
    + lia.
    + exact Hfuel.
    + exists (r.1, r.2.1). unfold subscript. rewrite Hrun. reflexivity.
Qed.

Lemma empty_key_loop (fuel : nat) t v :
  wf t -> usable t -> bucket_count t <= Z.of_nat fuel ->
  exists r, vacant t r /\
    emplace_loop fuel t (m_empty_key t) v (key_to_idx t (m_empty_key t)) =
    Done (placed t r (m_empty_key t) v, (r, true)).
Proof.
  intros Hwf Hu Hfuel. pose proof (usable_pos t Hu) as Hpos.
  destruct (wf_vacant t Hwf Hu) as [z Hz].
  pose proof (key_to_idx_range t (m_empty_key t) Hu) as Hs.
  pose proof Hz as (bz & Hbz & Hez). pose proof (slot_range _ _ _ Hbz) as Hzr.
  destruct (scan_exists t (m_empty_key t) z (Z.to_nat (bucket_count t))
              (key_to_idx t (m_empty_key t)) Hu Hs Hz)
    as (r & Hr & Hsc & Hd & Hstop).
  { dist_lia (bucket_count t). }
  assert (Hvac : vacant t r).
  { destruct Hstop as [Hvac | [v0 Hv0]]; [exact Hvac |]. exists (m_empty_key t, v0).
    split; [exact Hv0 | reflexivity]. }
  exists r. split; [exact Hvac |].
  apply (emplace_loop_run fuel t (m_empty_key t) v r); try assumption.
  dist_lia (bucket_count t).
Qed.

Lemma placed_empty_key t r v :
  wf t -> vacant t r ->
  m_size (placed t r (m_empty_key t) v) = m_size t + 1 /\
  occupied_count (placed t r (m_empty_key t) v) = occupied_count t /\
  vacant (placed t r (m_empty_key t) v) r /\
  (forall k' v', holds (placed t r (m_empty_key t) v) k' v' <-> holds t k' v').
Proof.
  intros Hwf (b & Hb & He). pose proof (slot_range _ _ _ Hb) as Hr.
  pose proof (wf_size_range t Hwf) as Hs. pose proof (wf_bucket_count_bound t Hwf) as Hn.
  split_and!.
  - unfold placed. cbn [m_size set_size]. apply wrap_small. lia.
  - unfold placed.
    change (occupied_count (set_size ?x _)) with (occupied_count x).
    rewrite (occupied_count_store t r b _ Hb). unfold occupied_bit. cbn [fst].
    destruct (decide (b.1 <> m_empty_key t)); [contradiction |].
    destruct (decide (m_empty_key t <> m_empty_key t)); [contradiction | lia].
  - exists (m_empty_key t, v). split; [apply placed_slot_eq; exact Hr | reflexivity].
  - intros k' v'. unfold holds. change (m_empty_key (placed t r (m_empty_key t) v))
      with (m_empty_key t). split.
    + intros (Hk' & i & Hi). split; [exact Hk' |]. exists i.
      destruct (Z.eq_dec r i) as [<- | Hne].
      * rewrite placed_slot_eq in Hi by exact Hr. congruence.
      * rewrite placed_slot_ne in Hi by lia. exact Hi.
    + intros (Hk' & i & Hi). split; [exact Hk' |]. exists i.
      destruct (Z.eq_dec r i) as [<- | Hne].
      * rewrite Hb in Hi. injection Hi as ->. cbn [fst] in He. congruence.
      * rewrite placed_slot_ne by lia. exact Hi.
Qed.

(** X15. The precondition on keys is only asserted.  Where [NDEBUG] is
    defined, [insert] of the empty key passes as an insertion: it reports
    [true] and adds one to [size()], but the bucket it names is still
    vacant and the mapping is unchanged, so [size()] no longer counts the
    occupied buckets. *)
Theorem empty_key_unchecked t v :
  ndebug = true -> reachable t ->
  (forall (fuel : nat) r, insert fuel t (m_empty_key t, v) = Done r ->
     r.2.2 = true /\ vacant r.1 r.2.1 /\
     size r.1 = size t + 1 /\ occupied_count r.1 = occupied_count t /\
     size r.1 <> occupied_count r.1 /\
     (forall k' v', holds r.1 k' v' <-> holds t k' v')) /\
  (forall fuel : nat,
     Z.max 8 (4 * bucket_count t) <= max_size ->
     Z.max 8 (4 * bucket_count t) < Z.of_nat fuel ->
     exists r, insert fuel t (m_empty_key t, v) = Done r).
Proof.
  intros Hnd Hr. pose proof (reachable_wf t Hr) as Hwf.
  assert (Hstep : forall (fuel : nat) t1, check_for_rehash fuel t = Done t1 ->
    forall f : nat, bucket_count t1 <= Z.of_nat f ->
    exists r, vacant t1 r /\
      emplace_loop f t1 (m_empty_key t1) v (key_to_idx t1 (m_empty_key t1)) =
        Done (placed t1 r (m_empty_key t1) v, (r, true)) /\
      m_size (placed t1 r (m_empty_key t1) v) = m_size t + 1 /\
      occupied_count (placed t1 r (m_empty_key t1) v) = occupied_count t /\
      vacant (placed t1 r (m_empty_key t1) v) r /\
      (forall k' v', holds (placed t1 r (m_empty_key t1) v) k' v' <-> holds t k' v')).
  { intros fuel t1 Hc f Hf.
    destruct (check_for_rehash_done fuel t t1 Hwf Hc)
      as (Hwf1 & Hu1 & He1 & Hsz1 & _ & _ & _ & Hh1).
    destruct (empty_key_loop f t1 v Hwf1 Hu1 Hf) as (r & Hvac & Hloop).
    destruct (placed_empty_key t1 r v Hwf1 Hvac) as (Hs & Ho & Hv & Hh).
    exists r. split_and!; try assumption.
    - lia.
    - rewrite Ho, <- (wf_size t1 Hwf1), Hsz1. apply (wf_size t Hwf).
    - intros k' v'. rewrite Hh. apply Hh1. }
  split.
  - intros fuel r Hrun. destruct fuel as [| fuel]; [discriminate |].
    unfold insert in Hrun. cbn [fst snd] in Hrun.
    rewrite emplace_impl_S in Hrun. unfold assert_that in Hrun. rewrite Hnd in Hrun.
    cbn [bind] in Hrun. fold (check_for_rehash fuel t) in Hrun.
    destruct (check_for_rehash fuel t) as [t1 | e |] eqn:Hc; cbn [bind] in Hrun;
      try discriminate.
    assert (He1 : m_empty_key t1 = m_empty_key t)
      by (apply (check_for_rehash_done fuel t t1 Hwf Hc)).
    rewrite <- He1 in Hrun.
    assert (Hbig : bucket_count t1 <= Z.of_nat (S fuel + Z.to_nat (bucket_count t1))) by lia.
    destruct (Hstep fuel t1 Hc _ Hbig) as (r0 & _ & Hloop & Hs & Ho & Hv & Hh).
    rewrite (emplace_loop_mono (S fuel) (S fuel + Z.to_nat (bucket_count t1)) t1 _ v _ r
               ltac:(lia) Hrun) in Hloop.
    injection Hloop as ->. cbn [fst snd]. unfold size.
    pose proof (wf_size t Hwf) as Hsz.
    split_and!; try assumption; try reflexivity. lia.
  - intros fuel Hmax Hfuel. destruct fuel as [| fuel]; [lia |].
    pose proof (wf_bucket_count_bound t Hwf) as Hb.
    destruct (check_for_rehash_spec fuel t Hwf)
      as (t1 & Hc & _ & _ & He1 & _ & Hn1 & _).
    { intros _. exact Hmax. }
    { intros _. unfold grown_capacity. lia. }
    unfold insert. cbn [fst snd]. rewrite emplace_impl_S. unfold assert_that. rewrite Hnd.
    cbn [bind]. fold (check_for_rehash fuel t). rewrite Hc. cbn [bind]. rewrite <- He1.
    destruct (Hstep fuel t1 Hc (S fuel)) as (r0 & _ & Hloop & _).
    { rewrite Hn1. unfold grown_capacity. destruct (needs_growth t); lia. }
    eexists. exact Hloop.
Qed.

(** ** Removal *)

(** X16. [erase(key)] returns [1] for a key of the table and [0] for any
    other, in which case the table is unchanged; [size()] goes down by the
    value returned, the mapping loses this key only, and the bucket count
    stays: erasing gives no memory back. *)
Theorem erase_result t k :
  reachable t -> k <> m_empty_key t ->
  (forall (fuel : nat) r, erase fuel t k = Done r ->
     bucket_count r.1 = bucket_count t /\ m_empty_key r.1 = m_empty_key t /\
     size r.1 = size t - r.2 /\
     (r.2 = 1 /\ present t k \/ r.2 = 0 /\ ~ present t k /\ r.1 = t) /\
     (forall k' v', holds r.1 k' v' <-> holds t k' v' /\ k' <> k)) /\
  (forall fuel : nat, 0 < bucket_count t -> bucket_count t <= Z.of_nat fuel ->
     exists r, erase fuel t k = Done r).
Proof.
  intros Hr Hk. pose proof (reachable_wf t Hr) as Hwf. split.
  - intros fuel r Hrun.
    destruct (erase_impl_done fuel t k r Hwf Hk Hrun) as (_ & He & Hn & Hcases).
    unfold size.
    destruct Hcases as [(H1 & Hp & Hs & Hm) | (H0 & Habs & Heq)].
    + split_and!; try assumption; [lia | left; split; assumption].
    + split_and!; try assumption.
      * rewrite Heq. lia.
      * right. split_and!; assumption.
      * intros k' v'. rewrite Heq. split.
        -- intros Hh. split; [assumption |]. intros ->. apply Habs. exists v'. assumption.
        -- intros [Hh _]. assumption.
  - intros fuel Hpos Hfuel.
    assert (Hu : usable t) by (apply wf_usable; assumption).
    destruct (present_dec t k Hwf Hu Hk) as [Hp | Habs].
    + destruct (erase_impl_present fuel t k Hwf Hk Hp Hfuel) as (t' & Hrun & _).
      exists (t', 1). exact Hrun.
    + exists (t, 0). apply erase_impl_absent; assumption.
Qed.

(** X17. [erase(iterator)] at an occupied bucket removes the key of that
    bucket and no other. *)
Theorem erase_by_iterator (fuel : nat) t it k v :
  reachable t -> slot t it = Some (k, v) -> k <> m_empty_key t ->
  bucket_count t <= Z.of_nat fuel ->
  exists t', erase_it fuel t it = Done t' /\
    size t' = size t - 1 /\ bucket_count t' = bucket_count t /\
    find fuel t' k = Done (end_ t') /\
    (forall k' v', holds t' k' v' <-> holds t k' v' /\ k' <> k).
Proof.
  intros Hr Hslot Hk Hfuel. pose proof (reachable_wf t Hr) as Hwf.
  assert (Hocc : occupied t it) by (exists (k, v); split; assumption).
  destruct (erase_impl_it_wf fuel t it Hwf Hocc Hfuel)
    as (t' & Hrun & Hwf' & He & Hn & Hs & Hm).
  pose proof (slot_range t it _ Hslot) as Hit.
  assert (Hm' : forall k' v', holds t' k' v' <-> holds t k' v' /\ k' <> k).
  { intros k' v'. rewrite Hm. split.
    - intros (Hk' & i & Hi & Hsl). split; [split; [assumption | exists i; assumption] |].
      intros ->. apply Hi. apply (wf_unique t Hwf i it k v' v); assumption.
    - intros ((Hk' & i & Hsl) & Hne). split; [assumption |]. exists i. split; [| assumption].
      intros ->. rewrite Hslot in Hsl. congruence. }
  exists t'. unfold erase_it, size. split_and!; try assumption.
  apply find_impl_absent; try assumption; try lia; try (rewrite He; assumption).
  intros [v' Hv']. apply Hm' in Hv'. destruct Hv' as [_ Hne]. congruence.
Qed.

(** X18. Erasing a key that has just been inserted restores the mapping and
    the size, whether or not the insertion made the table grow. *)
Theorem insert_then_erase (fuel fuel' : nat) t k v r :
  reachable t -> k <> m_empty_key t -> ~ present t k ->
  insert fuel t (k, v) = Done r -> bucket_count r.1 <= Z.of_nat fuel' ->
  exists t', erase fuel' r.1 k = Done (t', 1) /\
    size t' = size t /\
    (forall k' v', holds t' k' v' <-> holds t k' v').
Proof.
  intros Hr Hk Habs Hrun Hfuel. pose proof (reachable_wf t Hr) as Hwf.
  unfold insert in Hrun. cbn [fst snd] in Hrun.
  pose proof (emplace_impl_done fuel t k v r Hwf Hk Hrun) as (Hwf' & _ & He & _ & Hpost).
  destruct (r.2.2).
  - destruct Hpost as (_ & Hs & Hslot & Hm).
    assert (Hp : present r.1 k) by (exists v; apply Hm; right; split; reflexivity).
    destruct (erase_impl_present fuel' r.1 k Hwf' ltac:(rewrite He; assumption) Hp Hfuel)
      as (t' & Hrun' & _ & _ & _ & Hs' & Hm').
    exists t'. unfold erase, size. split_and!; [assumption | lia |].
    intros k' v'. rewrite Hm', Hm. split.
    + intros [[Hh | [-> _]] Hne]; [assumption | congruence].
    + intros Hh. split; [left; assumption |]. intros ->. apply Habs. exists v'. assumption.
  - destruct Hpost as (Hp & _). contradiction.
Qed.

Lemma erase_loop_past_end (fuel : nat) t z : forall idx,
  usable t -> 0 <= idx < bucket_count t -> vacant t z ->
  dist (bucket_count t) z idx < Z.of_nat fuel ->
  erase_loop fuel t (bucket_count t) idx = Fault OutOfBounds.
Proof.
  induction fuel as [| fuel IH]; intros idx Hu Hidx Hz Hfuel.
  { pose proof (usable_pos t Hu). pose proof Hz as (bz & Hbz & _).
    pose proof (slot_range _ _ _ Hbz). dist_lia (bucket_count t). }
  pose proof Hz as (bz & Hbz & Hez). pose proof (slot_range _ _ _ Hbz) as Hzr.
  cbn [erase_loop]. destruct (slot_defined t idx Hidx) as (b & Hb).
  rewrite (bucket_at_slot _ _ _ Hb). cbn [bind].
  destruct (decide (b.1 = m_empty_key t)) as [He | Hne].
  - assert (key_equal b.1 (m_empty_key t) = true) as -> by (apply key_equal_true; exact He).
    rewrite bucket_at_outside by lia. reflexivity.
  - assert (key_equal b.1 (m_empty_key t) = false) as -> by (apply key_equal_false; exact Hne).
    destruct (diff t (bucket_count t) (key_to_idx t b.1) <? diff t idx (key_to_idx t b.1)).
    + unfold bucket_store. rewrite Z.ltb_irrefl. reflexivity.
    + rewrite probe_next_mod by assumption.
      assert (idx <> z) by (intros ->; rewrite Hb in Hbz; congruence).
      apply IH; try assumption.
      * apply Z.mod_pos_bound. lia.
      * dist_lia (bucket_count t).
Qed.

(** X19. [erase(end())] is undefined: whichever way the loop of
    [erase_impl] goes, it comes to read or write [m_buckets[bucket_count()]],
    one past the last bucket, which is the access the embedding records as
    [OutOfBounds] (what a build does with that access is not defined; it may
    well write there, decrement the size and return).  With an iterator
    inside the table no access of the loop leaves the bucket array. *)
Theorem erase_end_out_of_bounds (fuel : nat) t :
  reachable t -> bucket_count t < Z.of_nat fuel ->
  erase_it fuel t (end_ t) = Fault OutOfBounds /\
  (forall it, 0 <= it < bucket_count t -> erase_it fuel t it <> Fault OutOfBounds).
Proof.
  intros Hr Hfuel. pose proof (reachable_wf t Hr) as Hwf.
  pose proof (wf_bucket_count_bound t Hwf) as Hb.
  unfold erase_it, erase_impl_it, end_. split.
  - destruct (Z.eq_dec (bucket_count t) 0) as [H0 | Hne].
    + destruct fuel as [| fuel]; [lia |]. cbn [erase_loop].
      rewrite bucket_at_outside; [reflexivity |].
      unfold probe_next. rewrite H0.
      rewrite compute_index_zero_capacity by apply wrap_range.
      pose proof (wrap_range (0 + 1)). lia.
    + assert (Hu : usable t) by (apply wf_usable; [assumption | lia]).
      destruct (wf_vacant t Hwf Hu) as [z Hz].
      pose proof Hz as (bz & Hbz & _). pose proof (slot_range _ _ _ Hbz) as Hzr.
      assert (Hidx : 0 <= probe_next t (bucket_count t) < bucket_count t).
      { unfold probe_next. apply compute_index_range; [apply Hu | lia | apply wrap_range]. }
      apply (erase_loop_past_end fuel t z); try assumption.
      dist_lia (bucket_count t).
  - intros it Hit.
    assert (Hu : usable t) by (apply wf_usable; [assumption | lia]).
    apply erase_loop_in_bounds; try assumption.
    unfold probe_next. apply compute_index_range; [apply Hu | lia | apply wrap_range].
Qed.

Lemma clear_slot_eq t i b :
  slot t i = Some b -> slot (clear t) i = Some (m_empty_key t, b.2).
Proof.
  unfold slot, clear. simpl. destruct (i <? 0); [discriminate |].
  rewrite list_lookup_fmap. intros ->. simpl. f_equal.
  destruct (decide (b.1 = m_empty_key t)) as [He | Hne].
  - assert (key_equal b.1 (m_empty_key t) = true) as -> by (apply key_equal_true; exact He).
    simpl. destruct b as [k v]. simpl in *. congruence.
  - assert (key_equal b.1 (m_empty_key t) = false) as -> by (apply key_equal_false; exact Hne).
    reflexivity.
Qed.

(** X20. [clear] empties the table and keeps its buckets: the size is zero,
    every key of every bucket is the empty key while the mapped values stay
    where they were, and a lookup afterwards stops at the first bucket it
    reads. *)
Theorem clear_empties t :
  reachable t ->
  size (clear t) = 0 /\ empty (clear t) = true /\
  bucket_count (clear t) = bucket_count t /\
  m_empty_key (clear t) = m_empty_key t /\
  (forall i b, slot t i = Some b -> slot (clear t) i = Some (m_empty_key t, b.2)) /\
  (forall k v, ~ holds (clear t) k v) /\
  (forall (fuel : nat) k, 0 < bucket_count t -> k <> m_empty_key t -> (0 < fuel)%nat ->
     find fuel (clear t) k = Done (end_ (clear t)) /\
     count fuel (clear t) k = Done 0 /\
     at_ fuel (clear t) k = Fault KeyNotFound).
Proof.
  intros Hr. pose proof (reachable_wf t Hr) as Hwf.
  pose proof (clear_wf t Hwf) as Hwf'.
  assert (Hn : bucket_count (clear t) = bucket_count t).
  { unfold bucket_count, clear. simpl. rewrite length_map. reflexivity. }
  split_and!; try reflexivity; try assumption.
  - apply clear_slot_eq.
  - apply clear_not_holds.
  - intros fuel k Hpos Hk Hfuel.
    assert (Hu : usable (clear t)) by (apply wf_usable; [assumption | lia]).
    assert (Hfind : find fuel (clear t) k = Done (end_ (clear t))).
    { destruct fuel as [| fuel]; [lia |].
      unfold find, find_impl. rewrite assert_key by exact Hk. cbn [bind find_loop].
      pose proof (key_to_idx_range (clear t) k Hu) as Hidx.
      destruct (slot_defined (clear t) _ Hidx) as (b & Hb).
      rewrite (bucket_at_slot _ _ _ Hb). cbn [bind].
      pose proof (clear_slot t _ _ Hb) as Hbe.
      assert (key_equal b.1 k = false) as -> by (apply key_equal_false; congruence).
      assert (key_equal b.1 (m_empty_key (clear t)) = true) as ->
        by (apply key_equal_true; exact Hbe).
      reflexivity. }
    unfold find in *. unfold count, count_impl, at_, at_impl. rewrite Hfind. cbn [bind].
    rewrite Z.eqb_refl. split_and!; reflexivity.
Qed.

(** ** Size and iteration *)

Lemma entries_length t : Z.of_nat (length (entries t)) = occupied_count t.
Proof. reflexivity. Qed.

Lemma entries_holds t k v : (k, v) ∈ entries t <-> holds t k v.
Proof.
  unfold entries. rewrite list_elem_of_filter, holds_elem. cbn [fst]. tauto.
Qed.

Lemma distinct_keys_NoDup e (es : list (Key * T)) :
  distinct_keys e es -> NoDup (filter (fun b => b.1 <> e) es).*1.
Proof.
  induction es as [| [k v] es IH]; intros Hd.
  - rewrite filter_nil. constructor.
  - pose proof (IH (distinct_keys_tail _ _ _ Hd)) as IH'.
    destruct (decide (k = e)) as [He | Hne].
    + rewrite filter_cons_False by (cbn [fst]; tauto). exact IH'.
    + rewrite filter_cons_True by (cbn [fst]; exact Hne). cbn [fmap list_fmap fst].
      constructor; [| exact IH'].
      intros Hin. apply list_elem_of_fmap in Hin as ([k' v'] & Hk & Hin). cbn [fst] in Hk.
      subst k'. apply list_elem_of_filter in Hin as [_ Hin].
      apply (distinct_keys_head e k v es v'); assumption.
Qed.

Lemma entries_NoDup t : wf t -> NoDup (entries t).*1.
Proof. intros Hwf. apply distinct_keys_NoDup. apply wf_distinct_keys. exact Hwf. Qed.

Lemma same_mapping_same_size t t' :
  wf t -> wf t' -> (forall k v, holds t' k v <-> holds t k v) -> m_size t' = m_size t.
Proof.
  intros Hwf Hwf' Hm. rewrite (wf_size t Hwf), (wf_size t' Hwf'), <- !entries_length.
  f_equal. apply Permutation_length. apply NoDup_Permutation.
  - eapply NoDup_fmap_1. apply entries_NoDup. exact Hwf'.
  - eapply NoDup_fmap_1. apply entries_NoDup. exact Hwf.
  - intros [k v]. rewrite !entries_holds. apply Hm.
Qed.

(** X21. [empty()] tells whether the table maps no key, and [size()] is the
    number of its entries. *)
Theorem empty_iff_no_entries t :
  reachable t ->
  (empty t = true <-> forall k v, ~ holds t k v) /\
  (empty t = false <-> exists k, present t k) /\
  0 <= size t /\ size t = Z.of_nat (length (entries t)).
Proof.
  intros Hr. pose proof (reachable_wf t Hr) as Hwf.
  pose proof (wf_size t Hwf) as Hs. rewrite <- entries_length in Hs.
  unfold empty, size. rewrite Hs.
  assert (Hnil : entries t = [] <-> forall k v, ~ holds t k v).
  { split.
    - intros He k v Hh. apply entries_holds in Hh. rewrite He in Hh.
      apply elem_of_nil in Hh. exact Hh.
    - intros Hn. destruct (entries t) as [| [k v] l] eqn:He; [reflexivity |].
      exfalso. apply (Hn k v). apply entries_holds. rewrite He. apply elem_of_cons. left.
      reflexivity. }
  split_and!; [| | lia | reflexivity].
  - rewrite <- Hnil. rewrite Z.eqb_eq. destruct (entries t); cbn [length]; split;
      intros; try reflexivity; try discriminate; lia.
  - split.
    + intros He. destruct (entries t) as [| [k v] l] eqn:Hl.
      * cbn [length] in He. discriminate.
      * exists k, v. apply entries_holds. rewrite Hl. apply elem_of_cons. left. reflexivity.
    + intros (k & v & Hh). apply entries_holds in Hh.
      destruct (entries t); [apply elem_of_nil in Hh; contradiction |].
      cbn [length]. apply Z.eqb_neq. lia.
Qed.

Lemma advance_past_empty_spec (fuel : nat) t : forall idx,
  bucket_count t < 2 ^ 64 -> 0 <= idx <= bucket_count t ->
  bucket_count t - idx < Z.of_nat fuel ->
  exists j, advance_past_empty fuel t idx = Done j /\ idx <= j <= bucket_count t /\
    (forall x, idx <= x < j -> vacant t x) /\
    (j < bucket_count t -> occupied t j).
Proof.
  induction fuel as [| fuel IH]; intros idx Hn Hidx Hfuel; [lia |].
  cbn [advance_past_empty].
  destruct (Z.ltb_spec idx (bucket_count t)) as [Hlt | Hge].
  - destruct (slot_defined t idx ltac:(lia)) as (b & Hb).
    rewrite (bucket_at_slot _ _ _ Hb). cbn [bind].
    destruct (decide (b.1 = m_empty_key t)) as [He | Hne].
    + assert (key_equal b.1 (m_empty_key t) = true) as -> by (apply key_equal_true; exact He).
      rewrite wrap_small by lia.
      destruct (IH (idx + 1) Hn ltac:(lia) ltac:(lia)) as (j & Hrun & Hj & Hvac & Hocc).
      exists j. split_and!; try assumption; try lia.
      intros x Hx. destruct (Z.eq_dec x idx) as [-> | Hne].
      * exists b. split; assumption.
      * apply Hvac. lia.
    + assert (key_equal b.1 (m_empty_key t) = false) as -> by (apply key_equal_false; exact Hne).
      exists idx. split_and!; try reflexivity; try lia.
      intros _. exists b. split; assumption.
  - exists idx. split_and!; try reflexivity; try lia.
Qed.

Lemma drop_slot t i b :
  slot t i = Some b ->
  drop (Z.to_nat i) (m_buckets t) = b :: drop (Z.to_nat (i + 1)) (m_buckets t).
Proof.
  intros Hb. pose proof (slot_range t i b Hb) as Hi.
  unfold slot in Hb. destruct (Z.ltb_spec i 0); [lia |].
  replace (Z.to_nat (i + 1)) with (S (Z.to_nat i)) by lia.
  apply drop_S. exact Hb.
Qed.

Lemma entries_skip_vacant t (n : nat) : forall idx,
  0 <= idx -> (forall x, idx <= x < idx + Z.of_nat n -> vacant t x) ->
  filter (fun b => b.1 <> m_empty_key t) (drop (Z.to_nat idx) (m_buckets t)) =
  filter (fun b => b.1 <> m_empty_key t) (drop (Z.to_nat (idx + Z.of_nat n)) (m_buckets t)).
Proof.
  induction n as [| n IH]; intros idx Hidx Hvac.
  - rewrite Z.add_0_r. reflexivity.
  - destruct (Hvac idx ltac:(lia)) as (b & Hb & He).
    rewrite (drop_slot t idx b Hb). rewrite filter_cons_False by tauto.
    rewrite (IH (idx + 1)) by (try lia; intros x Hx; apply Hvac; lia).
    do 2 f_equal. lia.
Qed.

Lemma iterate_spec (fuel : nat) t : forall it,
  bucket_count t < 2 ^ 64 -> 0 <= it <= bucket_count t ->
  (it < bucket_count t -> occupied t it) ->
  bucket_count t - it < Z.of_nat fuel ->
  iterate fuel t it =
  Done (filter (fun b => b.1 <> m_empty_key t) (drop (Z.to_nat it) (m_buckets t))).
Proof.
  induction fuel as [| fuel IH]; intros it Hn Hit Hocc Hfuel; [lia |].
  cbn [iterate]. unfold iter_eq, end_.
  destruct (Z.eqb_spec it (bucket_count t)) as [He | Hne]; cbn [negb].
  - rewrite drop_ge by (unfold bucket_count in He; lia). reflexivity.
  - destruct (Hocc ltac:(lia)) as (b & Hb & Hbe).
    unfold iter_deref. rewrite (bucket_at_slot _ _ _ Hb). cbn [bind].
    unfold iter_next. rewrite wrap_small by lia.
    destruct (advance_past_empty_spec (S fuel) t (it + 1) Hn ltac:(lia) ltac:(lia))
      as (j & Hrun & Hj & Hvac & Hoccj).
    rewrite Hrun. cbn [bind].
    rewrite (IH j Hn ltac:(lia) Hoccj ltac:(lia)). cbn [bind].
    rewrite (drop_slot t it b Hb). rewrite filter_cons_True by exact Hbe.
    do 2 f_equal.
    rewrite (entries_skip_vacant t (Z.to_nat (j - (it + 1))) (it + 1)) by
      (try lia; intros x Hx; apply Hvac; lia).
    do 2 f_equal. lia.
Qed.

(** X22. [begin()] is the first occupied bucket: every bucket before it is
    vacant, and it is [end()] exactly when the table is empty. *)
Theorem begin_first_occupied (fuel : nat) t :
  reachable t -> bucket_count t < Z.of_nat fuel ->
  exists it, begin_ fuel t = Done it /\ 0 <= it <= bucket_count t /\
    (forall x, 0 <= x < it -> vacant t x) /\
    (it <> end_ t -> occupied t it) /\
    (it = end_ t <-> empty t = true).
Proof.
  intros Hr Hfuel. pose proof (reachable_wf t Hr) as Hwf.
  pose proof (wf_bucket_count_bound t Hwf) as Hb.
  destruct (advance_past_empty_spec fuel t 0 ltac:(lia) ltac:(lia) ltac:(lia))
    as (it & Hrun & Hit & Hvac & Hocc).
  exists it. unfold begin_, end_.
  split; [exact Hrun |]. split; [exact Hit |]. split; [exact Hvac |]. split.
  - intros Hne. apply Hocc. lia.
  - unfold empty, size. rewrite (wf_size t Hwf), Z.eqb_eq. split.
    + intros ->. unfold occupied_count.
      change (m_buckets t) with (drop (Z.to_nat 0) (m_buckets t)).
      rewrite (entries_skip_vacant t (Z.to_nat (bucket_count t)) 0) by
        (try lia; intros x Hx; apply Hvac; lia).
      rewrite drop_ge by (unfold bucket_count; lia). reflexivity.
    + intros Hz. destruct (Z.eq_dec it (bucket_count t)) as [He | Hne]; [exact He |].
      exfalso. destruct (Hocc ltac:(lia)) as ([k v] & Hsl & Hk). cbn [fst] in Hk.
      assert (Hin : (k, v) ∈ entries t).
      { apply entries_holds. split; [exact Hk | exists it; exact Hsl]. }
      pose proof (entries_length t) as Hl. rewrite Hz in Hl.
      destruct (entries t); [apply elem_of_nil in Hin; exact Hin | cbn [length] in Hl; lia].
Qed.

(** What a traversal dereferences. *)
Lemma traverse_spec (fuel : nat) t :
  bucket_count t < 2 ^ 64 -> bucket_count t < Z.of_nat fuel ->
  traverse fuel t = Done (entries t).
Proof.
  intros Hn Hfuel. assert (0 <= bucket_count t) by (unfold bucket_count; lia).
  unfold traverse, begin_.
  destruct (advance_past_empty_spec fuel t 0 Hn ltac:(lia) ltac:(lia))
    as (it & Hrun & Hit & Hvac & Hocc).
  rewrite Hrun. cbn [bind]. rewrite iterate_spec by (try assumption; lia).
  f_equal. unfold entries.
  change (m_buckets t) with (drop (Z.to_nat 0) (m_buckets t)) at 2.
  rewrite (entries_skip_vacant t (Z.to_nat it) 0) by
    (try lia; intros x Hx; apply Hvac; lia).
  do 2 f_equal. lia.
Qed.

(** X23. A traversal from [begin()] to [end()] dereferences the occupied
    buckets in index order and nothing else: [size()] entries, no key twice,
    and exactly the pairs of the mapping. *)
Theorem traverse_entries (fuel : nat) t :
  reachable t -> bucket_count t < Z.of_nat fuel ->
  exists es, traverse fuel t = Done es /\
    es = filter (fun b => b.1 <> m_empty_key t) (m_buckets t) /\
    Z.of_nat (length es) = size t /\
    NoDup es.*1 /\
    (forall k v, (k, v) ∈ es <-> holds t k v).
Proof.
  intros Hr Hfuel. pose proof (reachable_wf t Hr) as Hwf.
  pose proof (wf_bucket_count_bound t Hwf) as Hb.
  exists (entries t). split_and!.
  - apply traverse_spec; [lia | exact Hfuel].
  - reflexivity.
  - unfold size. rewrite (wf_size t Hwf). apply entries_length.
  - apply entries_NoDup. exact Hwf.
  - apply entries_holds.
Qed.

Lemma insert_range_skip_vacant ins (other : hash_map Key T) (n : nat) : forall idx acc,
  0 <= idx -> (forall x, idx <= x < idx + Z.of_nat n -> vacant other x) ->
  insert_range ins (drop (Z.to_nat idx) (m_buckets other)) (m_empty_key other) acc =
  insert_range ins (drop (Z.to_nat (idx + Z.of_nat n)) (m_buckets other))
    (m_empty_key other) acc.
Proof.
  induction n as [| n IHn]; intros idx acc Hidx Hv.
  - rewrite Z.add_0_r. reflexivity.
  - destruct (Hv idx ltac:(lia)) as (b & Hb & He).
    rewrite (drop_slot other idx b Hb). cbn [insert_range].
    assert (key_equal b.1 (m_empty_key other) = true) as ->
      by (apply key_equal_true; exact He).
    rewrite (IHn (idx + 1)) by (try lia; intros x Hx; apply Hv; lia).
    do 2 f_equal. lia.
Qed.

Lemma copy_loop_spec ins (fuel : nat) (other : hash_map Key T) : forall it t,
  bucket_count other < 2 ^ 64 -> 0 <= it <= bucket_count other ->
  (it < bucket_count other -> occupied other it) ->
  bucket_count other - it < Z.of_nat fuel ->
  copy_loop ins fuel other it t =
  insert_range ins (drop (Z.to_nat it) (m_buckets other)) (m_empty_key other) t.
Proof.
  induction fuel as [| fuel IH]; intros it t Hn Hit Hocc Hfuel; [lia |].
  cbn [copy_loop]. unfold iter_eq, end_.
  destruct (Z.eqb_spec it (bucket_count other)) as [He | Hne]; cbn [negb].
  - rewrite drop_ge by (unfold bucket_count in He; lia). reflexivity.
  - destruct (Hocc ltac:(lia)) as (b & Hb & Hbe).
    unfold iter_deref. rewrite (bucket_at_slot _ _ _ Hb). cbn [bind].
    rewrite (drop_slot other it b Hb). cbn [insert_range].
    assert (key_equal b.1 (m_empty_key other) = false) as ->
      by (apply key_equal_false; exact Hbe).
    destruct (ins t b.1 b.2) as [r | e |]; cbn [bind]; try reflexivity.
    unfold iter_next. rewrite wrap_small by lia.
    destruct (advance_past_empty_spec (S fuel) other (it + 1) Hn ltac:(lia) ltac:(lia))
      as (j & Hrun & Hj & Hvac & Hoccj).
    rewrite Hrun. cbn [bind].
    rewrite (IH j r.1 Hn ltac:(lia) Hoccj ltac:(lia)).
    clear - Hvac Hj Hit. 
    assert (Hskip : forall (n : nat) idx acc, 0 <= idx ->
      (forall x, idx <= x < idx + Z.of_nat n -> vacant other x) ->
      insert_range ins (drop (Z.to_nat idx) (m_buckets other)) (m_empty_key other) acc =
      insert_range ins (drop (Z.to_nat (idx + Z.of_nat n)) (m_buckets other))
        (m_empty_key other) acc).
    { induction n as [| n IHn]; intros idx acc Hidx Hv.
      - rewrite Z.add_0_r. reflexivity.
      - destruct (Hv idx ltac:(lia)) as (b & Hb & He).
        rewrite (drop_slot other idx b Hb). cbn [insert_range].
        assert (key_equal b.1 (m_empty_key other) = true) as ->
          by (apply key_equal_true; exact He).
        rewrite (IHn (idx + 1)) by (try lia; intros x Hx; apply Hv; lia).
        do 2 f_equal. lia. }
    rewrite (Hskip (Z.to_nat (j - (it + 1))) (it + 1)) by
      (try lia; intros x Hx; apply Hvac; lia).
    do 2 f_equal. lia.
Qed.

(** X24. The loop of the copy constructor, run with the iterator of the
    source table ([cbegin], [operator!=], [operator*], [operator++]), inserts
    the occupied buckets of the source in index order, each once: it is the
    loop [insert_range] over the bucket array, with the same result and the
    same failures. *)
Theorem copy_constructor_iterates
    (ins : hash_map Key T -> Key -> T -> outcome (hash_map Key T * (iterator * bool)))
    (fuel : nat) (other : hash_map Key T) (bc : Z) :
  bucket_count other < 2 ^ 64 -> bucket_count other < Z.of_nat fuel ->
  construct_copy_iter ins fuel other bc = construct_copy ins other bc.
Proof.
  intros Hn Hfuel. unfold construct_copy_iter, construct_copy.
  destruct (construct bc (m_empty_key other)) as [t0 | e |]; cbn [bind]; try reflexivity.
  assert (0 <= bucket_count other) by (unfold bucket_count; lia).
  unfold begin_.
  destruct (advance_past_empty_spec fuel other 0 Hn ltac:(lia) ltac:(lia))
    as (it & Hrun & Hit & Hvac & Hocc).
  rewrite Hrun. cbn [bind].
  rewrite copy_loop_spec by (try assumption; lia).
  change (m_buckets other) with (drop (Z.to_nat 0) (m_buckets other)) at 2.
  rewrite (insert_range_skip_vacant ins other (Z.to_nat it) 0) by
    (try lia; intros x Hx; apply Hvac; lia).
  do 2 f_equal. lia.
Qed.

(** X25. [hash_map(other, bucket_count)] has the mapping, the size and the
    empty key of [other], whatever bucket count is asked for, and a
    traversal of the copy meets exactly the pairs of [other]; asked for at
    least the buckets of [other], it completes with the rounded count. *)
Theorem copy_constructor_result (other : hash_map Key T) (bc : Z) :
  reachable other -> 0 <= bc < 2 ^ 64 ->
  (forall (fuel : nat) t, construct_from fuel other bc = Done t ->
     m_empty_key t = m_empty_key other /\ size t = size other /\
     (forall k v, holds t k v <-> holds other k v) /\
     (forall fuel' : nat, bucket_count t < Z.of_nat fuel' ->
        exists es, traverse fuel' t = Done es /\
          forall k v, (k, v) ∈ es <-> holds other k v)) /\
  (forall fuel : nat,
     1 <= bc -> bucket_count other <= bc -> 2 ^ Z.log2_up bc <= max_size ->
     2 ^ Z.log2_up bc <= Z.of_nat fuel ->
     exists t, construct_from fuel other bc = Done t /\
       bucket_count t = 2 ^ Z.log2_up bc).
Proof.
  intros Hr Hbc. pose proof (reachable_wf other Hr) as Hwf. split.
  - intros fuel t Hrun.
    destruct (construct_from_done fuel other bc t Hwf ltac:(lia) Hrun) as (Hwf' & He & Hm).
    split_and!; try assumption.
    + apply same_mapping_same_size; assumption.
    + intros fuel' Hfuel'. pose proof (wf_bucket_count_bound t Hwf') as Hb'.
      exists (entries t). split; [apply traverse_spec; [lia | exact Hfuel'] |].
      intros k v. rewrite entries_holds. apply Hm.
  - intros fuel Hpos Hle Hfit Hfuel. pose proof max_size_range as Hmax.
    pose proof (wf_bucket_count_bound other Hwf) as Hb.
    pose proof (wf_load other Hwf) as Hload.
    pose proof (wf_size_range other Hwf) as Hs.
    pose proof (log2_up_ge bc ltac:(lia)) as Hge.
    remember (2 ^ Z.log2_up bc) as c eqn:Hc.
    assert (Hp : is_pow2 c).
    { exists (Z.log2_up bc). split; [apply Z.log2_up_nonneg | exact Hc]. }
    unfold construct_from, construct_copy, construct.
    rewrite compute_closest_capacity_in_range by lia. cbn [bind]. rewrite <- Hc.
    unfold vector_resize. destruct (Z.leb_spec c max_size); [| lia]. cbn [bind].
    fold (fresh c (m_empty_key other)).
    destruct (insert_range_no_growth fuel (m_empty_key other) (m_buckets other)
                (fresh c (m_empty_key other)))
      as (t' & Hrun & Hwf' & He' & Hn' & Hsz' & Hh').
    + apply fresh_wf; [right; exact Hp | exact Hfit].
    + split; rewrite fresh_bucket_count by lia; assumption.
    + reflexivity.
    + apply wf_distinct_keys. exact Hwf.
    + intros k v _ _ (v0 & Hh0). eapply fresh_not_holds. exact Hh0.
    + rewrite fresh_bucket_count by lia. change (m_size (fresh c (m_empty_key other))) with 0.
      change (occ_len (m_empty_key other) (m_buckets other)) with (occupied_count other).
      rewrite <- (wf_size other Hwf). rewrite Z.add_0_l. lia.
    + rewrite fresh_bucket_count by lia. exact Hfuel.
    + exists t'. split; [exact Hrun |]. rewrite Hn'. apply fresh_bucket_count. lia.
Qed.

(** ** [rehash] and [reserve] *)

(** X26. After [rehash(count)] the bucket count is the least power of two
    that is at least [8], at least [count] and at least twice the size as
    [float] measures it: [rehash] grows or shrinks the table to it, and
    the size is unchanged. *)
Theorem rehash_bucket_count (fuel : nat) t count t' :
  reachable t -> 0 <= count < 2 ^ 64 -> rehash fuel t count = Done t' ->
  is_pow2 (bucket_count t') /\ 8 <= bucket_count t' /\ count <= bucket_count t' /\
  2 * float_of_size (size t) <= bucket_count t' /\
  size t' = size t /\
  (forall c, is_pow2 c -> 8 <= c -> count <= c -> 2 * float_of_size (size t) <= c ->
     bucket_count t' <= c).
Proof.
  intros Hr Hcount Hrun. pose proof (reachable_wf t Hr) as Hwf.
  destruct (rehash_done fuel t count t' Hwf Hrun) as (_ & _ & Hn & Hs & _).
  pose proof (rehash_target_range t count Hwf) as H8.
  pose proof (log2_up_ge (rehash_target t count) ltac:(lia)) as Hge.
  unfold size. rewrite Hn. unfold rehash_target, minimum_capacity in *.
  split_and!; try lia.
  - eexists. split; [apply Z.log2_up_nonneg | reflexivity].
  - intros c (q & Hq & ->) Hc8 Hcc Hcl. apply log2_up_least; lia.
Qed.

(** X27. [reserve(count)] makes room for [count] entries: the bucket count
    is at least twice [count] as [float] rounds it, which is [count] itself
    up to [2^24], and no insertion rehashes while the size is below
    [count]. *)
Theorem reserve_makes_room (fuel : nat) t count t' :
  reachable t -> 0 <= count < 2 ^ 64 -> reserve fuel t count = Done t' ->
  2 * float_of_size count <= bucket_count t' /\
  (count <= 2 ^ 24 -> 2 * count <= bucket_count t') /\
  (forall (fuel' : nat) k v r, k <> m_empty_key t' -> size t' < count ->
     insert fuel' t' (k, v) = Done r -> bucket_count r.1 = bucket_count t').
Proof.
  intros Hr Hcount Hrun. pose proof (reachable_wf t Hr) as Hwf.
  destruct (reserve_done fuel t count t' Hwf Hrun) as (Hwf' & _).
  unfold reserve, size_of_float, float_div_half in Hrun.
  destruct (2 * float_of_size count <? 2 ^ size_t_digits); cbn [bind] in Hrun;
    [| discriminate].
  destruct (rehash_done fuel t _ t' Hwf Hrun) as (_ & _ & Hn & _).
  pose proof (rehash_target_range t (2 * float_of_size count) Hwf) as H8.
  pose proof (log2_up_ge (rehash_target t (2 * float_of_size count)) ltac:(lia)) as Hge.
  assert (Hroom : 2 * float_of_size count <= bucket_count t').
  { rewrite Hn. unfold rehash_target in Hge |- *. lia. }
  split_and!.
  - exact Hroom.
  - intros Hsmall. destruct (Z.eq_dec count (2 ^ 24)) as [He | Hne].
    + rewrite He in *. change (float_of_size (2 ^ 24)) with (2 ^ 24) in Hroom. lia.
    + rewrite float_of_size_small in Hroom by lia. lia.
  - intros fuel' k v r Hk Hsz Hins. unfold size in Hsz.
    unfold insert in Hins. cbn [fst snd] in Hins.
    pose proof (emplace_impl_done fuel' t' k v r Hwf' Hk Hins) as (_ & _ & _ & Hn' & _).
    rewrite Hn'. unfold needs_growth.
    pose proof (float_of_size_mono (m_size t' + 1) count ltac:(lia)).
    destruct (Z.ltb_spec (bucket_count t') (2 * float_of_size (m_size t' + 1)));
      [lia | reflexivity].
Qed.

(** X28. [reserve] of [2^63] entries or more is undefined: twice the count
    is [2^64] or more as a [float], which no [size_type] argument of
    [rehash] can take. *)
Theorem reserve_overflow (fuel : nat) t (count : Z) :
  2 ^ 63 <= count < 2 ^ 64 -> reserve fuel t count = Fault FloatCastRange.
Proof.
  intros Hc. unfold reserve, size_of_float, float_div_half.
  pose proof (float_of_size_mono (2 ^ 63) count ltac:(lia)) as Hm.
  change (float_of_size (2 ^ 63)) with (2 ^ 63) in Hm.
  destruct (Z.ltb_spec (2 * float_of_size count) (2 ^ size_t_digits)) as [Hlt | Hge];
    [| reflexivity].
  change (2 ^ size_t_digits) with (2 ^ 64) in Hlt. lia.
Qed.

End members.

(** ** The counting allocator *)

Import count_allocator.

Lemma wrap_add_sub (a b : Z) : 0 <= a < 2 ^ 64 -> wrap (wrap (a + wrap b) - wrap b) = a.
Proof.
  intros Ha. unfold wrap, size_t_digits.
  rewrite Zminus_mod_idemp_l. rewrite Zminus_mod.
  rewrite Zplus_mod_idemp_r. rewrite Z.mod_mod by lia.
  rewrite <- Zminus_mod. replace (a + b - b) with a by lia. apply Z.mod_small. exact Ha.
Qed.

(** X29. [deallocate(p, n)] after [allocate(n)] brings [cur_bytes()] back to
    what it was, while [peak_bytes()] keeps the level reached in between. *)
Theorem allocate_deallocate_round_trip (sizeof_T : Z) (granted : bool)
    (m m' : memory_count) (n : Z) :
  0 <= cur_bytes m < 2 ^ 64 ->
  allocate sizeof_T granted m n = Some m' ->
  cur_bytes (deallocate sizeof_T m' n) = cur_bytes m /\
  peak_bytes (deallocate sizeof_T m' n) = Z.max (cur_bytes m') (peak_bytes m) /\
  cur_bytes m' <= peak_bytes m' /\ peak_bytes m <= peak_bytes m'.
Proof.
  intros Hcur. unfold allocate.
  destruct ((n * sizeof_T <? 2 ^ size_t_digits) && granted); [| discriminate].
  intros [= <-]. unfold deallocate, ReclaimMemory, UseMemory, cur_bytes, peak_bytes in *.
  cbn [m_curBytes m_peakBytes]. split_and!; try lia.
  apply wrap_add_sub. exact Hcur.
Qed.

(** X30. Over any sequence of allocations and deallocations in which
    nothing is given back that is not in use, [cur_bytes()] is the number of
    bytes in use and [peak_bytes()] the largest number in use at any time,
    counted from the values the counters started with; [peak_bytes()] never
    falls, and it is at least [cur_bytes()] if it was so at the start. *)
Theorem memory_accounting (sizeof_T : Z) (calls : list call) : forall (m : memory_count) b,
  0 <= sizeof_T -> 0 <= cur_bytes m < 2 ^ 64 ->
  live_bytes sizeof_T (cur_bytes m) calls = Some b ->
  exists m', run sizeof_T m calls = Some m' /\
    cur_bytes m' = b /\
    peak_bytes m' = high_water sizeof_T (cur_bytes m) (peak_bytes m) calls /\
    peak_bytes m <= peak_bytes m' /\
    (cur_bytes m <= peak_bytes m -> cur_bytes m' <= peak_bytes m').
Proof.
  induction calls as [| [n | n] calls IH]; intros m b Hsz Hcur Hlive.
  - cbn [live_bytes] in Hlive. injection Hlive as <-. exists m. cbn [run high_water].
    split_and!; try reflexivity; lia.
  - cbn [live_bytes] in Hlive.
    destruct (Z.leb_spec 0 n) as [Hn | Hn]; cbn [andb] in Hlive; [| discriminate].
    destruct (Z.ltb_spec (cur_bytes m + n * sizeof_T) (2 ^ size_t_digits)) as [Hfit | Hfit];
      [| discriminate].
    change (2 ^ size_t_digits) with (2 ^ 64) in Hfit.
    assert (Hb0 : 0 <= n * sizeof_T) by nia.
    cbn [run]. unfold allocate. change (2 ^ size_t_digits) with (2 ^ 64).
    destruct (Z.ltb_spec (n * sizeof_T) (2 ^ 64)) as [_ | Hbad]; [| lia]. cbn [andb].
    rewrite (wrap_small (n * sizeof_T)) by lia.
    assert (Hcur' : cur_bytes (UseMemory m (n * sizeof_T)) = cur_bytes m + n * sizeof_T).
    { unfold UseMemory, cur_bytes. cbn [m_curBytes]. apply wrap_small.
      unfold cur_bytes in *. lia. }
    assert (Hpeak' : peak_bytes (UseMemory m (n * sizeof_T)) =
                     Z.max (cur_bytes m + n * sizeof_T) (peak_bytes m)).
    { unfold UseMemory, peak_bytes, cur_bytes in *. cbn [m_peakBytes]. f_equal.
      apply wrap_small. lia. }
    destruct (IH (UseMemory m (n * sizeof_T)) b Hsz) as (m' & Hrun & Hc & Hp & Hmono & Hinv).
    { rewrite Hcur'. lia. }
    { rewrite Hcur'. exact Hlive. }
    exists m'. rewrite Hcur', Hpeak' in *. cbn [high_water].
    split_and!; try assumption; lia.
  - cbn [live_bytes] in Hlive.
    destruct (Z.leb_spec 0 n) as [Hn | Hn]; cbn [andb] in Hlive; [| discriminate].
    destruct (Z.leb_spec (n * sizeof_T) (cur_bytes m)) as [Hfit | Hfit]; [| discriminate].
    assert (Hb0 : 0 <= n * sizeof_T) by nia.
    cbn [run]. unfold deallocate.
    rewrite (wrap_small (n * sizeof_T)) by lia.
    assert (Hcur' : cur_bytes (ReclaimMemory m (n * sizeof_T)) = cur_bytes m - n * sizeof_T).
    { unfold ReclaimMemory, cur_bytes. cbn [m_curBytes]. apply wrap_small.
      unfold cur_bytes in *. lia. }
    assert (Hpeak' : peak_bytes (ReclaimMemory m (n * sizeof_T)) = peak_bytes m)
      by reflexivity.
    destruct (IH (ReclaimMemory m (n * sizeof_T)) b Hsz) as (m' & Hrun & Hc & Hp & Hmono & Hinv).
    { rewrite Hcur'. lia. }
    { rewrite Hcur'. exact Hlive. }
    exists m'. rewrite Hcur', Hpeak' in *. cbn [high_water].
    split_and!; try assumption. intros Hle. apply Hinv. lia.
Qed.

(** ** The further properties on the concrete instance *)

Lemma is_pow2_8 : is_pow2 8.
Proof. exists 3. split; [lia | reflexivity]. Qed.

Lemma demo_table_usable : usable (cfg := demo) demo_table.
Proof. split; [exact is_pow2_8 | discriminate]. Qed.

Lemma demo_four_reachable : reachable (cfg := demo) demo_four.
Proof.
  apply (reach_insert (cfg := demo) 9 demo_table 25 250 (demo_four, (4, true)));
    [exact demo_table_reachable | discriminate | reflexivity].
Qed.

Lemma demo_absent_25 : ~ present demo_table 25.
Proof.
  intros (v & _ & i & Hi). pose proof (slot_range _ _ _ Hi) as Hr.
  change (bucket_count demo_table) with 8 in Hr.
  assert (Hc : i = 0 \/ i = 1 \/ i = 2 \/ i = 3 \/ i = 4 \/ i = 5 \/ i = 6 \/ i = 7) by lia.
  destruct Hc as [-> | [-> | [-> | [-> | [-> | [-> | [-> | ->]]]]]]]; discriminate.
Qed.

Lemma demo_small_four_reachable : reachable (cfg := demo_small) demo_four.
Proof.
  assert (H0 : reachable (cfg := demo_small) demo_empty8)
    by (apply (reach_construct (cfg := demo_small) 8 0); [lia | reflexivity]).
  apply (reach_insert (cfg := demo_small) 8 demo_empty8 1 10 (demo_one, (1, true))) in H0;
    [| discriminate | reflexivity].
  apply (reach_insert (cfg := demo_small) 8 demo_one 9 90 (demo_two, (2, true))) in H0;
    [| discriminate | reflexivity].
  apply (reach_insert (cfg := demo_small) 8 demo_two 17 170 (demo_table, (3, true))) in H0;
    [| discriminate | reflexivity].
  apply (reach_insert (cfg := demo_small) 8 demo_table 25 250 (demo_four, (4, true))) in H0;
    [| discriminate | reflexivity].
  exact H0.
Qed.

Lemma demo_release_empty8_reachable : reachable (cfg := demo_release) demo_empty8.
Proof. apply (reach_construct (cfg := demo_release) 8 0); [lia | reflexivity]. Qed.

Lemma compute_index_remainder_witness :
  is_pow2 8 /\ 8 <= 2 ^ 63 /\ 0 <= 13 < 2 ^ 64 /\
  compute_index 13 8 = 13 mod 8 /\
  0 <= compute_index 13 8 < 8 /\
  compute_index (compute_index 13 8) 8 = compute_index 13 8.
Proof.
  split; [exact is_pow2_8 |]. split; [lia |]. split; [lia |].
  apply (compute_index_remainder 13 8); [exact is_pow2_8 | lia | lia].
Defined.

Lemma closest_capacity_least_witness :
  1 <= 5 <= 2 ^ 63 /\
  exists c, compute_closest_capacity false 5 = Done c /\
    is_pow2 c /\ 5 <= c /\ c < 2 * 5 /\
    (forall c', is_pow2 c' -> 5 <= c' -> c <= c') /\
    compute_closest_capacity false c = Done c.
Proof.
  split; [lia |]. apply (closest_capacity_least false 5). lia.
Defined.

Lemma constructor_result_witness :
  1 <= 5 < 2 ^ 64 /\ 5 <= 2 ^ 63 /\ 2 ^ Z.log2_up 5 <= max_size (Config := demo) /\
  exists t, construct (cfg := demo) 5 0 = Done t /\ bucket_count t = 2 ^ Z.log2_up 5 /\
    size t = 0 /\ m_empty_key t = 0 /\
    (forall i, 0 <= i < bucket_count t -> slot t i = Some (0, T_default (Config := demo))) /\
    (forall (fuel : nat) k, k <> 0 -> (0 < fuel)%nat ->
       find (cfg := demo) fuel t k = Done (end_ t)).
Proof.
  split; [lia |]. split; [lia |]. split; [discriminate |].
  apply (constructor_result (cfg := demo) 5 0); [lia | lia | discriminate].
Defined.

Lemma insert_into_no_buckets_witness :
  5 <> 0 /\ 8 <= max_size (Config := demo) /\ 8 < Z.of_nat 9 /\
  exists t0 r, construct (cfg := demo) 0 0 = Done t0 /\ bucket_count t0 = 0 /\
    insert (cfg := demo) 9 t0 (5, 50) = Done r /\
    bucket_count r.1 = 8 /\ r.2.2 = true /\ size r.1 = 1 /\
    slot r.1 r.2.1 = Some (5, 50) /\
    find (cfg := demo) 9 r.1 5 = Done r.2.1.
Proof.
  split; [discriminate |]. split; [discriminate |]. split; [lia |].
  apply (insert_into_no_buckets (cfg := demo) 9 0 5 50); [discriminate | discriminate | lia].
Defined.

Lemma probe_cycle_witness :
  usable (cfg := demo) demo_table /\ 0 <= 6 < bucket_count demo_table /\
  (forall j : nat, 0 <= Nat.iter j (probe_next demo_table) 6 < bucket_count demo_table) /\
  Nat.iter (Z.to_nat (bucket_count demo_table)) (probe_next demo_table) 6 = 6 /\
  (forall x, 0 <= x < bucket_count demo_table ->
     exists j : nat, Z.of_nat j = dist (bucket_count demo_table) x 6 /\
       Z.of_nat j < bucket_count demo_table /\ Nat.iter j (probe_next demo_table) 6 = x) /\
  (forall i j : nat, Z.of_nat i < bucket_count demo_table ->
     Z.of_nat j < bucket_count demo_table ->
     Nat.iter i (probe_next demo_table) 6 = Nat.iter j (probe_next demo_table) 6 -> i = j) /\
  (forall j : nat, Z.of_nat j < bucket_count demo_table ->
     diff demo_table (Nat.iter j (probe_next demo_table) 6) 6 = Z.of_nat j).
Proof.
  split; [exact demo_table_usable |]. split; [split; [lia | reflexivity] |].
  apply (probe_cycle (cfg := demo) demo_table 6);
    [exact demo_table_usable | split; [lia | reflexivity]].
Defined.

Lemma probe_length_witness :
  reachable (cfg := demo) demo_table /\ 0 < bucket_count demo_table /\
  17 <> m_empty_key demo_table /\ size demo_table < Z.of_nat 4 /\
  (exists it, find (cfg := demo) 4 demo_table 17 = Done it) /\
  (forall v, exists r,
     emplace_loop (cfg := demo) 4 demo_table 17 v (key_to_idx (cfg := demo) demo_table 17)
     = Done r).
Proof.
  split; [exact demo_table_reachable |]. split; [reflexivity |].
  split; [discriminate |]. split; [reflexivity |].
  apply (probe_length (cfg := demo) 4 demo_table 17);
    [exact demo_table_reachable | reflexivity | discriminate | reflexivity].
Defined.

Lemma find_result_witness :
  reachable (cfg := demo) demo_table /\ 0 < bucket_count demo_table /\
  9 <> m_empty_key demo_table /\ bucket_count demo_table <= Z.of_nat 8 /\
  exists it, find (cfg := demo) 8 demo_table 9 = Done it /\
    (it = end_ demo_table <-> ~ present demo_table 9) /\
    (it <> end_ demo_table ->
       0 <= it < bucket_count demo_table /\ exists v, slot demo_table it = Some (9, v)).
Proof.
  split; [exact demo_table_reachable |]. split; [reflexivity |].
  split; [discriminate |]. split; [discriminate |].
  apply (find_result (cfg := demo) 8 demo_table 9);
    [exact demo_table_reachable | reflexivity | discriminate | discriminate].
Defined.

Lemma count_membership_witness :
  reachable (cfg := demo) demo_table /\ 0 < bucket_count demo_table /\
  9 <> m_empty_key demo_table /\ bucket_count demo_table <= Z.of_nat 8 /\
  (present demo_table 9 -> count (cfg := demo) 8 demo_table 9 = Done 1) /\
  (~ present demo_table 9 -> count (cfg := demo) 8 demo_table 9 = Done 0).
Proof.
  split; [exact demo_table_reachable |]. split; [reflexivity |].
  split; [discriminate |]. split; [discriminate |].
  apply (count_membership (cfg := demo) 8 demo_table 9);
    [exact demo_table_reachable | reflexivity | discriminate | discriminate].
Defined.

Lemma at_result_witness :
  reachable (cfg := demo) demo_table /\ 0 < bucket_count demo_table /\
  25 <> m_empty_key demo_table /\ bucket_count demo_table <= Z.of_nat 8 /\
  (forall v, holds demo_table 25 v <-> at_ (cfg := demo) 8 demo_table 25 = Done v) /\
  (~ present demo_table 25 <-> at_ (cfg := demo) 8 demo_table 25 = Fault KeyNotFound).
Proof.
  split; [exact demo_table_reachable |]. split; [reflexivity |].
  split; [discriminate |]. split; [discriminate |].
  apply (at_result (cfg := demo) 8 demo_table 25);
    [exact demo_table_reachable | reflexivity | discriminate | discriminate].
Defined.

Lemma insert_new_key_witness :
  reachable (cfg := demo) demo_table /\ 25 <> m_empty_key demo_table /\
  ~ present demo_table 25 /\
  insert (cfg := demo) 9 demo_table (25, 250) = Done (demo_four, (4, true)) /\
  (forall (fuel : nat) r, insert (cfg := demo) fuel demo_table (25, 250) = Done r ->
     r.2.2 = true /\ size r.1 = size demo_table + 1 /\ slot r.1 r.2.1 = Some (25, 250) /\
     (forall k' v', holds r.1 k' v' <-> holds demo_table k' v' \/ (k' = 25 /\ v' = 250))) /\
  (forall fuel : nat,
     Z.max 8 (4 * bucket_count demo_table) <= max_size (Config := demo) ->
     Z.max 8 (4 * bucket_count demo_table) < Z.of_nat fuel ->
     exists r, insert (cfg := demo) fuel demo_table (25, 250) = Done r).
Proof.
  split; [exact demo_table_reachable |]. split; [discriminate |].
  split; [exact demo_absent_25 |]. split; [reflexivity |].
  apply (insert_new_key (cfg := demo) demo_table 25 250);
    [exact demo_table_reachable | discriminate | exact demo_absent_25].
Defined.

Lemma insert_keeps_buckets_witness :
  reachable (cfg := demo) demo_table /\ 25 <> m_empty_key demo_table /\
  2 * (size demo_table + 1) <= bucket_count demo_table /\
  insert (cfg := demo) 9 demo_table (25, 250) = Done (demo_four, (4, true)) /\
  (forall (fuel : nat) r, insert (cfg := demo) fuel demo_table (25, 250) = Done r ->
     bucket_count r.1 = bucket_count demo_table /\
     (forall i, i <> r.2.1 -> slot r.1 i = slot demo_table i) /\
     (r.2.2 = false -> r.1 = demo_table)) /\
  (forall fuel : nat, bucket_count demo_table < Z.of_nat fuel ->
     exists r, insert (cfg := demo) fuel demo_table (25, 250) = Done r).
Proof.
  split; [exact demo_table_reachable |]. split; [discriminate |].
  split; [discriminate |]. split; [reflexivity |].
  apply (insert_keeps_buckets (cfg := demo) demo_table 25 250);
    [exact demo_table_reachable | discriminate | discriminate].
Defined.

Lemma insert_growth_witness :
  reachable (cfg := demo) demo_four /\ 33 <> m_empty_key demo_four /\
  bucket_count demo_four < 2 * float_of_size (size demo_four + 1) /\
  exists r, insert (cfg := demo) 40 demo_four (33, 330) = Done r /\
    (bucket_count demo_four < 2 * float_of_size (size demo_four + 1) ->
       bucket_count r.1 = Z.max 8 (4 * bucket_count demo_four)) /\
    (2 * float_of_size (size demo_four + 1) <= bucket_count demo_four ->
       bucket_count r.1 = bucket_count demo_four) /\
    bucket_count demo_four <= bucket_count r.1 /\
    is_pow2 (bucket_count r.1) /\
    (forall k' v', holds demo_four k' v' -> holds r.1 k' v').
Proof.
  split; [exact demo_four_reachable |]. split; [discriminate |]. split; [reflexivity |].
  destruct (insert (cfg := demo) 40 demo_four (33, 330)) as [r | e |] eqn:Hrun;
    [| vm_compute in Hrun; discriminate | vm_compute in Hrun; discriminate].
  exists r. split; [reflexivity |].
  apply (insert_growth (cfg := demo) 40 demo_four 33 330 r);
    [exact demo_four_reachable | discriminate | exact Hrun].
Defined.

Lemma insert_length_error_witness :
  reachable (cfg := demo_small) demo_four /\ 33 <> m_empty_key demo_four /\
  bucket_count demo_four < 2 * float_of_size (size demo_four + 1) /\
  max_size (Config := demo_small) < Z.max 8 (4 * bucket_count demo_four) /\
  insert (cfg := demo_small) 9 demo_four (33, 330) = Fault LengthError.
Proof.
  split; [exact demo_small_four_reachable |]. split; [discriminate |].
  split; [reflexivity |]. split; [reflexivity |].
  apply (insert_length_error (cfg := demo_small) 8 demo_four 33 330);
    [exact demo_small_four_reachable | discriminate | reflexivity | reflexivity].
Defined.

Lemma subscript_result_witness :
  reachable (cfg := demo) demo_table /\
  9 <> m_empty_key demo_table /\ 25 <> m_empty_key demo_table /\
  holds demo_table 9 90 /\ ~ present demo_table 25 /\
  subscript (cfg := demo) 9 demo_table 9 = Done (demo_table, 2) /\
  subscript (cfg := demo) 9 demo_table 25 = Done (demo_defaulted, 4) /\
  (slot demo_table 2 = Some (9, 90) /\ size demo_table = size demo_table /\
   forall k' v', holds demo_table k' v' <-> holds demo_table k' v') /\
  (slot demo_defaulted 4 = Some (25, T_default (Config := demo)) /\
   size demo_defaulted = size demo_table + 1 /\
   forall k' v', holds demo_defaulted k' v' <->
     holds demo_table k' v' \/ (k' = 25 /\ v' = T_default (Config := demo))) /\
  (exists r, subscript (cfg := demo) 33 demo_table 9 = Done r) /\
  (exists r, subscript (cfg := demo) 33 demo_table 25 = Done r).
Proof.
  destruct (subscript_result (cfg := demo) demo_table 9 demo_table_reachable
              ltac:(discriminate)) as [Hdone9 Hruns9].
  destruct (subscript_result (cfg := demo) demo_table 25 demo_table_reachable
              ltac:(discriminate)) as [Hdone25 Hruns25].
  split; [exact demo_table_reachable |]. split; [discriminate |]. split; [discriminate |].
  split; [exact demo_holds_9 |]. split; [exact demo_absent_25 |].
  split; [reflexivity |]. split; [reflexivity |].
  split; [apply (Hdone9 9%nat (demo_table, 2) eq_refl); exact demo_holds_9 |].
  split; [apply (Hdone25 9%nat (demo_defaulted, 4) eq_refl); exact demo_absent_25 |].
  split; [apply Hruns9; [discriminate | reflexivity] |].
  apply Hruns25; [discriminate | reflexivity].
Defined.

Lemma empty_key_unchecked_witness :
  ndebug (Config := demo_release) = true /\ reachable (cfg := demo_release) demo_empty8 /\
  insert (cfg := demo_release) 9 demo_empty8 (m_empty_key demo_empty8, 7)
    = Done (demo_miscounted, (0, true)) /\
  (forall (fuel : nat) r,
     insert (cfg := demo_release) fuel demo_empty8 (m_empty_key demo_empty8, 7) = Done r ->
     r.2.2 = true /\ vacant r.1 r.2.1 /\
     size r.1 = size demo_empty8 + 1 /\
     occupied_count (cfg := demo_release) r.1
       = occupied_count (cfg := demo_release) demo_empty8 /\
     size r.1 <> occupied_count (cfg := demo_release) r.1 /\
     (forall k' v', holds r.1 k' v' <-> holds demo_empty8 k' v')) /\
  (forall fuel : nat,
     Z.max 8 (4 * bucket_count demo_empty8) <= max_size (Config := demo_release) ->
     Z.max 8 (4 * bucket_count demo_empty8) < Z.of_nat fuel ->
     exists r, insert (cfg := demo_release) fuel demo_empty8 (m_empty_key demo_empty8, 7)
               = Done r).
Proof.
  split; [reflexivity |]. split; [exact demo_release_empty8_reachable |].
  split; [reflexivity |].
  apply (empty_key_unchecked (cfg := demo_release) demo_empty8 7);
    [reflexivity | exact demo_release_empty8_reachable].
Defined.

Lemma erase_result_witness :
  reachable (cfg := demo) demo_four /\ 25 <> m_empty_key demo_four /\
  erase (cfg := demo) 8 demo_four 25 = Done (demo_four_erased, 1) /\
  (forall (fuel : nat) r, erase (cfg := demo) fuel demo_four 25 = Done r ->
     bucket_count r.1 = bucket_count demo_four /\ m_empty_key r.1 = m_empty_key demo_four /\
     size r.1 = size demo_four - r.2 /\
     (r.2 = 1 /\ present demo_four 25 \/
      r.2 = 0 /\ ~ present demo_four 25 /\ r.1 = demo_four) /\
     (forall k' v', holds r.1 k' v' <-> holds demo_four k' v' /\ k' <> 25)) /\
  (forall fuel : nat, 0 < bucket_count demo_four -> bucket_count demo_four <= Z.of_nat fuel ->
     exists r, erase (cfg := demo) fuel demo_four 25 = Done r).
Proof.
  split; [exact demo_four_reachable |]. split; [discriminate |]. split; [reflexivity |].
  apply (erase_result (cfg := demo) demo_four 25);
    [exact demo_four_reachable | discriminate].
Defined.

Lemma erase_by_iterator_witness :
  reachable (cfg := demo) demo_table /\ slot demo_table 2 = Some (9, 90) /\
  9 <> m_empty_key demo_table /\ bucket_count demo_table <= Z.of_nat 8 /\
  exists t', erase_it (cfg := demo) 8 demo_table 2 = Done t' /\
    size t' = size demo_table - 1 /\ bucket_count t' = bucket_count demo_table /\
    find (cfg := demo) 8 t' 9 = Done (end_ t') /\
    (forall k' v', holds t' k' v' <-> holds demo_table k' v' /\ k' <> 9).
Proof.
  split; [exact demo_table_reachable |]. split; [reflexivity |].
  split; [discriminate |]. split; [discriminate |].
  apply (erase_by_iterator (cfg := demo) 8 demo_table 2 9 90);
    [exact demo_table_reachable | reflexivity | discriminate | discriminate].
Defined.

Lemma insert_then_erase_witness :
  reachable (cfg := demo) demo_table /\ 25 <> m_empty_key demo_table /\
  ~ present demo_table 25 /\
  insert (cfg := demo) 9 demo_table (25, 250) = Done (demo_four, (4, true)) /\
  bucket_count demo_four <= Z.of_nat 8 /\
  exists t', erase (cfg := demo) 8 demo_four 25 = Done (t', 1) /\
    size t' = size demo_table /\
    (forall k' v', holds t' k' v' <-> holds demo_table k' v').
Proof.
  split; [exact demo_table_reachable |]. split; [discriminate |].
  split; [exact demo_absent_25 |]. split; [reflexivity |]. split; [discriminate |].
  apply (insert_then_erase (cfg := demo) 9 8 demo_table 25 250 (demo_four, (4, true)));
    [exact demo_table_reachable | discriminate | exact demo_absent_25 | reflexivity
    | discriminate].
Defined.

Lemma erase_end_out_of_bounds_witness :
  reachable (cfg := demo) demo_table /\ bucket_count demo_table < Z.of_nat 9 /\
  erase_it (cfg := demo) 9 demo_table (end_ demo_table) = Fault OutOfBounds /\
  (forall it, 0 <= it < bucket_count demo_table ->
     erase_it (cfg := demo) 9 demo_table it <> Fault OutOfBounds).
Proof.
  split; [exact demo_table_reachable |]. split; [reflexivity |].
  apply (erase_end_out_of_bounds (cfg := demo) 9 demo_table);
    [exact demo_table_reachable | reflexivity].
Defined.

Lemma clear_empties_witness :
  reachable (cfg := demo) demo_table /\
  size (clear (cfg := demo) demo_table) = 0 /\
  empty (clear (cfg := demo) demo_table) = true /\
  bucket_count (clear (cfg := demo) demo_table) = bucket_count demo_table /\
  m_empty_key (clear (cfg := demo) demo_table) = m_empty_key demo_table /\
  (forall i b, slot demo_table i = Some b ->
     slot (clear (cfg := demo) demo_table) i = Some (m_empty_key demo_table, b.2)) /\
  (forall k v, ~ holds (clear (cfg := demo) demo_table) k v) /\
  (forall (fuel : nat) k, 0 < bucket_count demo_table -> k <> m_empty_key demo_table ->
     (0 < fuel)%nat ->
     find (cfg := demo) fuel (clear (cfg := demo) demo_table) k
       = Done (end_ (clear (cfg := demo) demo_table)) /\
     count (cfg := demo) fuel (clear (cfg := demo) demo_table) k = Done 0 /\
     at_ (cfg := demo) fuel (clear (cfg := demo) demo_table) k = Fault KeyNotFound).
Proof.
  split; [exact demo_table_reachable |].
  apply (clear_empties (cfg := demo) demo_table). exact demo_table_reachable.
Defined.

Lemma empty_iff_no_entries_witness :
  reachable (cfg := demo) demo_table /\
  (empty demo_table = true <-> forall k v, ~ holds demo_table k v) /\
  (empty demo_table = false <-> exists k, present demo_table k) /\
  0 <= size demo_table /\ size demo_table = Z.of_nat (length (entries (cfg := demo) demo_table)).
Proof.
  split; [exact demo_table_reachable |].
  apply (empty_iff_no_entries (cfg := demo) demo_table). exact demo_table_reachable.
Defined.

Lemma begin_first_occupied_witness :
  reachable (cfg := demo) demo_table /\ bucket_count demo_table < Z.of_nat 9 /\
  exists it, begin_ (cfg := demo) 9 demo_table = Done it /\
    0 <= it <= bucket_count demo_table /\
    (forall x, 0 <= x < it -> vacant demo_table x) /\
    (it <> end_ demo_table -> occupied demo_table it) /\
    (it = end_ demo_table <-> empty demo_table = true).
Proof.
  split; [exact demo_table_reachable |]. split; [reflexivity |].
  apply (begin_first_occupied (cfg := demo) 9 demo_table);
    [exact demo_table_reachable | reflexivity].
Defined.

Lemma traverse_entries_witness :
  reachable (cfg := demo) demo_table /\ bucket_count demo_table < Z.of_nat 9 /\
  traverse (cfg := demo) 9 demo_table = Done [(1, 10); (9, 90); (17, 170)] /\
  exists es, traverse (cfg := demo) 9 demo_table = Done es /\
    es = filter (fun b => b.1 <> m_empty_key demo_table) (m_buckets demo_table) /\
    Z.of_nat (length es) = size demo_table /\
    NoDup es.*1 /\
    (forall k v, (k, v) ∈ es <-> holds demo_table k v).
Proof.
  split; [exact demo_table_reachable |]. split; [reflexivity |]. split; [reflexivity |].
  apply (traverse_entries (cfg := demo) 9 demo_table);
    [exact demo_table_reachable | reflexivity].
Defined.

Lemma copy_constructor_iterates_witness :
  bucket_count demo_table < 2 ^ 64 /\ bucket_count demo_table < Z.of_nat 9 /\
  construct_copy_iter (cfg := demo) (emplace_impl (cfg := demo) 20) 9 demo_table 8 =
  construct_copy (cfg := demo) (emplace_impl (cfg := demo) 20) demo_table 8.
Proof.
  split; [reflexivity |]. split; [reflexivity |].
  apply (copy_constructor_iterates (cfg := demo) (emplace_impl (cfg := demo) 20) 9 demo_table 8);
    reflexivity.
Defined.

Lemma copy_constructor_result_witness :
  reachable (cfg := demo) demo_table /\ 0 <= 8 < 2 ^ 64 /\
  construct_from (cfg := demo) 9 demo_table 8 = Done demo_table /\
  (forall (fuel : nat) t, construct_from (cfg := demo) fuel demo_table 8 = Done t ->
     m_empty_key t = m_empty_key demo_table /\ size t = size demo_table /\
     (forall k v, holds t k v <-> holds demo_table k v) /\
     (forall fuel' : nat, bucket_count t < Z.of_nat fuel' ->
        exists es, traverse (cfg := demo) fuel' t = Done es /\
          forall k v, (k, v) ∈ es <-> holds demo_table k v)) /\
  (forall fuel : nat,
     1 <= 8 -> bucket_count demo_table <= 8 -> 2 ^ Z.log2_up 8 <= max_size (Config := demo) ->
     2 ^ Z.log2_up 8 <= Z.of_nat fuel ->
     exists t, construct_from (cfg := demo) fuel demo_table 8 = Done t /\
       bucket_count t = 2 ^ Z.log2_up 8).
Proof.
  split; [exact demo_table_reachable |]. split; [lia |]. split; [reflexivity |].
  apply (copy_constructor_result (cfg := demo) demo_table 8);
    [exact demo_table_reachable | lia].
Defined.

Lemma rehash_bucket_count_witness :
  reachable (cfg := demo) demo_table /\ 0 <= 0 < 2 ^ 64 /\
  rehash (cfg := demo) 9 demo_table 0 = Done demo_table /\
  is_pow2 (bucket_count demo_table) /\ 8 <= bucket_count demo_table /\
  0 <= bucket_count demo_table /\
  2 * float_of_size (size demo_table) <= bucket_count demo_table /\
  size demo_table = size demo_table /\
  (forall c, is_pow2 c -> 8 <= c -> 0 <= c -> 2 * float_of_size (size demo_table) <= c ->
     bucket_count demo_table <= c).
Proof.
  split; [exact demo_table_reachable |]. split; [lia |]. split; [reflexivity |].
  apply (rehash_bucket_count (cfg := demo) 9 demo_table 0 demo_table);
    [exact demo_table_reachable | lia | reflexivity].
Defined.

Lemma reserve_makes_room_witness :
  reachable (cfg := demo) demo_table /\ 0 <= 4 < 2 ^ 64 /\
  reserve (cfg := demo) 9 demo_table 4 = Done demo_table /\
  2 * float_of_size 4 <= bucket_count demo_table /\
  (4 <= 2 ^ 24 -> 2 * 4 <= bucket_count demo_table) /\
  (forall (fuel' : nat) k v r, k <> m_empty_key demo_table -> size demo_table < 4 ->
     insert (cfg := demo) fuel' demo_table (k, v) = Done r ->
     bucket_count r.1 = bucket_count demo_table).
Proof.
  split; [exact demo_table_reachable |]. split; [lia |]. split; [reflexivity |].
  apply (reserve_makes_room (cfg := demo) 9 demo_table 4 demo_table);
    [exact demo_table_reachable | lia | reflexivity].
Defined.

Lemma reserve_overflow_witness :
  2 ^ 63 <= 2 ^ 63 < 2 ^ 64 /\
  reserve (cfg := demo) 9 demo_table (2 ^ 63) = Fault FloatCastRange.
Proof.
  split; [lia |]. apply (reserve_overflow (cfg := demo) 9 demo_table (2 ^ 63)). lia.
Defined.

Lemma allocate_deallocate_round_trip_witness :
  0 <= cur_bytes instance < 2 ^ 64 /\
  allocate 72 true instance 8 = Some {| m_curBytes := 576; m_peakBytes := 576 |} /\
  cur_bytes (deallocate 72 {| m_curBytes := 576; m_peakBytes := 576 |} 8) = cur_bytes instance /\
  peak_bytes (deallocate 72 {| m_curBytes := 576; m_peakBytes := 576 |} 8) =
    Z.max (cur_bytes {| m_curBytes := 576; m_peakBytes := 576 |}) (peak_bytes instance) /\
  cur_bytes {| m_curBytes := 576; m_peakBytes := 576 |} <=
    peak_bytes {| m_curBytes := 576; m_peakBytes := 576 |} /\
  peak_bytes instance <= peak_bytes {| m_curBytes := 576; m_peakBytes := 576 |}.
Proof.
  split; [split; [reflexivity | reflexivity] |]. split; [reflexivity |].
  apply (allocate_deallocate_round_trip 72 true instance
           {| m_curBytes := 576; m_peakBytes := 576 |} 8);
    [split; [discriminate | reflexivity] | reflexivity].
Defined.

Lemma memory_accounting_witness :
  0 <= 72 /\ 0 <= cur_bytes instance < 2 ^ 64 /\
  live_bytes 72 (cur_bytes instance) demo_calls = Some 2304 /\
  exists m', run 72 instance demo_calls = Some m' /\
    cur_bytes m' = 2304 /\
    peak_bytes m' = high_water 72 (cur_bytes instance) (peak_bytes instance) demo_calls /\
    peak_bytes instance <= peak_bytes m' /\
    (cur_bytes instance <= peak_bytes instance -> cur_bytes m' <= peak_bytes m').
Proof.
  split; [lia |]. split; [split; [discriminate | reflexivity] |]. split; [reflexivity |].
  apply (memory_accounting 72 demo_calls instance 2304);
    [lia | split; [discriminate | reflexivity] | reflexivity].
Defined.

(** The probe for a key that is absent from a table at load one half:
    from home index 1 over the four entries to the vacant bucket 5. *)
Lemma probe_termination_witness :
  reachable (cfg := demo) demo_four /\ 33 <> m_empty_key demo_four /\
  (demo_four = demo_four /\ 0 < bucket_count demo_four) /\
  find_loop (cfg := demo) 5 demo_four 33 (key_to_idx (cfg := demo) demo_four 33)
    = Done (end_ demo_four) /\
  find_loop (cfg := demo) 4 demo_four 33 (key_to_idx (cfg := demo) demo_four 33)
    = Timeout /\
  (exists t1 r, check_for_rehash (cfg := demo) 40 demo_four = Done t1 /\
     bucket_count t1 = 32 /\ 0 <= r < bucket_count t1 /\
     dist (bucket_count t1) r (key_to_idx (cfg := demo) t1 33) <= size t1 /\
     scanned t1 33 (key_to_idx (cfg := demo) t1 33) r) /\
  exists r, 0 <= r < bucket_count demo_four /\
    dist (bucket_count demo_four) r (key_to_idx (cfg := demo) demo_four 33)
      <= size demo_four /\
    size demo_four < bucket_count demo_four /\
    scanned demo_four 33 (key_to_idx (cfg := demo) demo_four 33) r /\
    ((vacant demo_four r /\
      forall fuel : nat,
        dist (bucket_count demo_four) r (key_to_idx (cfg := demo) demo_four 33)
          < Z.of_nat fuel ->
        find_loop (cfg := demo) fuel demo_four 33 (key_to_idx (cfg := demo) demo_four 33)
          = Done (end_ demo_four) /\
        forall v, emplace_loop (cfg := demo) fuel demo_four 33 v
                    (key_to_idx (cfg := demo) demo_four 33)
                  = Done (placed demo_four r 33 v, (r, true)))
     \/
     (exists v0, slot demo_four r = Some (33, v0) /\
      forall fuel : nat,
        dist (bucket_count demo_four) r (key_to_idx (cfg := demo) demo_four 33)
          < Z.of_nat fuel ->
        find_loop (cfg := demo) fuel demo_four 33 (key_to_idx (cfg := demo) demo_four 33)
          = Done r /\
        forall v, emplace_loop (cfg := demo) fuel demo_four 33 v
                    (key_to_idx (cfg := demo) demo_four 33)
                  = Done (demo_four, (r, false)))).
Proof.
  split; [exact demo_four_reachable |]. split; [discriminate |].
  split; [split; reflexivity |]. split; [reflexivity |]. split; [reflexivity |].
  split.
  { destruct (check_for_rehash (cfg := demo) 40 demo_four) as [t1 | e |] eqn:Hrun;
      [| vm_compute in Hrun; discriminate | vm_compute in Hrun; discriminate].
    destruct (probe_termination (cfg := demo) demo_four t1 33 demo_four_reachable
                ltac:(discriminate) (or_intror (ex_intro _ 40%nat Hrun)))
      as (r & Hr & Hd & _ & Hsc & _).
    exists t1, r. split; [reflexivity |].
    split; [vm_compute in Hrun; injection Hrun as <-; reflexivity |].
    split; [exact Hr |]. split; [exact Hd | exact Hsc]. }
  apply (probe_termination (cfg := demo) demo_four demo_four 33).
  - exact demo_four_reachable.
  - discriminate.
  - left. split; reflexivity.
Defined.
